(** * Quixo players: bounded adversarial search and Monte Carlo learning

    A shallow embedding of [min_max.py] (the static evaluation, the plain
    Min-Max engine and its alpha-beta variant, both with per-role
    transposition caches) and of [monte_carlo_rl.py] (the state-value table,
    the return back-propagation and the training loop), followed by the
    properties that the specification states about them and by further
    properties of the code: its errors, what it keeps invariant, and how the
    engines relate to bounded minimax.

    Python integers are [Z]; a value of the search is an integer or one of
    the two infinite floats; dictionaries are [gmap]s; objects that the code
    mutates in place are passed in and handed back. Python exceptions and the
    exhaustion of the recursion budget of the model are the two ways in which
    a computation does not return. *)

From Stdlib Require Import ZArith Bool List Lia Reals Lra.
From stdpp Require Import base option list gmap.

Local Open Scope Z_scope.

(** ** Outcomes of a Python computation *)

Inductive exn := ValueError | IndexError | UnboundLocalError.

Inductive outcome (A : Type) :=
| Return (a : A)
| Raise (e : exn)
| OutOfFuel.
Arguments Return {A} a.
Arguments Raise {A} e.
Arguments OutOfFuel {A}.

#[global] Instance outcome_ret : MRet outcome := @Return.
#[global] Instance outcome_bind : MBind outcome := fun A B f m =>
  match m with
  | Return a => f a
  | Raise e => Raise e
  | OutOfFuel => OutOfFuel
  end.

(** ** Search values: [int | float], the floats being [inf] and [-inf] *)

Inductive score := NegInf | Fin (z : Z) | PosInf.

Definition vle (a b : score) : bool :=
  match a, b with
  | NegInf, _ => true
  | _, PosInf => true
  | Fin x, Fin y => x <=? y
  | _, _ => false
  end.

Definition vlt (a b : score) : bool := negb (vle b a).

(** Python's [max(a, b)] answers [b] only when [b > a]; [min(a, b)] answers
    [b] only when [b < a]. *)
Definition vmax (a b : score) : score := if vlt a b then b else a.
Definition vmin (a b : score) : score := if vlt b a then b else a.

(** ** The board: a two-dimensional numpy array of [int16] cells *)

Record ndarray := { shape0 : nat; shape1 : nat; item : nat -> nat -> Z }.

Definition of_rows (rows : list (list Z)) : ndarray :=
  {| shape0 := length rows;
     shape1 := length (hd [] rows);
     item := fun y x => nth x (nth y rows []) 0 |}.

(** [np.int16(z)]: two's complement on sixteen bits. *)
Definition np_int16 (z : Z) : Z := (z + 32768) mod 65536 - 32768.

(** [board[y, :]] and [board[:, x]]. *)
Definition row (board : ndarray) (y : nat) : list Z :=
  map (item board y) (seq 0 (shape1 board)).
Definition column (board : ndarray) (x : nat) : list Z :=
  map (fun y => item board y x) (seq 0 (shape0 board)).

(** [board[y, x]] with [x] counted from the left, and [board[y, -(x + 1)]];
    an index outside the second axis raises [IndexError]. *)
Definition getitem (board : ndarray) (y x : nat) : outcome Z :=
  if (x <? shape1 board)%nat then Return (item board y x) else Raise IndexError.
Definition getitem_neg (board : ndarray) (y x : nat) : outcome Z :=
  if (x <? shape1 board)%nat
  then Return (item board y (shape1 board - (x + 1))%nat)
  else Raise IndexError.

(** ** The rules engine, an external collaborator

    [InvestigateGame] is not part of the two modules; the engines use it
    through this interface. A transition is [(action, state, key)]. *)

Class InvestigateGame (state action : Type) := {
  check_winner : state -> Z;
  get_board : state -> ndarray;
  generate_possible_transitions : state -> Z -> list (action * state * Z);
  generate_canonical_transitions : state -> Z -> list (action * state * Z);
}.

(** ** [EntryMinMax] and the player object *)

Module EntryMinMax.
Record t := mk { depth : Z; value : score }.
End EntryMinMax.

Record Player := {
  _player_id : Z;
  _opponent_player_id : Z;
  _depth : Z;
  _symmetries : bool;
  _visited_max_states : gmap Z EntryMinMax.t;
  _visited_min_states : gmap Z EntryMinMax.t;
  _hit : Z;
}.

Definition set_visited_max (self : Player) (key : Z) (e : EntryMinMax.t) : Player :=
  {| _player_id := _player_id self;
     _opponent_player_id := _opponent_player_id self;
     _depth := _depth self;
     _symmetries := _symmetries self;
     _visited_max_states := <[key := e]> (_visited_max_states self);
     _visited_min_states := _visited_min_states self;
     _hit := _hit self |}.

Definition set_visited_min (self : Player) (key : Z) (e : EntryMinMax.t) : Player :=
  {| _player_id := _player_id self;
     _opponent_player_id := _opponent_player_id self;
     _depth := _depth self;
     _symmetries := _symmetries self;
     _visited_max_states := _visited_max_states self;
     _visited_min_states := <[key := e]> (_visited_min_states self);
     _hit := _hit self |}.

(** [self._hit += 1] *)
Definition record_hit (self : Player) : Player :=
  {| _player_id := _player_id self;
     _opponent_player_id := _opponent_player_id self;
     _depth := _depth self;
     _symmetries := _symmetries self;
     _visited_max_states := _visited_max_states self;
     _visited_min_states := _visited_min_states self;
     _hit := _hit self + 1 |}.

(** [key in cache and depth <= cache[key].depth] *)
Definition cached (cache : gmap Z EntryMinMax.t) (key : Z) (d : Z) : option score :=
  match cache !! key with
  | Some e => if d <=? EntryMinMax.depth e then Some (EntryMinMax.value e) else None
  | None => None
  end.

(** ** [class MinMaxPlayer] *)

Module MinMaxPlayer.

(** [__init__] *)
Definition init (player_id : Z) (depth : Z) (symmetries : bool) : Player :=
  {| _player_id := player_id;
     _opponent_player_id := Z.abs (1 - player_id);
     _depth := depth;
     _symmetries := symmetries;
     _visited_max_states := ∅;
     _visited_min_states := ∅;
     _hit := 0 |}.

(** The lines examined by the evaluation: every row, every column, the
    principal and the secondary diagonal. *)
Definition lines (board : ndarray) : outcome (list (list Z)) :=
  let ys := seq 0 (shape0 board) in
  let rows := map (row board) ys in
  let columns := map (column board) (seq 0 (shape1 board)) in
  principal ← mapM (fun y => getitem board y y) ys;
  secondary ← mapM (fun y => getitem_neg board y y) ys;
  Return (rows ++ columns ++ [principal] ++ [secondary]).

(** One turn of the loop over the lines: [(max_value, min_value)]. *)
Definition count_line (max_player min_player neutral_pos : Z)
    (acc : Z * Z) (line : list Z) : Z * Z :=
  let max_taken_positions := map (Z.eqb max_player) line in
  let min_taken_positions := map (Z.eqb min_player) line in
  let neutral_positions := map (Z.eqb neutral_pos) line in
  let max_value :=
    if forallb (fun b : bool => b) (zip_with orb max_taken_positions neutral_positions)
    then fst acc + 1 else fst acc in
  let min_value :=
    if forallb (fun b : bool => b) (zip_with orb min_taken_positions neutral_positions)
    then snd acc + 1 else snd acc in
  (max_value, min_value).

Definition evaluation_function `{InvestigateGame state action}
    (self : Player) (game : state) : outcome score :=
  let value := check_winner game in
  let max_player := _player_id self in
  let min_player := _opponent_player_id self in
  if value =? max_player then Return PosInf
  else if value =? min_player then Return NegInf
  else
    let max_player := np_int16 max_player in
    let min_player := np_int16 min_player in
    let neutral_pos := np_int16 (-1) in
    let board := get_board game in
    lines ← lines board;
    let '(max_value, min_value) :=
      fold_left (count_line max_player min_player neutral_pos) lines (0, 0) in
    Return (Fin (max_value - min_value)).

(** The transitions a node expands, by the symmetry flag. *)
Definition transitions_of `{InvestigateGame state action}
    (self : Player) (game : state) (player_id : Z) : list (action * state * Z) :=
  if _symmetries self
  then generate_canonical_transitions game player_id
  else generate_possible_transitions game player_id.

Section Loops.
Context {state action : Type}.

(** [for _, state, key in transitions: value = max(value, call(state, key))]:
    the loop rebinds [key], so the binding in force after the loop is
    threaded through. *)
Fixpoint max_loop (call : state -> Z -> Player -> outcome (score * Player))
    (transitions : list (action * state * Z))
    (value : score) (key : Z) (self : Player) : outcome (score * Z * Player) :=
  match transitions with
  | [] => Return (value, key, self)
  | (_, state, key) :: transitions =>
      '(v, self) ← call state key self;
      max_loop call transitions (vmax value v) key self
  end.

Fixpoint min_loop (call : state -> Z -> Player -> outcome (score * Player))
    (transitions : list (action * state * Z))
    (value : score) (key : Z) (self : Player) : outcome (score * Z * Player) :=
  match transitions with
  | [] => Return (value, key, self)
  | (_, state, key) :: transitions =>
      '(v, self) ← call state key self;
      min_loop call transitions (vmin value v) key self
  end.

(** [max(enumerate(actions), key=...)] after the first element: the
    candidate changes only on a strictly greater key. *)
Fixpoint best_loop (call : state -> Z -> Player -> outcome (score * Player))
    (transitions : list (action * state * Z))
    (best : score * action) (self : Player) : outcome (score * action * Player) :=
  match transitions with
  | [] => Return (best, self)
  | (a, state, key) :: transitions =>
      '(v, self) ← call state key self;
      best_loop call transitions (if vlt (fst best) v then (v, a) else best) self
  end.

(** Unzipping the transitions into [actions, states, keys] needs three
    tuples to unpack and raises [ValueError] on no transition; then the
    maximum. *)
Definition best_transition (call : state -> Z -> Player -> outcome (score * Player))
    (transitions : list (action * state * Z)) (self : Player)
    : outcome (score * action * Player) :=
  match transitions with
  | [] => Raise ValueError
  | (a, state, key) :: transitions =>
      '(v, self) ← call state key self;
      best_loop call transitions (v, a) self
  end.
End Loops.

Fixpoint max_value {state action : Type} {rules : InvestigateGame state action} (fuel : nat)
    (game : state) (key : Z) (depth : Z) (self : Player)
    : outcome (score * Player) :=
  match fuel with
  | O => OutOfFuel
  | S fuel =>
      match cached (_visited_max_states self) key depth with
      | Some v => Return (v, record_hit self)
      | None =>
          if (depth <=? 0) || negb (check_winner game =? -1) then
            value ← evaluation_function self game;
            let self := set_visited_max self key (EntryMinMax.mk 0 value) in
            value ← evaluation_function self game;
            Return (value, self)
          else
            let transitions := transitions_of self game (_player_id self) in
            '(value, key, self) ←
              max_loop (fun state key self => min_value fuel state key (depth - 1) self)
                transitions NegInf key self;
            Return (value, set_visited_max self key (EntryMinMax.mk depth value))
      end
  end
with min_value {state action : Type} {rules : InvestigateGame state action} (fuel : nat)
    (game : state) (key : Z) (depth : Z) (self : Player)
    : outcome (score * Player) :=
  match fuel with
  | O => OutOfFuel
  | S fuel =>
      match cached (_visited_min_states self) key depth with
      | Some v => Return (v, record_hit self)
      | None =>
          if (depth <=? 0) || negb (check_winner game =? -1) then
            value ← evaluation_function self game;
            Return (value, set_visited_min self key (EntryMinMax.mk 0 value))
          else
            let transitions := transitions_of self game (_opponent_player_id self) in
            '(value, key, self) ←
              min_loop (fun state key self => max_value fuel state key (depth - 1) self)
                transitions PosInf key self;
            Return (value, set_visited_min self key (EntryMinMax.mk depth value))
      end
  end.

(** The recursion of a call at [depth] is at most [depth] calls deep. *)
Definition budget (depth : Z) : nat := S (Z.to_nat depth).

(** [make_move], together with the key under which [max] chose. *)
Definition search_root `{InvestigateGame state action}
    (self : Player) (game : state) : outcome (score * action * Player) :=
  let transitions := transitions_of self game (_player_id self) in
  best_transition
    (fun state key self => min_value (budget (_depth self - 1)) state key (_depth self - 1) self)
    transitions self.

Definition make_move `{InvestigateGame state action}
    (self : Player) (game : state) : outcome (action * Player) :=
  '(_, action, self) ← search_root self game;
  Return (action, self).

End MinMaxPlayer.

(** ** [class AlphaBetaMinMaxPlayer(MinMaxPlayer)] *)

Module AlphaBetaMinMaxPlayer.

Definition init := MinMaxPlayer.init.

Section Loops.
Context {state action : Type}.

(** The loop of [max_value]: [call] plays as Min under the current
    [alpha]; the cut-off files the entry and returns from inside the
    loop, the exhausted loop files it after. Both use the [key] that
    the loop last bound. *)
Fixpoint max_loop (call : state -> Z -> score -> Player -> outcome (score * Player))
    (depth : Z) (beta : score) (transitions : list (action * state * Z))
    (best_value alpha : score) (key : Z) (self : Player)
    : outcome (score * Player) :=
  match transitions with
  | [] =>
      Return (best_value,
              set_visited_max self key (EntryMinMax.mk depth best_value))
  | (_, state, key) :: transitions =>
      '(value, self) ← call state key alpha self;
      let '(best_value, alpha) :=
        if vlt best_value value then (value, vmax alpha value)
        else (best_value, alpha) in
      if vle beta best_value then
        Return (best_value,
                set_visited_max self key (EntryMinMax.mk depth best_value))
      else max_loop call depth beta transitions best_value alpha key self
  end.

Fixpoint min_loop (call : state -> Z -> score -> Player -> outcome (score * Player))
    (depth : Z) (alpha : score) (transitions : list (action * state * Z))
    (best_value beta : score) (key : Z) (self : Player)
    : outcome (score * Player) :=
  match transitions with
  | [] =>
      Return (best_value,
              set_visited_min self key (EntryMinMax.mk depth best_value))
  | (_, state, key) :: transitions =>
      '(value, self) ← call state key beta self;
      let '(best_value, beta) :=
        if vlt value best_value then (value, vmin beta value)
        else (best_value, beta) in
      if vle best_value alpha then
        Return (best_value,
                set_visited_min self key (EntryMinMax.mk depth best_value))
      else min_loop call depth alpha transitions best_value beta key self
  end.
End Loops.

Fixpoint max_value {state action : Type} {rules : InvestigateGame state action} (fuel : nat)
    (game : state) (key : Z) (depth : Z) (alpha beta : score) (self : Player)
    : outcome (score * Player) :=
  match fuel with
  | O => OutOfFuel
  | S fuel =>
      match cached (_visited_max_states self) key depth with
      | Some v => Return (v, record_hit self)
      | None =>
          if (depth <=? 0) || negb (check_winner game =? -1) then
            value ← MinMaxPlayer.evaluation_function self game;
            Return (value, set_visited_max self key (EntryMinMax.mk 0 value))
          else
            let transitions :=
              MinMaxPlayer.transitions_of self game (_player_id self) in
            max_loop
              (fun state key alpha self =>
                 min_value fuel state key (depth - 1) alpha beta self)
              depth beta transitions NegInf alpha key self
      end
  end
with min_value {state action : Type} {rules : InvestigateGame state action} (fuel : nat)
    (game : state) (key : Z) (depth : Z) (alpha beta : score) (self : Player)
    : outcome (score * Player) :=
  match fuel with
  | O => OutOfFuel
  | S fuel =>
      match cached (_visited_min_states self) key depth with
      | Some v => Return (v, record_hit self)
      | None =>
          if (depth <=? 0) || negb (check_winner game =? -1) then
            value ← MinMaxPlayer.evaluation_function self game;
            Return (value, set_visited_min self key (EntryMinMax.mk 0 value))
          else
            let transitions :=
              MinMaxPlayer.transitions_of self game (_opponent_player_id self) in
            min_loop
              (fun state key beta self =>
                 max_value fuel state key (depth - 1) alpha beta self)
              depth alpha transitions PosInf beta key self
      end
  end.

(** [make_move]: every root transition is searched under the full window. *)
Definition search_root `{InvestigateGame state action}
    (self : Player) (game : state) : outcome (score * action * Player) :=
  let transitions := MinMaxPlayer.transitions_of self game (_player_id self) in
  MinMaxPlayer.best_transition
    (fun state key self =>
       min_value (MinMaxPlayer.budget (_depth self - 1)) state key
         (_depth self - 1) NegInf PosInf self)
    transitions self.

Definition make_move `{InvestigateGame state action}
    (self : Player) (game : state) : outcome (action * Player) :=
  '(_, action, self) ← search_root self game;
  Return (action, self).

End AlphaBetaMinMaxPlayer.

(** ** [monte_carlo_rl.py]

    Floating-point arithmetic is kept abstract: the learner is written over
    any carrier [F] with the operations the module uses. *)

Class FloatOps (F : Type) := {
  of_int : Z -> F;
  fadd : F -> F -> F;
  fsub : F -> F -> F;
  fmul : F -> F -> F;
  fdiv : F -> F -> F;
  fneg : F -> F;
  fexp : F -> F;          (* [np.exp] *)
  fminimum : F -> F -> F; (* [np.minimum] *)
  fmaximum : F -> F -> F; (* [np.maximum] *)
  fltb : F -> F -> bool;  (* [<] *)
  isclose : F -> F -> bool; (* [math.isclose] *)
}.

(** [np.clip(a, a_min, a_max)] is [np.minimum(a_max, np.maximum(a, a_min))]. *)
Definition np_clip `{FloatOps F} (a a_min a_max : F) : F :=
  fminimum a_max (fmaximum a a_min).

(** The order on canonical keys that [min] uses. *)
Class KeyOrder (K : Type) := key_ltb : K -> K -> bool.

(** The source of [random()] and [choice()]: [random] draws a float,
    [randbelow n] an index that [choice] takes below the length [n]. *)
Class Random (F rng : Type) := {
  random : rng -> F * rng;
  randbelow : rng -> nat -> nat * rng;
}.

(** What the Monte Carlo module asks of the rules engine and of the symmetry
    collaborator. It unpacks the transitions as pairs [(action, state)]. *)
Class InvestigateGameMC (state action K : Type) := {
  new_game : state;
  get_current_player : state -> Z;
  generate_possible_transitions_pairs : state -> Z -> list (action * state);
  move : state -> action -> Z -> bool * state;
  get_transformed_states : state -> list state;
  get_hashable_state : state -> Z -> K;
}.

(** [choice(seq)] *)
Definition choice `{Random F rng} {A : Type} (g : rng) (l : list A)
    : outcome (A * rng) :=
  match l with
  | [] => Raise IndexError
  | x :: _ =>
      let '(i, g) := randbelow g (length l) in
      Return (nth (i mod length l)%nat l x, g)
  end.

(** [min(keys)] *)
Definition min_key `{KeyOrder K} (keys : list K) : outcome K :=
  match keys with
  | [] => Raise ValueError
  | k :: keys => Return (fold_left (fun m x => if key_ltb x m then x else m) keys k)
  end.

(** [np.argmin(keys)]: the index of the first least key, the keys being
    compared as [min] compares them; no key to compare raises [ValueError]. *)
Fixpoint argmin_from `{KeyOrder K} (keys : list K) (i : nat) (best : K) (best_i : nat)
    : nat :=
  match keys with
  | [] => best_i
  | x :: keys =>
      if key_ltb x best then argmin_from keys (S i) x i
      else argmin_from keys (S i) best best_i
  end.

Definition np_argmin `{KeyOrder K} (keys : list K) : outcome nat :=
  match keys with
  | [] => Raise ValueError
  | k :: keys => Return (argmin_from keys 1 k 0)
  end.

Module MissNoAddDict.
(** Modelled from the spec: the class [MissNoAddDict] of [investigate_game]
    is missing. The table has "default value 0 for unseen keys (the default
    must be materialized as a real zero entry on first read, not merely
    returned transiently)". *)
Definition getitem `{FloatOps F} `{Countable K}
    (table : gmap K F) (key : K) : F * gmap K F :=
  match table !! key with
  | Some v => (v, table)
  | None => (of_int 0, <[key := of_int 0]> table)
  end.

(** [key in table] *)
Definition contains `{Countable K} {F : Type} (table : gmap K F) (key : K) : bool :=
  bool_decide (is_Some (table !! key)).
End MissNoAddDict.

(** The players that sit at the table during training. *)
Inductive seat := Self | RandomPlayer | MinMax (first : bool).

#[global] Instance seat_eq_dec : EqDecision seat.
Proof. solve_decision. Defined.

Module MonteCarloRLPlayer.

Record t (K F : Type) `{Countable K} := mk {
  _state_values : gmap K F;
  _n_episodes : Z;
  _gamma : F;
  _alpha : F;
  _exploration_rate : F;
  _min_exploration_rate : F;
  _exploration_decay_rate : F;
  _minmax : bool;
  _switch_ratio : F;
  _depth : Z;
  _symmetries : bool;
  _rewards : list Z;
}.
Arguments mk {K F _ _}.
Arguments _state_values {K F _ _}.
Arguments _n_episodes {K F _ _}.
Arguments _gamma {K F _ _}.
Arguments _alpha {K F _ _}.
Arguments _exploration_rate {K F _ _}.
Arguments _min_exploration_rate {K F _ _}.
Arguments _exploration_decay_rate {K F _ _}.
Arguments _minmax {K F _ _}.
Arguments _switch_ratio {K F _ _}.
Arguments _depth {K F _ _}.
Arguments _symmetries {K F _ _}.
Arguments _rewards {K F _ _}.

Section Learner.
Context {state action K F rng : Type}.
Context `{Countable K} `{KeyOrder K} `{FloatOps F} `{Random F rng}.
Context `{EqDecision action}.
Context `{InvestigateGame state action} `{InvestigateGameMC state action K}.

(** [__init__] *)
Definition init (n_episodes : Z) (gamma alpha min_exploration_rate
    exploration_decay_rate : F) (minmax : bool) (switch_ratio : F)
    (depth : Z) (symmetries : bool) : t K F :=
  mk ∅ n_episodes gamma alpha (of_int 1) min_exploration_rate
     exploration_decay_rate minmax switch_ratio depth symmetries [].

Definition set_state_values (self : t K F) (table : gmap K F) : t K F :=
  mk table (_n_episodes self) (_gamma self) (_alpha self)
     (_exploration_rate self) (_min_exploration_rate self)
     (_exploration_decay_rate self) (_minmax self) (_switch_ratio self)
     (_depth self) (_symmetries self) (_rewards self).

Definition set_exploration_rate (self : t K F) (rate : F) : t K F :=
  mk (_state_values self) (_n_episodes self) (_gamma self) (_alpha self)
     rate (_min_exploration_rate self)
     (_exploration_decay_rate self) (_minmax self) (_switch_ratio self)
     (_depth self) (_symmetries self) (_rewards self).

Definition append_reward (self : t K F) (reward : Z) : t K F :=
  mk (_state_values self) (_n_episodes self) (_gamma self) (_alpha self)
     (_exploration_rate self) (_min_exploration_rate self)
     (_exploration_decay_rate self) (_minmax self) (_switch_ratio self)
     (_depth self) (_symmetries self) (_rewards self ++ [reward]).

(** [_game_reward(player, winner)]: [player] is the seat handed in. *)
Definition _game_reward (player : seat) (winner : Z) : Z :=
  if winner =? -1 then -1
  else if bool_decide (Self = player) then 10
  else -10.

(** The [rewards] property: a copy of the history. *)
Definition rewards (self : t K F) : list Z := _rewards self.

(** [_map_state_to_index]: the transformed state of least hashable form, that
    form and its index among the transformed states. *)
Definition _map_state_to_index (game : state) (player_id : Z)
    : outcome (state * K * nat) :=
  let trasformed_states := get_transformed_states game in
  let trasformed_states_repr_index :=
    map (fun trasformed_state => get_hashable_state trasformed_state player_id)
        trasformed_states in
  trasformation_index ← np_argmin trasformed_states_repr_index;
  match trasformed_states !! trasformation_index,
        trasformed_states_repr_index !! trasformation_index with
  | Some s, Some k => Return (s, k, trasformation_index)
  | _, _ => Raise IndexError
  end.

(** [_update_state_values]: the table is read twice, then written. *)
Definition _update_state_values (self : t K F) (state_repr_index : K)
    (return_of_rewards : F) : t K F :=
  let '(v1, table) := MissNoAddDict.getitem (_state_values self) state_repr_index in
  let '(v2, table) := MissNoAddDict.getitem table state_repr_index in
  let table :=
    <[state_repr_index := fadd v1 (fmul (_alpha self) (fsub return_of_rewards v2))]> table in
  set_state_values self table.

(** [min(states)] over the hashable forms of the transformed states. *)
Definition canonical_key (state' : state) (player_id : Z) : outcome K :=
  min_key (map (fun s => get_hashable_state s player_id) (get_transformed_states state')).

(** [max(seq, key=lambda t: self._state_values[key_of t])]: the keys are
    read in order, each read going through the table. *)
Fixpoint max_by_value {A : Type} (key_of : A -> K) (l : list A)
    (best : A) (best_v : F) (table : gmap K F) : A * gmap K F :=
  match l with
  | [] => (best, table)
  | x :: l =>
      let '(v, table) := MissNoAddDict.getitem table (key_of x) in
      if fltb best_v v then max_by_value key_of l x v table
      else max_by_value key_of l best best_v table
  end.

Definition argmax_value {A : Type} (key_of : A -> K) (l : list A)
    (table : gmap K F) : outcome (A * gmap K F) :=
  match l with
  | [] => Raise ValueError
  | x :: l =>
      let '(v, table) := MissNoAddDict.getitem table (key_of x) in
      Return (max_by_value key_of l x v table)
  end.

(** [_step_training] *)
Definition _step_training (self : t K F) (g : rng) (game : state) (player_id : Z)
    : outcome (action * state * K * t K F * rng) :=
  let transitions := generate_possible_transitions_pairs game player_id in
  canonical_transitions ←
    mapM (fun '(a, state') =>
            k ← canonical_key state' player_id; Return (a, state', k))
         transitions;
  let '(u, g) := random g in
  if fltb u (_exploration_rate self) then
    '(t, g) ← choice g canonical_transitions;
    Return (t, self, g)
  else
    '(t, table) ← argmax_value (fun t : action * state * K => snd t)
                    canonical_transitions (_state_values self);
    Return (t, set_state_values self table, g).

(** [make_move] *)
Definition make_move (self : t K F) (g : rng) (game : state)
    : outcome (action * t K F * rng) :=
  let player_id := get_current_player game in
  let transitions := generate_possible_transitions_pairs game player_id in
  canonical_transitions ←
    mapM (fun '(a, state') =>
            k ← canonical_key state' player_id; Return (a, k))
         transitions;
  if existsb (fun t : action * K => MissNoAddDict.contains (_state_values self) (snd t))
       canonical_transitions
  then
    '(t, table) ← argmax_value (fun t : action * K => snd t)
                    canonical_transitions (_state_values self);
    Return (fst t, set_state_values self table, g)
  else
    '(t, g) ← choice g transitions;
    Return (fst t, self, g).

(** *** [train] *)

(** [RandomPlayer.make_move], which lives outside the module. *)
Context (random_player_make_move : rng -> state -> outcome (action * rng)).

(** The objects that the training loop mutates: the learner, the random
    source and the two Min-Max sparring partners. *)
Record world := {
  learner : t K F;
  gen : rng;
  minmax_first : Player;
  minmax_second : Player;
}.

(** [player.make_move(game)] for whoever holds the seat. *)
Definition seat_make_move (player : seat) (w : world) (game : state)
    : outcome (action * world) :=
  match player with
  | Self =>
      '(a, self, g) ← make_move (learner w) (gen w) game;
      Return (a, {| learner := self; gen := g;
                    minmax_first := minmax_first w;
                    minmax_second := minmax_second w |})
  | RandomPlayer =>
      '(a, g) ← random_player_make_move (gen w) game;
      Return (a, {| learner := learner w; gen := g;
                    minmax_first := minmax_first w;
                    minmax_second := minmax_second w |})
  | MinMax true =>
      '(a, p) ← MinMaxPlayer.make_move (minmax_first w) game;
      Return (a, {| learner := learner w; gen := gen w;
                    minmax_first := p;
                    minmax_second := minmax_second w |})
  | MinMax false =>
      '(a, p) ← MinMaxPlayer.make_move (minmax_second w) game;
      Return (a, {| learner := learner w; gen := gen w;
                    minmax_first := minmax_first w;
                    minmax_second := p |})
  end.

(** [while not ok: move = player.make_move(game); ok = game.__move(...)] *)
Fixpoint opponent_turn (fuel : nat) (player : seat) (player_idx : Z)
    (game : state) (w : world) : outcome (state * world) :=
  match fuel with
  | O => OutOfFuel
  | S fuel =>
      '(a, w) ← seat_make_move player w game;
      let '(ok, game) := move game a player_idx in
      if ok then Return (game, w)
      else opponent_turn fuel player player_idx game w
  end.

(** The local variables of one episode. [player] and
    [canonical_state_repr_index] are unbound until a turn binds them. *)
Record locals := {
  game : state;
  trajectory : list (K * Z);
  winner : Z;
  player_idx : Z;
  player : option seat;
  canonical_state_repr_index : option K;
  last_action : option action;
  counter : Z;
}.

(** One turn of [while winner < 0 and counter < max_steps_draw]. *)
Definition turn (fuel : nat) (players : seat * seat) (l : locals) (w : world)
    : outcome (locals * world) :=
  let player_idx := (player_idx l + 1) mod 2 in
  let player := if player_idx =? 0 then fst players else snd players in
  if bool_decide (Self = player) then
    '(action, game, key, self, g) ←
      _step_training (learner w) (gen w) (game l) player_idx;
    let w := {| learner := self; gen := g;
                minmax_first := minmax_first w;
                minmax_second := minmax_second w |} in
    let trajectory := trajectory l ++ [(key, 0)] in
    let '(last_action, counter) :=
      if bool_decide (last_action l = Some action)
      then (last_action l, counter l + 1)
      else (Some action, 0) in
    Return ({| game := game; trajectory := trajectory;
               winner := check_winner game; player_idx := player_idx;
               player := Some player;
               canonical_state_repr_index := Some key;
               last_action := last_action; counter := counter |}, w)
  else
    '(game, w) ← opponent_turn fuel player player_idx (game l) w;
    Return ({| game := game; trajectory := trajectory l;
               winner := check_winner game; player_idx := player_idx;
               player := Some player;
               canonical_state_repr_index := canonical_state_repr_index l;
               last_action := last_action l; counter := counter l |}, w).

Fixpoint play (fuel : nat) (players : seat * seat) (max_steps_draw : Z)
    (l : locals) (w : world) : outcome (locals * world) :=
  if (winner l <? 0) && (counter l <? max_steps_draw) then
    match fuel with
    | O => OutOfFuel
    | S fuel =>
        '(l, w) ← turn fuel players l w;
        play fuel players max_steps_draw l w
    end
  else Return (l, w).

(** [for state_repr_index, reward in trajectory[::-1]] *)
Definition backward_step (acc : F * t K F) (entry : K * Z) : F * t K F :=
  let '(return_of_rewards, self) := acc in
  let '(state_repr_index, reward) := entry in
  let return_of_rewards :=
    fadd (of_int reward) (fmul (_gamma self) return_of_rewards) in
  (return_of_rewards, _update_state_values self state_repr_index return_of_rewards).

Definition backward (self : t K F) (trajectory : list (K * Z)) : t K F :=
  snd (fold_left backward_step (rev trajectory) (of_int 0, self)).

(** What follows the [while] loop of an episode. *)
Definition settle (episode : Z) (l : locals) (self : t K F) : outcome (t K F) :=
  let self :=
    set_exploration_rate self
      (np_clip (fexp (fmul (fneg (_exploration_decay_rate self)) (of_int episode)))
               (_min_exploration_rate self) (of_int 1)) in
  match trajectory l with
  | [] => Raise IndexError
  | _ :: _ =>
      let trajectory := removelast (trajectory l) in
      match player l, canonical_state_repr_index l with
      | Some player, Some key =>
          let reward := _game_reward player (winner l) in
          let trajectory := trajectory ++ [(key, reward)] in
          let self := append_reward self reward in
          Return (backward self trajectory)
      | _, _ => Raise UnboundLocalError
      end
  end.

Definition seats : Type := (seat * seat) * (seat * seat).

(** The body of [for episode in pbar_episodes]. *)
Definition episode_body (fuel : nat) (max_steps_draw : Z) (episode : Z)
    (player_tuples : seats) (w : world) : outcome (seats * world) :=
  let self := learner w in
  let minmax_players : seats := ((MinMax true, Self), (Self, MinMax false)) in
  let player_tuples :=
    if _minmax self &&
       isclose (_switch_ratio self)
               (fdiv (of_int episode) (of_int (_n_episodes self)))
    then minmax_players else player_tuples in
  let player_tuples := (snd player_tuples, fst player_tuples) in
  let players := snd player_tuples in
  let l := {| game := new_game; trajectory := []; winner := -1;
              player_idx := 1; player := None;
              canonical_state_repr_index := None;
              last_action := None; counter := 0 |} in
  '(l, w) ← play fuel players max_steps_draw l w;
  self ← settle episode l (learner w);
  Return (player_tuples,
          {| learner := self; gen := gen w;
             minmax_first := minmax_first w;
             minmax_second := minmax_second w |}).

Fixpoint episodes (fuel : nat) (max_steps_draw : Z) (indices : list Z)
    (player_tuples : seats) (w : world) : outcome (seats * world) :=
  match indices with
  | [] => Return (player_tuples, w)
  | episode :: indices =>
      '(player_tuples, w) ←
        episode_body fuel max_steps_draw episode player_tuples w;
      episodes fuel max_steps_draw indices player_tuples w
  end.

(** [range(n)] *)
Definition range (n : Z) : list Z := map Z.of_nat (seq 0 (Z.to_nat n)).

Definition train (fuel : nat) (self : t K F) (g : rng) (max_steps_draw : Z)
    : outcome (t K F * rng) :=
  let player_tuples : seats := ((RandomPlayer, Self), (Self, RandomPlayer)) in
  let w := {| learner := self; gen := g;
              minmax_first := MinMaxPlayer.init 0 (_depth self) (_symmetries self);
              minmax_second := MinMaxPlayer.init 1 (_depth self) (_symmetries self) |} in
  '(_, w) ← episodes fuel max_steps_draw (range (_n_episodes self)) player_tuples w;
  match _rewards (learner w) with
  | [] => Raise IndexError
  | _ :: _ => Return (learner w, gen w)
  end.

End Learner.
End MonteCarloRLPlayer.

(** ** Real arithmetic as an ideal carrier for the floats *)

#[global] Instance real_ops : FloatOps R := {|
  of_int := IZR;
  fadd := Rplus;
  fsub := Rminus;
  fmul := Rmult;
  fdiv := Rdiv;
  fneg := Ropp;
  fexp := exp;
  fminimum := Rmin;
  fmaximum := Rmax;
  fltb := fun x y => if Rlt_dec x y then true else false;
  isclose := fun a b =>
    if Rle_dec (Rabs (a - b)) (Rmax (1 / 1000000000 * Rmax (Rabs a) (Rabs b)) 0)
    then true else false;
|}.

(** ** Reference definitions that follow the specification *)

Module Spec.

(** The [2N+2] lines of an [N×N] board, as lists of coordinates. *)
Definition lines (n : nat) : list (list (nat * nat)) :=
  map (fun y => map (fun x => (y, x)) (seq 0 n)) (seq 0 n)
  ++ map (fun x => map (fun y => (y, x)) (seq 0 n)) (seq 0 n)
  ++ [map (fun i => (i, i)) (seq 0 n)]
  ++ [map (fun i => (i, n - 1 - i)%nat) (seq 0 n)].

(** A line is open for a player when no cell on it belongs to the other. *)
Definition has_no (board : ndarray) (owner : Z) (line : list (nat * nat)) : bool :=
  forallb (fun c => negb (item board (fst c) (snd c) =? owner)) line.

Definition count_open (board : ndarray) (other : Z) : Z :=
  Z.of_nat (length (filter (fun l => has_no board other l = true) (lines (shape0 board)))).

(** Bounded minimax without any cache. *)
Section Minimax.
Context `{InvestigateGame state action} (self : Player).

Fixpoint fold_children (pick : score -> score -> score)
    (call : state -> outcome score) (transitions : list (action * state * Z))
    (value : score) : outcome score :=
  match transitions with
  | [] => Return value
  | (_, state, _) :: transitions =>
      v ← call state;
      fold_children pick call transitions (pick value v)
  end.

Fixpoint max_value (fuel : nat) (game : state) (depth : Z) : outcome score :=
  match fuel with
  | O => OutOfFuel
  | S fuel =>
      if (depth <=? 0) || negb (check_winner game =? -1) then
        MinMaxPlayer.evaluation_function self game
      else
        fold_children vmax (fun s => min_value fuel s (depth - 1))
          (MinMaxPlayer.transitions_of self game (_player_id self)) NegInf
  end
with min_value (fuel : nat) (game : state) (depth : Z) : outcome score :=
  match fuel with
  | O => OutOfFuel
  | S fuel =>
      if (depth <=? 0) || negb (check_winner game =? -1) then
        MinMaxPlayer.evaluation_function self game
      else
        fold_children vmin (fun s => max_value fuel s (depth - 1))
          (MinMaxPlayer.transitions_of self game (_opponent_player_id self)) PosInf
  end.

(** The first transition whose Min value is the greatest. *)
Fixpoint best_of (call : state -> outcome score)
    (transitions : list (action * state * Z)) (best : score * action)
    : outcome (score * action) :=
  match transitions with
  | [] => Return best
  | (a, state, _) :: transitions =>
      v ← call state;
      best_of call transitions (if vlt (fst best) v then (v, a) else best)
  end.

Definition choose (game : state) : outcome (score * action) :=
  let call := fun s =>
    min_value (MinMaxPlayer.budget (_depth self - 1)) s (_depth self - 1) in
  match MinMaxPlayer.transitions_of self game (_player_id self) with
  | [] => Raise ValueError
  | (a, state, _) :: transitions =>
      v ← call state;
      best_of call transitions (v, a)
  end.
End Minimax.

(** Return back-propagation, from the last entry of the trajectory to the
    first: the return of an entry is its reward plus the discounted return
    of what follows it. *)
Section Returns.
Context `{FloatOps F} (gamma alpha : F).


(** [V + alpha * (G - V)] *)
Definition toward (v g : F) : F := fadd v (fmul alpha (fsub g v)).

End Returns.

End Spec.

(** ** A small game in which one position is met with either side to move *)

Inductive Move := TOP | BOTTOM | LEFT | RIGHT.

#[global] Instance Move_eq_dec : EqDecision Move.
Proof. solve_decision. Defined.

Definition Action : Type := (Z * Z) * Move.

Module Crossing.

Inductive position := Root | PA | PB | PA1 | PB1.

Definition blank := of_rows [[-1; -1; -1]; [-1; -1; -1]; [-1; -1; -1]].
Definition board_A := of_rows [[-1; 0; -1]; [-1; -1; -1]; [-1; -1; 1]].
Definition board_B := of_rows [[0; -1; -1]; [-1; -1; -1]; [-1; -1; 1]].
Definition board_A1 := of_rows [[1; 1; 1]; [-1; 0; -1]; [-1; -1; 0]].
Definition board_B1 := of_rows [[0; -1; -1]; [-1; 0; -1]; [-1; -1; 1]].

(** Keys: [Root] 0, [PA] 1, [PB] 2, [PA1] 3, [PB1] 4. Player 0 moves from
    [Root] to [PA] or [PB]; player 1 moves from [PA] to [PA1], which it
    wins, or to [PB], and from [PB] to [PB1]. *)
#[global] Instance rules : InvestigateGame position Action := {|
  check_winner s := match s with PA1 => 1 | _ => -1 end;
  get_board s :=
    match s with
    | Root => blank | PA => board_A | PB => board_B
    | PA1 => board_A1 | PB1 => board_B1
    end;
  generate_possible_transitions s p :=
    match s, p with
    | Root, 0 => [(((0, 0), BOTTOM), PA, 1); (((0, 1), BOTTOM), PB, 2)]
    | PA, 1 => [(((0, 2), LEFT), PA1, 3); (((2, 2), TOP), PB, 2)]
    | PB, 1 => [(((1, 2), LEFT), PB1, 4)]
    | _, _ => []
    end;
  generate_canonical_transitions s p := [];
|}.

End Crossing.

(** ** A three-position game in which the learner's move wins the game for
    the opponent *)

Module Gift.

Inductive position := Start | Middle | Lost.

#[global] Instance rules : InvestigateGame position Action := {|
  check_winner s := match s with Lost => 0 | _ => -1 end;
  get_board s := Crossing.blank;
  generate_possible_transitions s p :=
    match s, p with
    | Start, 0 => [(((0, 0), BOTTOM), Middle, 1)]
    | Middle, 1 => [(((0, 1), TOP), Lost, 2)]
    | _, _ => []
    end;
  generate_canonical_transitions s p := [];
|}.

#[global] Instance key_order : KeyOrder Z := Z.ltb.

(** Keys: [Start] 0, [Middle] 1, [Lost] 2. The opponent, player 0, opens
    from [Start] to [Middle]; the only move of player 1 from [Middle] leads
    to [Lost], where the rules engine reports player 0 as the winner. *)
#[global] Instance rules_mc : InvestigateGameMC position Action Z := {|
  new_game := Start;
  get_current_player s := match s with Middle => 1 | _ => 0 end;
  generate_possible_transitions_pairs s p :=
    match s, p with
    | Start, 0 => [(((0, 0), BOTTOM), Middle)]
    | Middle, 1 => [(((0, 1), TOP), Lost)]
    | _, _ => []
    end;
  move s a p :=
    match s, p with
    | Start, 0 => (true, Middle)
    | _, _ => (false, s)
    end;
  get_transformed_states s := [s];
  get_hashable_state s p := match s with Start => 0 | Middle => 1 | Lost => 2 end;
|}.

Definition random_player_make_move {rng : Type} (g : rng) (game : position)
    : outcome (Action * rng) :=
  Return (((0, 0), BOTTOM), g).

(** A random source that always draws 0. *)
#[global] Instance zeros : Random R unit := {|
  random _ := (0%R, tt);
  randbelow _ _ := (0%nat, tt);
|}.

End Gift.

(** ** Notions used by the statements *)

(** The cells of a line given by its coordinates. *)
Definition cells (board : ndarray) (line : list (nat * nat)) : list Z :=
  map (fun c => item board (fst c) (snd c)) line.

(** Every cell of the board is neutral or belongs to one of the players. *)
Definition owned_cells (self : Player) (board : ndarray) : Prop :=
  forall y x, (y < shape0 board)%nat -> (x < shape0 board)%nat ->
    item board y x = -1 \/ item board y x = _player_id self
    \/ item board y x = _opponent_player_id self.

(** Scores between two integer bounds embed in [Z] with their order. *)
Definition emb (lo hi : Z) (a : score) : Z :=
  match a with NegInf => lo | Fin z => z | PosInf => hi end.

Definition framed (lo hi : Z) (a : score) : Prop :=
  match a with Fin z => lo < z < hi | _ => True end.

(** What a value [v] returned under the window [(alpha, beta)] says about
    the exact value [m]: an upper bound when it fails low, a lower bound when
    it fails high, the value itself in between. *)
Definition bounds (alpha beta v m : score) : Prop :=
  (vle v alpha = true -> vle m v = true)
  /\ (vle beta v = true -> vle v m = true)
  /\ (vlt alpha v = true -> vlt v beta = true -> m = v).

(** Two player objects of the same construction: only caches and the hit
    counter may differ. *)
Definition same_player (p q : Player) : Prop :=
  _player_id p = _player_id q /\ _opponent_player_id p = _opponent_player_id q
  /\ _depth p = _depth q /\ _symmetries p = _symmetries q.

Section Calls.
Context `{InvestigateGame state action}.

(** What a call of the plain engine guarantees, against a reference [ref]
    that knows no cache. *)
Definition faithful (p : Player)
    (call : state -> Z -> Player -> outcome (score * Player))
    (ref : state -> outcome score) : Prop :=
  forall s k q v q',
    same_player p q -> call s k q = Return (v, q') ->
    same_player p q' /\ _hit q <= _hit q'
    /\ (_hit q' = _hit q -> ref s = Return v).

(** A call of the pruning engine keeps the player and never loses a hit. *)
Definition steady (p : Player)
    (call : state -> Z -> score -> Player -> outcome (score * Player)) : Prop :=
  forall s k w q v q',
    same_player p q -> call s k w q = Return (v, q') ->
    same_player p q' /\ _hit q <= _hit q'.

(** The calls that [make_move] makes on a root transition. *)
Definition minmax_root_call (s : state) (k : Z) (q : Player) :=
  MinMaxPlayer.min_value (MinMaxPlayer.budget (_depth q - 1)) s k (_depth q - 1) q.
Definition alphabeta_root_call (s : state) (k : Z) (q : Player) :=
  AlphaBetaMinMaxPlayer.min_value (MinMaxPlayer.budget (_depth q - 1)) s k
    (_depth q - 1) NegInf PosInf q.
End Calls.

(** The canonical key of a state whose symmetry class is not empty. *)
Definition canon {state action K : Type} `{KeyOrder K} `{InvestigateGameMC state action K}
    (player_id : Z) (s : state) : K :=
  match MonteCarloRLPlayer.canonical_key s player_id with
  | Return k => k
  | _ => get_hashable_state s player_id
  end.

(** Two learners that differ in their state-value table only. *)
Definition retabled {K F : Type} `{Countable K} (a b : MonteCarloRLPlayer.t K F) : Prop :=
  exists table, b = MonteCarloRLPlayer.set_state_values a table.

(** The exploration rate after the episode of a given index, over the reals. *)
Definition schedule (decay floor : R) (episode : Z) : R :=
  Rmin 1 (Rmax (exp (- decay * IZR episode)) floor).

(** The score of the other side. *)
Definition vneg (a : score) : score :=
  match a with NegInf => PosInf | Fin z => Fin (- z) | PosInf => NegInf end.

(** A player object after some searching: the same construction, no hit
    lost, and every key of either cache still there. *)
Definition grown (p q : Player) : Prop :=
  same_player p q /\ _hit p <= _hit q
  /\ (forall k, is_Some (_visited_max_states p !! k) ->
                is_Some (_visited_max_states q !! k))
  /\ (forall k, is_Some (_visited_min_states p !! k) ->
                is_Some (_visited_min_states q !! k)).

(** A table that differs from another by zero entries for keys the other
    does not hold. *)
Definition zero_extended {K F : Type} `{Countable K} `{FloatOps F}
    (table table' : gmap K F) : Prop :=
  forall k, table' !! k = table !! k
            \/ (table !! k = None /\ table' !! k = Some (of_int 0)).


(** The local variables with which an episode starts. *)
Definition episode_start {state action K : Type} `{InvestigateGameMC state action K}
    : MonteCarloRLPlayer.locals (state := state) (action := action) (K := K) :=
  {| MonteCarloRLPlayer.game := new_game;
     MonteCarloRLPlayer.trajectory := [];
     MonteCarloRLPlayer.winner := -1;
     MonteCarloRLPlayer.player_idx := 1;
     MonteCarloRLPlayer.player := None;
     MonteCarloRLPlayer.canonical_state_repr_index := None;
     MonteCarloRLPlayer.last_action := None;
     MonteCarloRLPlayer.counter := 0 |}.


(** The action of the first transition whose value is the greatest. *)
Definition first_best {state action : Type} (value : state -> outcome score)
    (ts : list (action * state * Z)) (a : action) : Prop :=
  exists (i : nat) s k v,
    ts !! i = Some (a, s, k) /\ value s = Return v
    /\ forall (j : nat) a' s' k', ts !! j = Some (a', s', k') ->
         exists v', value s' = Return v' /\ vle v' v = true
                    /\ ((j < i)%nat -> vlt v' v = true).

(** What the loop of an episode keeps true of its variables. *)
Definition episode_shape {state action K : Type}
    (l : MonteCarloRLPlayer.locals (state := state) (action := action) (K := K)) : Prop :=
  0 <= MonteCarloRLPlayer.counter l
  /\ ((MonteCarloRLPlayer.last_action l = None /\ MonteCarloRLPlayer.counter l = 0)
      \/ MonteCarloRLPlayer.counter l + 1
         <= Z.of_nat (length (MonteCarloRLPlayer.trajectory l)))
  /\ Forall (fun e => snd e = 0) (MonteCarloRLPlayer.trajectory l)
  /\ (MonteCarloRLPlayer.trajectory l = []
      \/ exists who key front,
           MonteCarloRLPlayer.player l = Some who
           /\ MonteCarloRLPlayer.canonical_state_repr_index l = Some key
           /\ MonteCarloRLPlayer.trajectory l = front ++ [(key, 0)]).

(** Two learners with the same hyperparameters. *)
Definition same_settings {K F : Type} `{Countable K} (a b : MonteCarloRLPlayer.t K F) : Prop :=
  MonteCarloRLPlayer._n_episodes a = MonteCarloRLPlayer._n_episodes b
  /\ MonteCarloRLPlayer._gamma a = MonteCarloRLPlayer._gamma b
  /\ MonteCarloRLPlayer._alpha a = MonteCarloRLPlayer._alpha b
  /\ MonteCarloRLPlayer._min_exploration_rate a = MonteCarloRLPlayer._min_exploration_rate b
  /\ MonteCarloRLPlayer._exploration_decay_rate a
     = MonteCarloRLPlayer._exploration_decay_rate b
  /\ MonteCarloRLPlayer._minmax a = MonteCarloRLPlayer._minmax b
  /\ MonteCarloRLPlayer._switch_ratio a = MonteCarloRLPlayer._switch_ratio b
  /\ MonteCarloRLPlayer._depth a = MonteCarloRLPlayer._depth b
  /\ MonteCarloRLPlayer._symmetries a = MonteCarloRLPlayer._symmetries b.

(** * Properties *)

(** ** The static evaluation *)


Lemma mapM_Return {A B : Type} (f : A -> outcome B) (g : A -> B) (l : list A) :
  (forall x, In x l -> f x = Return (g x)) -> mapM f l = Return (map g l).
Proof.
  induction l as [|x l IH]; intros Hf; simpl; [reflexivity|].
  rewrite (Hf x (or_introl eq_refl)). simpl.
  rewrite IH by (intros y Hy; apply Hf; right; exact Hy). reflexivity.
Qed.


Lemma lines_square (board : ndarray) :
  shape0 board = shape1 board ->
  MinMaxPlayer.lines board = Return (map (cells board) (Spec.lines (shape0 board))).
Proof.
  intros Hsq. unfold MinMaxPlayer.lines.
  rewrite (mapM_Return (fun y => getitem board y y) (fun y => item board y y)).
  2:{ intros y Hy. apply in_seq in Hy. unfold getitem.
      destruct (Nat.ltb_spec y (shape1 board)); [reflexivity | lia]. }
  simpl.
  rewrite (mapM_Return (fun y => getitem_neg board y y) (fun y => item board y (shape0 board - 1 - y)%nat)).
  2:{ intros y Hy. apply in_seq in Hy. unfold getitem_neg.
      destruct (Nat.ltb_spec y (shape1 board)); [|lia].
      do 2 f_equal. lia. }
  simpl. f_equal. unfold Spec.lines, cells.
  rewrite !map_app, !map_map. simpl. rewrite !map_map, <- Hsq.
  f_equal; [|f_equal].
  - apply map_ext. intros y. unfold row. rewrite map_map, <- Hsq. reflexivity.
  - apply map_ext. intros x. unfold column. rewrite map_map. reflexivity.
Qed.

Lemma count_lines (mx mn ne : Z) (ls : list (list Z)) (acc : Z * Z) :
  fold_left (MinMaxPlayer.count_line mx mn ne) ls acc
  = (fst acc + Z.of_nat (length (filter
       (fun l => forallb (fun b : bool => b)
                   (zip_with orb (map (Z.eqb mx) l) (map (Z.eqb ne) l)) = true) ls)),
     snd acc + Z.of_nat (length (filter
       (fun l => forallb (fun b : bool => b)
                   (zip_with orb (map (Z.eqb mn) l) (map (Z.eqb ne) l)) = true) ls))).
Proof.
  revert acc. induction ls as [|l ls IH]; intros [a b]; simpl.
  - f_equal; lia.
  - rewrite IH. unfold MinMaxPlayer.count_line. simpl.
    rewrite !filter_cons.
    repeat case_decide; 
    repeat match goal with H : ?x = true |- context [if ?x then _ else _] => rewrite H end;
    repeat match goal with H : ?x <> true |- context [if ?x then _ else _] =>
      apply not_true_is_false in H; rewrite H end;
    simpl; f_equal; lia.
Qed.

Lemma in_lines_range (n : nat) (l : list (nat * nat)) (c : nat * nat) :
  In l (Spec.lines n) -> In c l -> (fst c < n)%nat /\ (snd c < n)%nat.
Proof.
  unfold Spec.lines. intros Hl Hc.
  repeat (apply in_app_or in Hl; destruct Hl as [Hl|Hl]).
  - apply in_map_iff in Hl as (y & <- & Hy). apply in_map_iff in Hc as (x & <- & Hx).
    apply in_seq in Hy, Hx. simpl. lia.
  - apply in_map_iff in Hl as (x & <- & Hx). apply in_map_iff in Hc as (y & <- & Hy).
    apply in_seq in Hy, Hx. simpl. lia.
  - destruct Hl as [<-|[]]. apply in_map_iff in Hc as (i & <- & Hi).
    apply in_seq in Hi. simpl. lia.
  - destruct Hl as [<-|[]]. apply in_map_iff in Hc as (i & <- & Hi).
    apply in_seq in Hi. simpl. lia.
Qed.

Lemma open_cell (mx mn v : Z) :
  mx <> mn -> mn <> -1 -> v = -1 \/ v = mx \/ v = mn ->
  (mx =? v) || (-1 =? v) = negb (v =? mn).
Proof.
  intros Hne Hn1 Hv.
  destruct (Z.eqb_spec mx v), (Z.eqb_spec (-1) v), (Z.eqb_spec v mn);
    try reflexivity; lia.
Qed.

Lemma open_line (board : ndarray) (mx mn : Z) (l : list (nat * nat)) :
  mx <> mn -> mn <> -1 ->
  (forall c, In c l -> item board (fst c) (snd c) = -1
                       \/ item board (fst c) (snd c) = mx
                       \/ item board (fst c) (snd c) = mn) ->
  forallb (fun b : bool => b)
    (zip_with orb (map (Z.eqb mx) (cells board l)) (map (Z.eqb (-1)) (cells board l)))
  = Spec.has_no board mn l.
Proof.
  intros Hne Hn1. unfold cells, Spec.has_no.
  induction l as [|c l IH]; intros Hc; [reflexivity|].
  cbn [map zip_with forallb].
  rewrite IH by (intros; apply Hc; right; assumption).
  rewrite (open_cell mx mn) by (auto; apply Hc; left; reflexivity).
  reflexivity.
Qed.

Lemma np_int16_id (z : Z) : -32768 <= z <= 32767 -> np_int16 z = z.
Proof. intros Hz. unfold np_int16. rewrite Z.mod_small; lia. Qed.

Lemma length_lines (n : nat) : length (Spec.lines n) = (2 * n + 2)%nat.
Proof.
  unfold Spec.lines. rewrite !length_app, !length_map, !length_seq. simpl. lia.
Qed.

Lemma filter_length_ext {A : Type} (P Q : A -> Prop)
    `{forall x, Decision (P x)} `{forall x, Decision (Q x)} (l : list A) :
  (forall x, In x l -> P x <-> Q x) ->
  length (filter P l) = length (filter Q l).
Proof.
  induction l as [|x l IH]; intros Hext; [reflexivity|].
  rewrite !filter_cons.
  pose proof (Hext x (or_introl eq_refl)) as Hx.
  specialize (IH (fun y Hy => Hext y (or_intror Hy))).
  repeat case_decide; simpl; tauto || lia.
Qed.

Lemma length_filter_map {A B : Type} (f : A -> B) (P : B -> Prop)
    `{forall x, Decision (P x)} (l : list A) :
  length (filter P (map f l)) = length (filter (fun x => P (f x)) l).
Proof.
  induction l as [|x l IH]; [reflexivity|].
  cbn [map]. rewrite !filter_cons. case_decide; simpl; rewrite IH; reflexivity.
Qed.

Lemma filter_length_all {A : Type} (P : A -> Prop) `{forall x, Decision (P x)}
    (l : list A) :
  (forall x, In x l -> P x) -> length (filter P l) = length l.
Proof.
  induction l as [|x l IH]; intros Hall; [reflexivity|].
  rewrite filter_cons. case_decide as Hx.
  - simpl. rewrite IH; [reflexivity | intros; apply Hall; right; assumption].
  - exfalso. apply Hx, Hall. left. reflexivity.
Qed.

Section Evaluation.
Context `{InvestigateGame state action}.


Lemma count_open_lines (board : ndarray) (mx mn : Z) :
  mx <> mn -> mn <> -1 ->
  (forall y x, (y < shape0 board)%nat -> (x < shape0 board)%nat ->
     item board y x = -1 \/ item board y x = mx \/ item board y x = mn) ->
  Z.of_nat (length (filter
     (fun l => forallb (fun b : bool => b)
                 (zip_with orb (map (Z.eqb mx) l) (map (Z.eqb (-1)) l)) = true)
     (map (cells board) (Spec.lines (shape0 board)))))
  = Spec.count_open board mn.
Proof.
  intros Hne Hn1 Hcells. unfold Spec.count_open. f_equal.
  rewrite length_filter_map. apply filter_length_ext.
  intros l Hl. rewrite (open_line board mx mn); [reflexivity | assumption | assumption |].
  intros c Hc. destruct (in_lines_range _ _ _ Hl Hc). apply Hcells; assumption.
Qed.

Lemma evaluation_counts (self : Player) (game : state) :
  _opponent_player_id self = Z.abs (1 - _player_id self) ->
  0 <= _player_id self <= 32767 ->
  check_winner game <> _player_id self ->
  check_winner game <> _opponent_player_id self ->
  shape0 (get_board game) = shape1 (get_board game) ->
  owned_cells self (get_board game) ->
  MinMaxPlayer.evaluation_function self game
  = Return (Fin (Spec.count_open (get_board game) (_opponent_player_id self)
                 - Spec.count_open (get_board game) (_player_id self))).
Proof.
  intros Hopp Hid Hmx Hmn Hsq Hcells. unfold MinMaxPlayer.evaluation_function.
  destruct (Z.eqb_spec (check_winner game) (_player_id self)); [contradiction|].
  destruct (Z.eqb_spec (check_winner game) (_opponent_player_id self)); [contradiction|].
  rewrite (lines_square _ Hsq). cbn [mbind outcome_bind].
  rewrite count_lines. cbn [fst snd].
  rewrite !np_int16_id by lia.
  rewrite (count_open_lines _ (_player_id self) (_opponent_player_id self));
    [| lia | lia | exact Hcells].
  rewrite (count_open_lines _ (_opponent_player_id self) (_player_id self));
    [reflexivity | lia | lia |].
  intros y x Hy Hx. destruct (Hcells y x Hy Hx) as [?|[?|?]]; auto.
Qed.

Lemma count_open_blank (board : ndarray) (other : Z) :
  other <> -1 ->
  (forall y x, (y < shape0 board)%nat -> (x < shape0 board)%nat -> item board y x = -1) ->
  Spec.count_open board other = Z.of_nat (2 * shape0 board + 2).
Proof.
  intros Hne Hblank. unfold Spec.count_open. f_equal.
  rewrite <- (length_lines (shape0 board)).
  apply filter_length_all. intros l Hl. unfold Spec.has_no.
  apply forallb_forall. intros c Hc.
  destruct (in_lines_range _ _ _ Hl Hc).
  rewrite Hblank by assumption.
  destruct (Z.eqb_spec (-1) other); [congruence | reflexivity].
Qed.
End Evaluation.

(** ** Order on scores, decided in [Z] *)



Lemma framed_weaken (lo hi lo' hi' : Z) (a : score) :
  lo' <= lo -> hi <= hi' -> framed lo hi a -> framed lo' hi' a.
Proof. destruct a; simpl; lia. Qed.

Lemma exists_frame (l : list score) :
  exists lo hi, lo < hi /\ Forall (framed lo hi) l.
Proof.
  induction l as [|a l (lo & hi & Hlt & Hall)].
  - exists 0, 1. split; [lia | constructor].
  - exists (Z.min lo (emb 0 0 a - 1)), (Z.max hi (emb 0 0 a + 1)).
    split; [lia|]. constructor.
    + destruct a; simpl; lia.
    + eapply Forall_impl; [exact Hall|]. intros b. apply framed_weaken; lia.
Qed.

Section Frame.
Context (lo hi : Z) (Hframe : lo < hi).

Lemma vle_emb (a b : score) :
  framed lo hi a -> framed lo hi b -> vle a b = (emb lo hi a <=? emb lo hi b).
Proof.
  destruct a, b; simpl; intros; try reflexivity; symmetry;
    rewrite ?Z.leb_le, ?Z.leb_gt; lia.
Qed.

Lemma vlt_emb (a b : score) :
  framed lo hi a -> framed lo hi b -> vlt a b = (emb lo hi a <? emb lo hi b).
Proof.
  intros Ha Hb. unfold vlt. rewrite (vle_emb b a Hb Ha). symmetry. apply Z.ltb_antisym.
Qed.

Lemma emb_inj (a b : score) :
  framed lo hi a -> framed lo hi b -> a = b <-> emb lo hi a = emb lo hi b.
Proof.
  destruct a, b; simpl; intros; split; intros; try congruence; try lia;
    f_equal; lia.
Qed.

Lemma framed_vmax (a b : score) :
  framed lo hi a -> framed lo hi b -> framed lo hi (vmax a b).
Proof. unfold vmax. destruct (vlt a b); auto. Qed.

Lemma framed_vmin (a b : score) :
  framed lo hi a -> framed lo hi b -> framed lo hi (vmin a b).
Proof. unfold vmin. destruct (vlt b a); auto. Qed.

Lemma emb_vmax (a b : score) :
  framed lo hi a -> framed lo hi b ->
  emb lo hi (vmax a b) = Z.max (emb lo hi a) (emb lo hi b).
Proof.
  intros Ha Hb. unfold vmax. rewrite (vlt_emb a b Ha Hb).
  destruct (Z.ltb_spec (emb lo hi a) (emb lo hi b)); lia.
Qed.

Lemma emb_vmin (a b : score) :
  framed lo hi a -> framed lo hi b ->
  emb lo hi (vmin a b) = Z.min (emb lo hi a) (emb lo hi b).
Proof.
  intros Ha Hb. unfold vmin. rewrite (vlt_emb b a Hb Ha).
  destruct (Z.ltb_spec (emb lo hi b) (emb lo hi a)); lia.
Qed.

Lemma emb_bounds (a : score) : framed lo hi a -> lo <= emb lo hi a <= hi.
Proof. destruct a; simpl; lia. Qed.

Lemma emb_NegInf : emb lo hi NegInf = lo.
Proof. reflexivity. Qed.
Lemma emb_PosInf : emb lo hi PosInf = hi.
Proof. reflexivity. Qed.
End Frame.

Lemma vmax_if (a b : score) : (if vlt a b then b else a) = vmax a b.
Proof. reflexivity. Qed.
Lemma vmin_if (a b : score) : (if vlt b a then b else a) = vmin a b.
Proof. reflexivity. Qed.


Ltac framed_solver :=
  repeat first [ assumption | exact I | apply framed_vmax | apply framed_vmin ].

Ltac score_lia l :=
  let lo := fresh "lo" in let hi := fresh "hi" in
  let Hlh := fresh "Hlh" in let Hall := fresh "Hall" in
  destruct (exists_frame l) as (lo & hi & Hlh & Hall);
  repeat match type of Hall with
         | Forall _ (_ :: _) =>
             let H := fresh "Hfr" in
             pose proof (Forall_inv Hall) as H;
             apply Forall_inv_tail in Hall;
             pose proof (emb_bounds lo hi Hlh _ H)
         end;
  clear Hall;
  unfold bounds in *;
  rewrite ?vmax_if, ?vmin_if in *;
  repeat match goal with
         | H : context [vle ?a ?b] |- _ =>
             rewrite (vle_emb lo hi Hlh a b) in H by framed_solver
         | |- context [vle ?a ?b] =>
             rewrite (vle_emb lo hi Hlh a b) by framed_solver
         | H : context [vlt ?a ?b] |- _ =>
             rewrite (vlt_emb lo hi Hlh a b) in H by framed_solver
         | |- context [vlt ?a ?b] =>
             rewrite (vlt_emb lo hi Hlh a b) by framed_solver
         | H : context [@eq score ?a ?b] |- _ =>
             rewrite (emb_inj lo hi Hlh a b) in H by framed_solver
         | |- context [@eq score ?a ?b] =>
             rewrite (emb_inj lo hi Hlh a b) by framed_solver
         end;
  repeat match goal with
         | H : context [emb lo hi (vmax ?a ?b)] |- _ =>
             rewrite (emb_vmax lo hi Hlh a b) in H by framed_solver
         | |- context [emb lo hi (vmax ?a ?b)] =>
             rewrite (emb_vmax lo hi Hlh a b) by framed_solver
         | H : context [emb lo hi (vmin ?a ?b)] |- _ =>
             rewrite (emb_vmin lo hi Hlh a b) in H by framed_solver
         | |- context [emb lo hi (vmin ?a ?b)] =>
             rewrite (emb_vmin lo hi Hlh a b) by framed_solver
         end;
  rewrite ?emb_NegInf, ?emb_PosInf in *;
  rewrite ?Z.leb_le, ?Z.leb_gt, ?Z.ltb_lt, ?Z.ltb_ge in *;
  lia.



Lemma bounds_full (v m : score) : bounds NegInf PosInf v m -> v = m.
Proof. intros Hb. score_lia [v; m]. Qed.


Lemma same_player_refl p : same_player p p.
Proof. repeat split. Qed.
Lemma same_player_max p q k e : same_player p q -> same_player p (set_visited_max q k e).
Proof. intros H. exact H. Qed.
Lemma same_player_min p q k e : same_player p q -> same_player p (set_visited_min q k e).
Proof. intros H. exact H. Qed.
Lemma same_player_hit p q : same_player p q -> same_player p (record_hit q).
Proof. intros H. exact H. Qed.

Create HintDb players.
#[local] Hint Resolve same_player_refl same_player_max same_player_min same_player_hit : players.

Section SameResults.
Context `{InvestigateGame state action}.

Lemma evaluation_same (p q : Player) (game : state) :
  same_player p q ->
  MinMaxPlayer.evaluation_function q game = MinMaxPlayer.evaluation_function p game.
Proof.
  intros (H1 & H2 & _). unfold MinMaxPlayer.evaluation_function. rewrite H1, H2. reflexivity.
Qed.

Lemma transitions_same (p q : Player) (game : state) (who : Z) :
  same_player p q ->
  MinMaxPlayer.transitions_of q game who = MinMaxPlayer.transitions_of p game who.
Proof.
  intros (_ & _ & _ & H4). unfold MinMaxPlayer.transitions_of. rewrite H4. reflexivity.
Qed.


Lemma max_loop_faithful (p : Player) call ref :
  faithful p call ref ->
  forall (ts : list (action * state * Z)) value key q v k' q',
    same_player p q ->
    MinMaxPlayer.max_loop call ts value key q = Return (v, k', q') ->
    same_player p q' /\ _hit q <= _hit q'
    /\ (_hit q' = _hit q -> Spec.fold_children vmax ref ts value = Return v).
Proof.
  intros Hcall. induction ts as [|[[a s] k] ts IH]; intros value key q v k' q' Hq Hrun.
  - simpl in Hrun. injection Hrun as <- <- <-.
    split; [assumption | split; [lia | reflexivity]].
  - simpl in Hrun. destruct (call s k q) as [[v1 q1]| |] eqn:E; try discriminate.
    simpl in Hrun. destruct (Hcall _ _ _ _ _ Hq E) as (Hq1 & Hle & Href).
    destruct (IH _ _ _ _ _ _ Hq1 Hrun) as (Hq' & Hle' & Hrest).
    split; [assumption | split; [lia |]].
    intros Hhit. simpl. rewrite Href by lia. simpl. apply Hrest. lia.
Qed.

Lemma min_loop_faithful (p : Player) call ref :
  faithful p call ref ->
  forall (ts : list (action * state * Z)) value key q v k' q',
    same_player p q ->
    MinMaxPlayer.min_loop call ts value key q = Return (v, k', q') ->
    same_player p q' /\ _hit q <= _hit q'
    /\ (_hit q' = _hit q -> Spec.fold_children vmin ref ts value = Return v).
Proof.
  intros Hcall. induction ts as [|[[a s] k] ts IH]; intros value key q v k' q' Hq Hrun.
  - simpl in Hrun. injection Hrun as <- <- <-.
    split; [assumption | split; [lia | reflexivity]].
  - simpl in Hrun. destruct (call s k q) as [[v1 q1]| |] eqn:E; try discriminate.
    simpl in Hrun. destruct (Hcall _ _ _ _ _ Hq E) as (Hq1 & Hle & Href).
    destruct (IH _ _ _ _ _ _ Hq1 Hrun) as (Hq' & Hle' & Hrest).
    split; [assumption | split; [lia |]].
    intros Hhit. simpl. rewrite Href by lia. simpl. apply Hrest. lia.
Qed.

Lemma minmax_faithful (p : Player) (fuel : nat) (depth : Z) :
  faithful p (fun s k q => MinMaxPlayer.max_value fuel s k depth q)
             (fun s => Spec.max_value p fuel s depth)
  /\ faithful p (fun s k q => MinMaxPlayer.min_value fuel s k depth q)
                (fun s => Spec.min_value p fuel s depth).
Proof.
  revert depth. induction fuel as [|fuel IH]; intros depth.
  - split; intros s k q v q' _ Hrun; discriminate.
  - split; intros s k q v q' Hq Hrun; cbn [MinMaxPlayer.max_value MinMaxPlayer.min_value] in Hrun.
    + destruct (cached (_visited_max_states q) k depth) as [c|].
      { injection Hrun as <- <-. split; [exact Hq | simpl; split; lia]. }
      cbn [Spec.max_value].
      destruct ((depth <=? 0) || negb (check_winner s =? -1)).
      * rewrite (evaluation_same p) in Hrun by assumption.
        destruct (MinMaxPlayer.evaluation_function p s) as [e| |] eqn:E; try discriminate.
        cbn [mbind outcome_bind] in Hrun.
        rewrite (evaluation_same p) in Hrun by auto with players.
        rewrite E in Hrun. cbn in Hrun. injection Hrun as <- <-.
        split; [exact Hq | simpl; split; [lia | reflexivity]].
      * destruct (MinMaxPlayer.max_loop _ _ _ _ _) as [[[v1 k1] q1]| |] eqn:E in Hrun;
          try discriminate.
        cbn in Hrun. injection Hrun as <- <-.
        eapply max_loop_faithful in E; [| apply (IH (depth - 1)) | exact Hq].
        destruct E as (Hq1 & Hle & Href).
        destruct Hq as (Hid & Hq).
        rewrite (transitions_same p q), <- Hid in Href by (split; assumption).
        split; [exact Hq1 | simpl; split; [lia | exact Href]].
    + destruct (cached (_visited_min_states q) k depth) as [c|].
      { injection Hrun as <- <-. split; [exact Hq | simpl; split; lia]. }
      cbn [Spec.min_value].
      destruct ((depth <=? 0) || negb (check_winner s =? -1)).
      * rewrite (evaluation_same p) in Hrun by assumption.
        destruct (MinMaxPlayer.evaluation_function p s) as [e| |] eqn:E; try discriminate.
        cbn in Hrun. injection Hrun as <- <-.
        split; [exact Hq | simpl; split; [lia | reflexivity]].
      * destruct (MinMaxPlayer.min_loop _ _ _ _ _) as [[[v1 k1] q1]| |] eqn:E in Hrun;
          try discriminate.
        cbn in Hrun. injection Hrun as <- <-.
        eapply min_loop_faithful in E; [| apply (IH (depth - 1)) | exact Hq].
        destruct E as (Hq1 & Hle & Href).
        destruct Hq as (Hid & Hopp & Hq).
        rewrite (transitions_same p q), <- Hopp in Href by (repeat split; tauto).
        split; [exact Hq1 | simpl; split; [lia | exact Href]].
Qed.
End SameResults.

Section AlphaBetaSound.
Context `{InvestigateGame state action}.

Lemma fold_children_vmax_ge (ref : state -> outcome score)
    (ts : list (action * state * Z)) (M m : score) :
  Spec.fold_children vmax ref ts M = Return m -> vle M m = true.
Proof.
  revert M. induction ts as [|[[a s] k] ts IH]; intros M Hfold; simpl in Hfold.
  - injection Hfold as <-. score_lia [M].
  - destruct (ref s) as [mj| |]; try discriminate. simpl in Hfold.
    apply IH in Hfold. score_lia [M; mj; m].
Qed.

Lemma fold_children_vmin_le (ref : state -> outcome score)
    (ts : list (action * state * Z)) (M m : score) :
  Spec.fold_children vmin ref ts M = Return m -> vle m M = true.
Proof.
  revert M. induction ts as [|[[a s] k] ts IH]; intros M Hfold; simpl in Hfold.
  - injection Hfold as <-. score_lia [M].
  - destruct (ref s) as [mj| |]; try discriminate. simpl in Hfold.
    apply IH in Hfold. score_lia [M; mj; m].
Qed.


Lemma ab_max_loop_steady (p : Player) call depth beta :
  steady p call ->
  forall (ts : list (action * state * Z)) b a key q v q',
    same_player p q ->
    AlphaBetaMinMaxPlayer.max_loop call depth beta ts b a key q = Return (v, q') ->
    same_player p q' /\ _hit q <= _hit q'.
Proof.
  intros Hcall. induction ts as [|[[c s] k] ts IH]; intros b a key q v q' Hq Hrun;
    simpl in Hrun.
  - injection Hrun as <- <-. split; [exact Hq | simpl; lia].
  - destruct (call s k a q) as [[v1 q1]| |] eqn:E; try discriminate.
    simpl in Hrun. destruct (Hcall _ _ _ _ _ _ Hq E) as (Hq1 & Hle).
    destruct (vlt b v1); simpl in Hrun.
    + destruct (vle beta v1).
      * injection Hrun as <- <-. split; [exact Hq1 | simpl; lia].
      * destruct (IH _ _ _ _ _ _ Hq1 Hrun). split; [assumption | lia].
    + destruct (vle beta b).
      * injection Hrun as <- <-. split; [exact Hq1 | simpl; lia].
      * destruct (IH _ _ _ _ _ _ Hq1 Hrun). split; [assumption | lia].
Qed.

Lemma ab_min_loop_steady (p : Player) call depth alpha :
  steady p call ->
  forall (ts : list (action * state * Z)) b a key q v q',
    same_player p q ->
    AlphaBetaMinMaxPlayer.min_loop call depth alpha ts b a key q = Return (v, q') ->
    same_player p q' /\ _hit q <= _hit q'.
Proof.
  intros Hcall. induction ts as [|[[c s] k] ts IH]; intros b a key q v q' Hq Hrun;
    simpl in Hrun.
  - injection Hrun as <- <-. split; [exact Hq | simpl; lia].
  - destruct (call s k a q) as [[v1 q1]| |] eqn:E; try discriminate.
    simpl in Hrun. destruct (Hcall _ _ _ _ _ _ Hq E) as (Hq1 & Hle).
    destruct (vlt v1 b); simpl in Hrun.
    + destruct (vle v1 alpha).
      * injection Hrun as <- <-. split; [exact Hq1 | simpl; lia].
      * destruct (IH _ _ _ _ _ _ Hq1 Hrun). split; [assumption | lia].
    + destruct (vle b alpha).
      * injection Hrun as <- <-. split; [exact Hq1 | simpl; lia].
      * destruct (IH _ _ _ _ _ _ Hq1 Hrun). split; [assumption | lia].
Qed.

Lemma alphabeta_steady (p : Player) (fuel : nat) (depth : Z) (alpha beta : score) :
  steady p (fun s k (_ : score) q =>
              AlphaBetaMinMaxPlayer.max_value fuel s k depth alpha beta q)
  /\ steady p (fun s k (_ : score) q =>
              AlphaBetaMinMaxPlayer.min_value fuel s k depth alpha beta q).
Proof.
  revert depth alpha beta. induction fuel as [|fuel IH]; intros depth alpha beta.
  - split; intros s k w q v q' _ Hrun; discriminate.
  - split; intros s k w q v q' Hq Hrun;
      cbn [AlphaBetaMinMaxPlayer.max_value AlphaBetaMinMaxPlayer.min_value] in Hrun.
    + destruct (cached (_visited_max_states q) k depth) as [c|].
      { injection Hrun as <- <-. split; [exact Hq | simpl; lia]. }
      destruct ((depth <=? 0) || negb (check_winner s =? -1)).
      * destruct (MinMaxPlayer.evaluation_function q s) as [e| |]; try discriminate.
        cbn in Hrun. injection Hrun as <- <-. split; [exact Hq | simpl; lia].
      * eapply ab_max_loop_steady in Hrun; [exact Hrun | | exact Hq].
        intros s1 k1 w1 q1 v1 q1' Hq1 Hrun1.
        exact (proj2 (IH (depth - 1) w1 beta) s1 k1 w1 q1 v1 q1' Hq1 Hrun1).
    + destruct (cached (_visited_min_states q) k depth) as [c|].
      { injection Hrun as <- <-. split; [exact Hq | simpl; lia]. }
      destruct ((depth <=? 0) || negb (check_winner s =? -1)).
      * destruct (MinMaxPlayer.evaluation_function q s) as [e| |]; try discriminate.
        cbn in Hrun. injection Hrun as <- <-. split; [exact Hq | simpl; lia].
      * eapply ab_min_loop_steady in Hrun; [exact Hrun | | exact Hq].
        intros s1 k1 w1 q1 v1 q1' Hq1 Hrun1.
        exact (proj1 (IH (depth - 1) alpha w1) s1 k1 w1 q1 v1 q1' Hq1 Hrun1).
Qed.

Lemma ab_max_loop_sound (p : Player) call ref depth alpha0 beta :
  steady p call ->
  (forall s k a q v q' m,
      same_player p q -> vlt a beta = true -> call s k a q = Return (v, q') ->
      _hit q' = _hit q -> ref s = Return m -> bounds a beta v m) ->
  vlt alpha0 beta = true ->
  forall (ts : list (action * state * Z)) b M key q v q' m,
    same_player p q -> vlt b beta = true ->
    vle M b = true -> (vlt alpha0 b = true -> M = b) ->
    AlphaBetaMinMaxPlayer.max_loop call depth beta ts b (vmax alpha0 b) key q
      = Return (v, q') ->
    _hit q' = _hit q ->
    Spec.fold_children vmax ref ts M = Return m ->
    bounds alpha0 beta v m.
Proof.
  intros Hsteady Hsound Hwin.
  induction ts as [|[[c s] k] ts IH];
    intros b M key q v q' m Hq Hb HM HMb Hrun Hhit Hfold;
    simpl in Hrun, Hfold.
  - injection Hrun as <- <-. injection Hfold as <-.
    clear Hsound Hsteady. score_lia [alpha0; b; beta; M].
  - destruct (call s k (vmax alpha0 b) q) as [[v1 q1]| |] eqn:E; try discriminate.
    destruct (ref s) as [mj| |] eqn:Er; try discriminate.
    simpl in Hrun, Hfold.
    destruct (Hsteady _ _ _ _ _ _ Hq E) as (Hq1 & Hle).
    assert (Hwin1 : vlt (vmax alpha0 b) beta = true)
      by (clear IH Hsound Hsteady; score_lia [alpha0; b; beta]).
    pose proof (fold_children_vmax_ge _ _ _ _ Hfold) as Hge.
    destruct (vlt b v1) eqn:Elt; simpl in Hrun.
    + destruct (vle beta v1) eqn:Ecut.
      * injection Hrun as <- <-. simpl in Hhit.
        pose proof (Hsound _ _ _ _ _ _ _ Hq Hwin1 E Hhit Er) as Hb1.
        clear IH Hsound Hsteady. score_lia [alpha0; b; beta; M; v1; mj; m].
      * assert (Ha : vmax (vmax alpha0 b) v1 = vmax alpha0 v1)
          by (clear IH Hsound Hsteady; score_lia [alpha0; b; v1]).
        rewrite Ha in Hrun.
        destruct (ab_max_loop_steady p call depth beta Hsteady _ _ _ _ _ _ _ Hq1 Hrun)
          as (_ & Hle').
        assert (Hhit1 : _hit q1 = _hit q) by lia.
        pose proof (Hsound _ _ _ _ _ _ _ Hq Hwin1 E Hhit1 Er) as Hb1.
        apply (IH v1 (vmax M mj) k q1 v q' m); try assumption; try lia;
          clear IH Hsound Hsteady; score_lia [alpha0; b; beta; M; v1; mj].
    + destruct (vle beta b) eqn:Ecut.
      { exfalso. clear IH Hsound Hsteady. score_lia [b; beta]. }
      destruct (ab_max_loop_steady p call depth beta Hsteady _ _ _ _ _ _ _ Hq1 Hrun)
        as (_ & Hle').
      assert (Hhit1 : _hit q1 = _hit q) by lia.
      pose proof (Hsound _ _ _ _ _ _ _ Hq Hwin1 E Hhit1 Er) as Hb1.
      apply (IH b (vmax M mj) k q1 v q' m); try assumption; try lia;
        clear IH Hsound Hsteady; score_lia [alpha0; b; beta; M; v1; mj].
Qed.

Lemma ab_min_loop_sound (p : Player) call ref depth alpha beta0 :
  steady p call ->
  (forall s k w q v q' m,
      same_player p q -> vlt alpha w = true -> call s k w q = Return (v, q') ->
      _hit q' = _hit q -> ref s = Return m -> bounds alpha w v m) ->
  vlt alpha beta0 = true ->
  forall (ts : list (action * state * Z)) b M key q v q' m,
    same_player p q -> vlt alpha b = true ->
    vle b M = true -> (vlt b beta0 = true -> M = b) ->
    AlphaBetaMinMaxPlayer.min_loop call depth alpha ts b (vmin beta0 b) key q
      = Return (v, q') ->
    _hit q' = _hit q ->
    Spec.fold_children vmin ref ts M = Return m ->
    bounds alpha beta0 v m.
Proof.
  intros Hsteady Hsound Hwin.
  induction ts as [|[[c s] k] ts IH];
    intros b M key q v q' m Hq Hb HM HMb Hrun Hhit Hfold;
    simpl in Hrun, Hfold.
  - injection Hrun as <- <-. injection Hfold as <-.
    clear Hsound Hsteady. score_lia [alpha; b; beta0; M].
  - destruct (call s k (vmin beta0 b) q) as [[v1 q1]| |] eqn:E; try discriminate.
    destruct (ref s) as [mj| |] eqn:Er; try discriminate.
    simpl in Hrun, Hfold.
    destruct (Hsteady _ _ _ _ _ _ Hq E) as (Hq1 & Hle).
    assert (Hwin1 : vlt alpha (vmin beta0 b) = true)
      by (clear IH Hsound Hsteady; score_lia [alpha; b; beta0]).
    pose proof (fold_children_vmin_le _ _ _ _ Hfold) as Hge.
    destruct (vlt v1 b) eqn:Elt; simpl in Hrun.
    + destruct (vle v1 alpha) eqn:Ecut.
      * injection Hrun as <- <-. simpl in Hhit.
        pose proof (Hsound _ _ _ _ _ _ _ Hq Hwin1 E Hhit Er) as Hb1.
        clear IH Hsound Hsteady. score_lia [alpha; b; beta0; M; v1; mj; m].
      * assert (Ha : vmin (vmin beta0 b) v1 = vmin beta0 v1)
          by (clear IH Hsound Hsteady; score_lia [beta0; b; v1]).
        rewrite Ha in Hrun.
        destruct (ab_min_loop_steady p call depth alpha Hsteady _ _ _ _ _ _ _ Hq1 Hrun)
          as (_ & Hle').
        assert (Hhit1 : _hit q1 = _hit q) by lia.
        pose proof (Hsound _ _ _ _ _ _ _ Hq Hwin1 E Hhit1 Er) as Hb1.
        apply (IH v1 (vmin M mj) k q1 v q' m); try assumption; try lia;
          clear IH Hsound Hsteady; score_lia [alpha; b; beta0; M; v1; mj].
    + destruct (vle b alpha) eqn:Ecut.
      { exfalso. clear IH Hsound Hsteady. score_lia [b; alpha]. }
      destruct (ab_min_loop_steady p call depth alpha Hsteady _ _ _ _ _ _ _ Hq1 Hrun)
        as (_ & Hle').
      assert (Hhit1 : _hit q1 = _hit q) by lia.
      pose proof (Hsound _ _ _ _ _ _ _ Hq Hwin1 E Hhit1 Er) as Hb1.
      apply (IH b (vmin M mj) k q1 v q' m); try assumption; try lia;
        clear IH Hsound Hsteady; score_lia [alpha; b; beta0; M; v1; mj].
Qed.

(** Without a cache hit, a call of the pruning engine under a window
    [alpha < beta] brackets the cache-free value. *)
Lemma alphabeta_sound (p : Player) (fuel : nat) :
  forall depth s k alpha beta q v q' m,
    same_player p q -> vlt alpha beta = true -> _hit q' = _hit q ->
    (AlphaBetaMinMaxPlayer.max_value fuel s k depth alpha beta q = Return (v, q') ->
     Spec.max_value p fuel s depth = Return m -> bounds alpha beta v m)
    /\ (AlphaBetaMinMaxPlayer.min_value fuel s k depth alpha beta q = Return (v, q') ->
        Spec.min_value p fuel s depth = Return m -> bounds alpha beta v m).
Proof.
  induction fuel as [|fuel IH]; intros depth s k alpha beta q v q' m Hq Hwin Hhit.
  - split; intros Hrun; discriminate.
  - split; intros Hrun Href;
      cbn [AlphaBetaMinMaxPlayer.max_value AlphaBetaMinMaxPlayer.min_value] in Hrun;
      cbn [Spec.max_value Spec.min_value] in Href.
    + destruct (cached (_visited_max_states q) k depth) as [c|].
      { injection Hrun as <- <-. simpl in Hhit. lia. }
      destruct ((depth <=? 0) || negb (check_winner s =? -1)).
      * rewrite (evaluation_same p) in Hrun by assumption. rewrite Href in Hrun.
        cbn in Hrun. injection Hrun as <- <-. clear IH. score_lia [alpha; beta; m].
      * rewrite (transitions_same p q), <- (proj1 Hq) in Hrun by assumption.
        assert (Ha : vmax alpha NegInf = alpha) by (clear IH; score_lia [alpha]).
        rewrite <- Ha in Hrun.
        refine (ab_max_loop_sound p _ (fun s1 => Spec.min_value p fuel s1 (depth - 1))
                  depth alpha beta _ _ Hwin _ NegInf NegInf k q v q' m Hq _ _ _
                  Hrun Hhit Href).
        -- intros s1 k1 w1 q1 v1 q1' Hq1 Hrun1.
           exact (proj2 (alphabeta_steady p fuel (depth - 1) w1 beta)
                    s1 k1 w1 q1 v1 q1' Hq1 Hrun1).
        -- intros s1 k1 a1 q1 v1 q1' m1 Hq1 Hwin1 Hrun1 Hhit1 Href1.
           exact (proj2 (IH (depth - 1) s1 k1 a1 beta q1 v1 q1' m1 Hq1 Hwin1 Hhit1)
                    Hrun1 Href1).
        -- clear IH. score_lia [alpha; beta].
        -- reflexivity.
        -- intros _. reflexivity.
    + destruct (cached (_visited_min_states q) k depth) as [c|].
      { injection Hrun as <- <-. simpl in Hhit. lia. }
      destruct ((depth <=? 0) || negb (check_winner s =? -1)).
      * rewrite (evaluation_same p) in Hrun by assumption. rewrite Href in Hrun.
        cbn in Hrun. injection Hrun as <- <-. clear IH. score_lia [alpha; beta; m].
      * rewrite (transitions_same p q), <- (proj1 (proj2 Hq)) in Hrun by assumption.
        assert (Hb : vmin beta PosInf = beta) by (clear IH; score_lia [beta]).
        rewrite <- Hb in Hrun.
        refine (ab_min_loop_sound p _ (fun s1 => Spec.max_value p fuel s1 (depth - 1))
                  depth alpha beta _ _ Hwin _ PosInf PosInf k q v q' m Hq _ _ _
                  Hrun Hhit Href).
        -- intros s1 k1 w1 q1 v1 q1' Hq1 Hrun1.
           exact (proj1 (alphabeta_steady p fuel (depth - 1) alpha w1)
                    s1 k1 w1 q1 v1 q1' Hq1 Hrun1).
        -- intros s1 k1 b1 q1 v1 q1' m1 Hq1 Hwin1 Hrun1 Hhit1 Href1.
           exact (proj1 (IH (depth - 1) s1 k1 alpha b1 q1 v1 q1' m1 Hq1 Hwin1 Hhit1)
                    Hrun1 Href1).
        -- clear IH. score_lia [alpha; beta].
        -- clear IH. score_lia [alpha].
        -- intros _. reflexivity.
Qed.
End AlphaBetaSound.

Section Roots.
Context `{InvestigateGame state action}.

Lemma best_loop_steady (p : Player)
    (call : state -> Z -> Player -> outcome (score * Player)) :
  (forall s k q v q', same_player p q -> call s k q = Return (v, q') ->
                      same_player p q' /\ _hit q <= _hit q') ->
  forall (ts : list (action * state * Z)) best q r q',
    same_player p q ->
    MinMaxPlayer.best_loop call ts best q = Return (r, q') ->
    same_player p q' /\ _hit q <= _hit q'.
Proof.
  intros Hcall. induction ts as [|[[a s] k] ts IH]; intros best q r q' Hq Hrun;
    simpl in Hrun.
  - injection Hrun as <- <-. split; [assumption | lia].
  - destruct (call s k q) as [[v1 q1]| |] eqn:E; try discriminate. simpl in Hrun.
    destruct (Hcall _ _ _ _ _ Hq E) as (Hq1 & Hle).
    destruct (IH _ _ _ _ Hq1 Hrun) as (Hq' & Hle'). split; [assumption | lia].
Qed.


Lemma minmax_root_faithful (p : Player) :
  faithful p minmax_root_call
    (fun s => Spec.min_value p (MinMaxPlayer.budget (_depth p - 1)) s (_depth p - 1)).
Proof.
  intros s k q v q' Hq Hrun. unfold minmax_root_call in Hrun.
  rewrite <- (proj1 (proj2 (proj2 Hq))) in Hrun.
  exact (proj2 (minmax_faithful p _ _) s k q v q' Hq Hrun).
Qed.

Lemma minmax_root_steady (p : Player) :
  forall s k q v q', same_player p q ->
    minmax_root_call s k q = Return (v, q') ->
    same_player p q' /\ _hit q <= _hit q'.
Proof.
  intros s k q v q' Hq Hrun.
  destruct (minmax_root_faithful p s k q v q' Hq Hrun) as (? & ? & _).
  split; assumption.
Qed.

Lemma alphabeta_root_steady (p : Player) :
  forall s k q v q', same_player p q ->
    alphabeta_root_call s k q = Return (v, q') ->
    same_player p q' /\ _hit q <= _hit q'.
Proof.
  intros s k q v q' Hq Hrun. unfold alphabeta_root_call in Hrun.
  exact (proj2 (alphabeta_steady p _ _ NegInf PosInf) s k NegInf q v q' Hq Hrun).
Qed.

Lemma alphabeta_root_exact (p : Player) :
  forall s k q v q' m, same_player p q ->
    alphabeta_root_call s k q = Return (v, q') -> _hit q' = _hit q ->
    Spec.min_value p (MinMaxPlayer.budget (_depth p - 1)) s (_depth p - 1) = Return m ->
    v = m.
Proof.
  intros s k q v q' m Hq Hrun Hhit Href. unfold alphabeta_root_call in Hrun.
  rewrite <- (proj1 (proj2 (proj2 Hq))) in Hrun.
  apply bounds_full.
  exact (proj2 (alphabeta_sound p _ _ s k NegInf PosInf q v q' m Hq eq_refl Hhit)
           Hrun Href).
Qed.


End Roots.


(** ** The transposition caches *)





(** ** Cut-offs of the pruning engine *)




(** ** Where the plain engine files its results *)

(** The part of the contract that holds: a query that the cache does not
    answer on a leaf or a finished game files the evaluation under the
    queried key with depth 0 and returns it. *)
Lemma leaf_files_under_queried_key `{InvestigateGame state action}
    (fuel : nat) (game : state) (key depth : Z) (self : Player) (v : score) :
  cached (_visited_max_states self) key depth = None ->
  cached (_visited_min_states self) key depth = None ->
  depth <= 0 \/ check_winner game <> -1 ->
  MinMaxPlayer.evaluation_function self game = Return v ->
  MinMaxPlayer.max_value (S fuel) game key depth self
    = Return (v, set_visited_max self key (EntryMinMax.mk 0 v))
  /\ MinMaxPlayer.min_value (S fuel) game key depth self
    = Return (v, set_visited_min self key (EntryMinMax.mk 0 v)).
Proof.
  intros Hmax Hmin Hleaf Hev.
  assert (Hc : (depth <=? 0) || negb (check_winner game =? -1) = true).
  { destruct Hleaf as [Hd|Hw].
    - destruct (Z.leb_spec depth 0); [reflexivity | lia].
    - destruct (Z.eqb_spec (check_winner game) (-1)); [contradiction|].
      apply orb_true_r. }
  split; simpl.
  - rewrite Hmax, Hc, Hev. simpl.
    change (MinMaxPlayer.evaluation_function
              (set_visited_max self key (EntryMinMax.mk 0 v)) game)
      with (MinMaxPlayer.evaluation_function self game).
    rewrite Hev. reflexivity.
  - rewrite Hmin, Hc, Hev. reflexivity.
Qed.

Lemma last_cons_default {A : Type} (l : list A) (x d : A) :
  List.last (x :: l) d = List.last l x.
Proof.
  revert x d. induction l as [|y l IH]; intros x d; [reflexivity|].
  change (List.last (x :: y :: l) d) with (List.last (y :: l) d).
  rewrite (IH y d), (IH y x). reflexivity.
Qed.

(** After the loop the name [key] is bound to the key of the last transition. *)
Lemma max_loop_key {state action : Type}
    (call : state -> Z -> Player -> outcome (score * Player))
    (ts : list (action * state * Z)) (value : score) (key : Z) (self : Player)
    (v : score) (k' : Z) (self' : Player) :
  MinMaxPlayer.max_loop call ts value key self = Return (v, k', self') ->
  k' = List.last (map snd ts) key.
Proof.
  revert value key self. induction ts as [|[[a s] k] ts IH]; intros value key self Hrun;
    simpl in Hrun.
  - injection Hrun as _ <- _. reflexivity.
  - destruct (call s k self) as [[v1 q1]| |]; try discriminate. simpl in Hrun.
    apply IH in Hrun. rewrite Hrun. cbn [map snd]. rewrite last_cons_default. reflexivity.
Qed.

(** C2 (the code departs from it). A call on an inner node, which the cache
    does not answer, files its result under the key of the last transition
    of the node. On the root of the crossing game at depth 1, with fresh
    caches, [max_value] returns the maximum over the children, files it with
    depth 1 under key 2, the key of the last child, and leaves the queried
    key 0 without an entry; [min_value] on [PA], queried under key 1, does
    the same with key 2. *)
Theorem inner_node_files_under_last_child_key :
  (forall `{InvestigateGame state action} (fuel : nat) (game : state)
      (key depth : Z) (self : Player) (v : score) (self' : Player),
      cached (_visited_max_states self) key depth = None ->
      0 < depth -> check_winner game = -1 ->
      MinMaxPlayer.max_value (S fuel) game key depth self = Return (v, self') ->
      _visited_max_states self'
        !! List.last (map snd (MinMaxPlayer.transitions_of self game (_player_id self))) key
      = Some (EntryMinMax.mk depth v))
  /\ (exists self',
        MinMaxPlayer.max_value (MinMaxPlayer.budget 1) Crossing.Root 0 1
          (MinMaxPlayer.init 0 2 false) = Return (Fin 0, self')
        /\ _visited_max_states self' !! 0 = None
        /\ _visited_max_states self' !! 2 = Some (EntryMinMax.mk 1 (Fin 0)))
  /\ (exists self',
        MinMaxPlayer.min_value (MinMaxPlayer.budget 1) Crossing.PA 1 1
          (MinMaxPlayer.init 0 2 false) = Return (NegInf, self')
        /\ _visited_min_states self' !! 1 = None
        /\ _visited_min_states self' !! 2 = Some (EntryMinMax.mk 1 NegInf)).
Proof.
  split; [|split].
  - intros state action rules fuel game key depth self v self' Hc Hd Hw Hrun.
    simpl in Hrun. rewrite Hc, Hw in Hrun.
    destruct (Z.leb_spec depth 0); [lia|]. simpl in Hrun.
    destruct (MinMaxPlayer.max_loop _ _ _ _ _) as [[[v1 k1] q1]| |] eqn:E in Hrun;
      try discriminate.
    simpl in Hrun. injection Hrun as <- <-.
    apply max_loop_key in E. subst k1. apply lookup_insert_eq.
  - eexists. split; [vm_compute; reflexivity | split; reflexivity].
  - eexists. split; [vm_compute; reflexivity | split; reflexivity].
Qed.

(** C5. For a player whose opponent is the other of the two ids: a state
    that the max player has won evaluates to plus infinity, one that the min
    player has won to minus infinity. For every other state with a square
    board of neutral and owned cells the evaluation is the number of lines
    (the [2N+2] rows, columns and diagonals) without a cell of the min
    player, minus the number of lines without a cell of the max player; on a
    board of neutral cells only it is 0. *)
Theorem evaluation_function_spec `{InvestigateGame state action}
    (self : Player) (game : state) :
  _opponent_player_id self = Z.abs (1 - _player_id self) ->
  0 <= _player_id self <= 32767 ->
  (check_winner game = _player_id self ->
     MinMaxPlayer.evaluation_function self game = Return PosInf)
  /\ (check_winner game = _opponent_player_id self ->
     MinMaxPlayer.evaluation_function self game = Return NegInf)
  /\ (check_winner game <> _player_id self ->
      check_winner game <> _opponent_player_id self ->
      shape0 (get_board game) = shape1 (get_board game) ->
      (owned_cells self (get_board game) ->
       MinMaxPlayer.evaluation_function self game
       = Return (Fin (Spec.count_open (get_board game) (_opponent_player_id self)
                      - Spec.count_open (get_board game) (_player_id self)))
       /\ length (Spec.lines (shape0 (get_board game)))
          = (2 * shape0 (get_board game) + 2)%nat)
      /\ ((forall y x, (y < shape0 (get_board game))%nat ->
                       (x < shape0 (get_board game))%nat ->
                       item (get_board game) y x = -1) ->
          MinMaxPlayer.evaluation_function self game = Return (Fin 0))).
Proof.
  intros Hopp Hid. split; [|split].
  - intros Hw. unfold MinMaxPlayer.evaluation_function.
    rewrite Hw, Z.eqb_refl. reflexivity.
  - intros Hw. unfold MinMaxPlayer.evaluation_function. rewrite Hw, Z.eqb_refl.
    destruct (Z.eqb_spec (_opponent_player_id self) (_player_id self)); [lia | reflexivity].
  - intros Hmx Hmn Hsq. split.
    + intros Hcells. split; [|apply length_lines].
      apply evaluation_counts; assumption.
    + intros Hblank. rewrite evaluation_counts; try assumption.
      * rewrite !count_open_blank by (assumption || lia). do 2 f_equal. lia.
      * intros y x Hy Hx. left. apply Hblank; assumption.
Qed.

Lemma evaluation_function_spec_witness :
  (MinMaxPlayer.evaluation_function (MinMaxPlayer.init 0 2 false) Crossing.PB1
   = Return (Fin (Spec.count_open Crossing.board_B1 1
                  - Spec.count_open Crossing.board_B1 0))
   /\ length (Spec.lines 3) = 8%nat)
  /\ MinMaxPlayer.evaluation_function (MinMaxPlayer.init 0 2 false) Crossing.Root
     = Return (Fin 0)
  /\ MinMaxPlayer.evaluation_function (MinMaxPlayer.init 0 2 false) Crossing.PA1
     = Return NegInf.
Proof.
  assert (Hid : 0 <= _player_id (MinMaxPlayer.init 0 2 false) <= 32767) by (simpl; lia).
  pose proof (evaluation_function_spec (MinMaxPlayer.init 0 2 false) Crossing.PB1
                eq_refl Hid) as (_ & _ & HB1).
  pose proof (evaluation_function_spec (MinMaxPlayer.init 0 2 false) Crossing.Root
                eq_refl Hid) as (_ & _ & HRoot).
  pose proof (evaluation_function_spec (MinMaxPlayer.init 0 2 false) Crossing.PA1
                eq_refl Hid) as (_ & HA1 & _).
  split; [|split].
  - apply HB1; try (simpl; lia); try reflexivity.
    intros y x Hy Hx. simpl in Hy, Hx.
    destruct y as [|[|[|y]]]; try lia; destruct x as [|[|[|x]]]; try lia; simpl; lia.
  - apply HRoot; try (simpl; lia); try reflexivity.
    intros y x Hy Hx. simpl in Hy, Hx.
    destruct y as [|[|[|y]]]; try lia; destruct x as [|[|[|x]]]; try lia; reflexivity.
  - apply HA1. reflexivity.
Defined.

(** ** The two engines side by side *)





(** ** The searches return *)

Lemma lines_fit (board : ndarray) :
  (shape0 board <= shape1 board)%nat ->
  exists ls, MinMaxPlayer.lines board = Return ls.
Proof.
  intros Hfit. unfold MinMaxPlayer.lines.
  rewrite (mapM_Return (fun y => getitem board y y) (fun y => item board y y)).
  2:{ intros y Hy. apply in_seq in Hy. unfold getitem.
      destruct (Nat.ltb_spec y (shape1 board)); [reflexivity | lia]. }
  cbn [mbind outcome_bind].
  rewrite (mapM_Return (fun y => getitem_neg board y y)
             (fun y => item board y (shape1 board - (y + 1))%nat)).
  2:{ intros y Hy. apply in_seq in Hy. unfold getitem_neg.
      destruct (Nat.ltb_spec y (shape1 board)); [reflexivity | lia]. }
  cbn [mbind outcome_bind]. eexists. reflexivity.
Qed.

Section Totality.
Context `{InvestigateGame state action}.
Hypothesis boards_fit :
  forall s : state, (shape0 (get_board s) <= shape1 (get_board s))%nat.

Lemma evaluation_returns (self : Player) (game : state) :
  exists v, MinMaxPlayer.evaluation_function self game = Return v.
Proof.
  unfold MinMaxPlayer.evaluation_function.
  destruct (check_winner game =? _player_id self); [eexists; reflexivity|].
  destruct (check_winner game =? _opponent_player_id self); [eexists; reflexivity|].
  destruct (lines_fit _ (boards_fit game)) as (ls & ->). cbn [mbind outcome_bind].
  destruct (fold_left _ ls (0, 0)). eexists. reflexivity.
Qed.

Lemma max_loop_returns (call : state -> Z -> Player -> outcome (score * Player)) :
  (forall s k q, exists v q', call s k q = Return (v, q')) ->
  forall (ts : list (action * state * Z)) value key q,
    exists r, MinMaxPlayer.max_loop call ts value key q = Return r.
Proof.
  intros Hcall. induction ts as [|[[a s] k] ts IH]; intros value key q; simpl.
  - eexists. reflexivity.
  - destruct (Hcall s k q) as (v & q' & ->). simpl. apply IH.
Qed.

Lemma min_loop_returns (call : state -> Z -> Player -> outcome (score * Player)) :
  (forall s k q, exists v q', call s k q = Return (v, q')) ->
  forall (ts : list (action * state * Z)) value key q,
    exists r, MinMaxPlayer.min_loop call ts value key q = Return r.
Proof.
  intros Hcall. induction ts as [|[[a s] k] ts IH]; intros value key q; simpl.
  - eexists. reflexivity.
  - destruct (Hcall s k q) as (v & q' & ->). simpl. apply IH.
Qed.

Lemma minmax_returns (fuel : nat) :
  forall depth, (Z.to_nat depth < fuel)%nat ->
  forall s k q,
    (exists v q', MinMaxPlayer.max_value fuel s k depth q = Return (v, q'))
    /\ (exists v q', MinMaxPlayer.min_value fuel s k depth q = Return (v, q')).
Proof.
  induction fuel as [|fuel IH]; intros depth Hfuel s k q; [lia|].
  split; cbn [MinMaxPlayer.max_value MinMaxPlayer.min_value].
  - destruct (cached _ k depth); [eexists; eexists; reflexivity|].
    destruct (Z.leb_spec depth 0) as [Hd|Hd]; cbn [orb].
    + destruct (evaluation_returns q s) as (v & Hv). rewrite Hv. cbn [mbind outcome_bind].
      change (MinMaxPlayer.evaluation_function
                (set_visited_max q k (EntryMinMax.mk 0 v)) s)
        with (MinMaxPlayer.evaluation_function q s).
      rewrite Hv. eexists. eexists. reflexivity.
    + destruct (negb (check_winner s =? -1)).
      * destruct (evaluation_returns q s) as (v & Hv). rewrite Hv. cbn [mbind outcome_bind].
        change (MinMaxPlayer.evaluation_function
                  (set_visited_max q k (EntryMinMax.mk 0 v)) s)
          with (MinMaxPlayer.evaluation_function q s).
        rewrite Hv. eexists. eexists. reflexivity.
      * destruct (max_loop_returns
                    (fun s k q => MinMaxPlayer.min_value fuel s k (depth - 1) q)
                    (fun s k q => proj2 (IH (depth - 1) ltac:(lia) s k q))
                    (MinMaxPlayer.transitions_of q s (_player_id q)) NegInf k q)
          as ([[v k'] q'] & ->).
        eexists. eexists. reflexivity.
  - destruct (cached _ k depth); [eexists; eexists; reflexivity|].
    destruct (Z.leb_spec depth 0) as [Hd|Hd]; cbn [orb].
    + destruct (evaluation_returns q s) as (v & ->). eexists. eexists. reflexivity.
    + destruct (negb (check_winner s =? -1)).
      * destruct (evaluation_returns q s) as (v & ->). eexists. eexists. reflexivity.
      * destruct (min_loop_returns
                    (fun s k q => MinMaxPlayer.max_value fuel s k (depth - 1) q)
                    (fun s k q => proj1 (IH (depth - 1) ltac:(lia) s k q))
                    (MinMaxPlayer.transitions_of q s (_opponent_player_id q)) PosInf k q)
          as ([[v k'] q'] & ->).
        eexists. eexists. reflexivity.
Qed.

Lemma ab_max_loop_returns
    (call : state -> Z -> score -> Player -> outcome (score * Player)) depth beta :
  (forall s k w q, exists v q', call s k w q = Return (v, q')) ->
  forall (ts : list (action * state * Z)) b a key q,
    exists r, AlphaBetaMinMaxPlayer.max_loop call depth beta ts b a key q = Return r.
Proof.
  intros Hcall. induction ts as [|[[c s] k] ts IH]; intros b a key q; simpl.
  - eexists. reflexivity.
  - destruct (Hcall s k a q) as (v & q' & ->). simpl.
    destruct (vlt b v); simpl.
    + destruct (vle beta v); [eexists; reflexivity | apply IH].
    + destruct (vle beta b); [eexists; reflexivity | apply IH].
Qed.

Lemma ab_min_loop_returns
    (call : state -> Z -> score -> Player -> outcome (score * Player)) depth alpha :
  (forall s k w q, exists v q', call s k w q = Return (v, q')) ->
  forall (ts : list (action * state * Z)) b a key q,
    exists r, AlphaBetaMinMaxPlayer.min_loop call depth alpha ts b a key q = Return r.
Proof.
  intros Hcall. induction ts as [|[[c s] k] ts IH]; intros b a key q; simpl.
  - eexists. reflexivity.
  - destruct (Hcall s k a q) as (v & q' & ->). simpl.
    destruct (vlt v b); simpl.
    + destruct (vle v alpha); [eexists; reflexivity | apply IH].
    + destruct (vle b alpha); [eexists; reflexivity | apply IH].
Qed.

Lemma alphabeta_returns (fuel : nat) :
  forall depth, (Z.to_nat depth < fuel)%nat ->
  forall s k alpha beta q,
    (exists v q', AlphaBetaMinMaxPlayer.max_value fuel s k depth alpha beta q = Return (v, q'))
    /\ (exists v q', AlphaBetaMinMaxPlayer.min_value fuel s k depth alpha beta q
                     = Return (v, q')).
Proof.
  induction fuel as [|fuel IH]; intros depth Hfuel s k alpha beta q; [lia|].
  split; cbn [AlphaBetaMinMaxPlayer.max_value AlphaBetaMinMaxPlayer.min_value].
  - destruct (cached _ k depth); [eexists; eexists; reflexivity|].
    destruct (Z.leb_spec depth 0) as [Hd|Hd]; cbn [orb].
    + destruct (evaluation_returns q s) as (v & ->). eexists. eexists. reflexivity.
    + destruct (negb (check_winner s =? -1)).
      * destruct (evaluation_returns q s) as (v & ->). eexists. eexists. reflexivity.
      * destruct (ab_max_loop_returns
                    (fun s k a q => AlphaBetaMinMaxPlayer.min_value fuel s k (depth - 1) a beta q)
                    depth beta
                    (fun s k a q => proj2 (IH (depth - 1) ltac:(lia) s k a beta q))
                    (MinMaxPlayer.transitions_of q s (_player_id q)) NegInf alpha k q)
          as ([v q'] & ->).
        eexists. eexists. reflexivity.
  - destruct (cached _ k depth); [eexists; eexists; reflexivity|].
    destruct (Z.leb_spec depth 0) as [Hd|Hd]; cbn [orb].
    + destruct (evaluation_returns q s) as (v & ->). eexists. eexists. reflexivity.
    + destruct (negb (check_winner s =? -1)).
      * destruct (evaluation_returns q s) as (v & ->). eexists. eexists. reflexivity.
      * destruct (ab_min_loop_returns
                    (fun s k b q => AlphaBetaMinMaxPlayer.max_value fuel s k (depth - 1) alpha b q)
                    depth alpha
                    (fun s k b q => proj1 (IH (depth - 1) ltac:(lia) s k alpha b q))
                    (MinMaxPlayer.transitions_of q s (_opponent_player_id q)) PosInf beta k q)
          as ([v q'] & ->).
        eexists. eexists. reflexivity.
Qed.




End Totality.


(** ** The state-value table *)

Section Table.
Context {K F : Type} `{Countable K} `{FloatOps F}.

Lemma getitem_value (table : gmap K F) (key : K) :
  fst (MissNoAddDict.getitem table key) = default (of_int 0) (table !! key).
Proof. unfold MissNoAddDict.getitem. destruct (table !! key); reflexivity. Qed.

Lemma getitem_lookup (table : gmap K F) (key k : K) :
  snd (MissNoAddDict.getitem table key) !! k
  = if decide (k = key) then Some (default (of_int 0) (table !! key)) else table !! k.
Proof.
  unfold MissNoAddDict.getitem. destruct (table !! key) eqn:E; simpl.
  - case_decide; [subst; exact E | reflexivity].
  - case_decide; [subst; apply lookup_insert_eq | apply lookup_insert_ne; congruence].
Qed.

Lemma getitem_keeps (table : gmap K F) (key k : K) :
  MissNoAddDict.contains table k = true ->
  MissNoAddDict.contains (snd (MissNoAddDict.getitem table key)) k = true.
Proof.
  unfold MissNoAddDict.contains. rewrite !bool_decide_eq_true, getitem_lookup.
  intros Hk. case_decide; [eexists; reflexivity | exact Hk].
Qed.

Lemma getitem_adds (table : gmap K F) (key : K) :
  MissNoAddDict.contains (snd (MissNoAddDict.getitem table key)) key = true.
Proof.
  unfold MissNoAddDict.contains. rewrite bool_decide_eq_true, getitem_lookup.
  rewrite decide_True by reflexivity. eexists. reflexivity.
Qed.

Lemma update_lookup (self : MonteCarloRLPlayer.t K F) (key k : K) (g : F) :
  MonteCarloRLPlayer._state_values (MonteCarloRLPlayer._update_state_values self key g) !! k
  = if decide (k = key)
    then Some (Spec.toward (MonteCarloRLPlayer._alpha self)
                 (default (of_int 0) (MonteCarloRLPlayer._state_values self !! key)) g)
    else MonteCarloRLPlayer._state_values self !! k.
Proof.
  unfold MonteCarloRLPlayer._update_state_values.
  pose proof (getitem_value (MonteCarloRLPlayer._state_values self) key) as Hv1.
  pose proof (getitem_lookup (MonteCarloRLPlayer._state_values self) key) as Hl1.
  destruct (MissNoAddDict.getitem (MonteCarloRLPlayer._state_values self) key)
    as [v1 table1]. simpl in Hv1, Hl1.
  pose proof (getitem_value table1 key) as Hv2.
  pose proof (getitem_lookup table1 key) as Hl2.
  destruct (MissNoAddDict.getitem table1 key) as [v2 table2]. simpl in Hv2, Hl2.
  simpl. case_decide as Hk.
  - subst k. rewrite lookup_insert_eq. unfold Spec.toward. do 3 f_equal.
    + exact Hv1.
    + rewrite Hv2, Hl1, decide_True by reflexivity. reflexivity.
  - rewrite lookup_insert_ne by congruence.
    rewrite Hl2, decide_False by exact Hk. rewrite Hl1, decide_False by exact Hk.
    reflexivity.
Qed.

Lemma update_is_set (self : MonteCarloRLPlayer.t K F) (key : K) (g : F) :
  exists table,
    MonteCarloRLPlayer._update_state_values self key g
    = MonteCarloRLPlayer.set_state_values self table.
Proof.
  unfold MonteCarloRLPlayer._update_state_values.
  destruct (MissNoAddDict.getitem (MonteCarloRLPlayer._state_values self) key)
    as [v1 table1].
  destruct (MissNoAddDict.getitem table1 key) as [v2 table2].
  eexists. reflexivity.
Qed.

End Table.

Section Greedy.
Context {K F : Type} `{Countable K} `{FloatOps F}.

Lemma max_by_value_spec {A : Type} (key_of : A -> K) (l : list A)
    (best : A) (best_v : F) (table : gmap K F) :
  let r := MonteCarloRLPlayer.max_by_value key_of l best best_v table in
  (fst r = best \/ In (fst r) l)
  /\ (forall k, MissNoAddDict.contains table k = true ->
                MissNoAddDict.contains (snd r) k = true)
  /\ (forall x, In x l -> MissNoAddDict.contains (snd r) (key_of x) = true).
Proof.
  revert best best_v table. induction l as [|x l IH]; intros best best_v table; cbn zeta.
  - simpl. split; [left; reflexivity | split; [auto | intros x []]].
  - cbn [MonteCarloRLPlayer.max_by_value].
    pose proof (getitem_keeps table (key_of x)) as Hkeep.
    pose proof (getitem_adds table (key_of x)) as Hadd.
    destruct (MissNoAddDict.getitem table (key_of x)) as [v table1].
    cbn [snd] in Hkeep, Hadd.
    destruct (fltb best_v v).
    + destruct (IH x v table1) as (Hin & Hmono & Hall).
      split; [|split].
      * right. destruct Hin as [->|Hin]; [left; reflexivity | right; exact Hin].
      * intros k Hk. apply Hmono, Hkeep, Hk.
      * intros y [<-|Hy]; [apply Hmono, Hadd | apply Hall, Hy].
    + destruct (IH best best_v table1) as (Hin & Hmono & Hall).
      split; [|split].
      * destruct Hin as [->|Hin]; [left; reflexivity | right; right; exact Hin].
      * intros k Hk. apply Hmono, Hkeep, Hk.
      * intros y [<-|Hy]; [apply Hmono, Hadd | apply Hall, Hy].
Qed.

Lemma argmax_value_spec {A : Type} (key_of : A -> K) (l : list A) (table : gmap K F) :
  match l with
  | [] => MonteCarloRLPlayer.argmax_value key_of l table = Raise ValueError
  | _ :: _ =>
      exists r table',
        MonteCarloRLPlayer.argmax_value key_of l table = Return (r, table')
        /\ In r l
        /\ (forall k, MissNoAddDict.contains table k = true ->
                      MissNoAddDict.contains table' k = true)
        /\ (forall x, In x l -> MissNoAddDict.contains table' (key_of x) = true)
  end.
Proof.
  destruct l as [|x l]; [reflexivity|].
  cbn [MonteCarloRLPlayer.argmax_value].
  pose proof (getitem_keeps table (key_of x)) as Hkeep.
  pose proof (getitem_adds table (key_of x)) as Hadd.
  destruct (MissNoAddDict.getitem table (key_of x)) as [v table1].
  cbn [snd] in Hkeep, Hadd.
  pose proof (max_by_value_spec key_of l x v table1) as Hspec. cbn zeta in Hspec.
  destruct (MonteCarloRLPlayer.max_by_value key_of l x v table1) as [r table'].
  cbn [fst snd] in Hspec. destruct Hspec as (Hin & Hmono & Hall).
  exists r, table'. split; [reflexivity | split; [|split]].
  - destruct Hin as [->|Hin]; [left; reflexivity | right; exact Hin].
  - intros k Hk. apply Hmono, Hkeep, Hk.
  - intros y [<-|Hy]; [apply Hmono, Hadd | apply Hall, Hy].
Qed.
End Greedy.

Section Moves.
Context {state action K F rng : Type}.
Context `{Countable K} `{KeyOrder K} `{FloatOps F} `{Random F rng}.
Context `{InvestigateGameMC state action K}.

Lemma choice_spec {A : Type} (g : rng) (l : list A) :
  match l with
  | [] => choice g l = Raise IndexError
  | _ :: _ => exists x g', choice g l = Return (x, g') /\ In x l
  end.
Proof.
  destruct l as [|x l]; [reflexivity|]. unfold choice.
  destruct (randbelow g (length (x :: l))) as [i g'].
  eexists. eexists. split; [reflexivity|].
  apply nth_In. apply Nat.mod_upper_bound. simpl. lia.
Qed.


Lemma canonical_key_returns (s : state) (player_id : Z) :
  get_transformed_states s <> [] ->
  MonteCarloRLPlayer.canonical_key s player_id = Return (canon player_id s).
Proof.
  intros Hne. unfold canon, MonteCarloRLPlayer.canonical_key, min_key.
  destruct (get_transformed_states s) as [|t ts]; [contradiction | reflexivity].
Qed.

Hypothesis classes_inhabited : forall s : state, get_transformed_states s <> [].

Lemma canonical_transitions_pairs (player_id : Z) (ts : list (action * state)) :
  mapM (fun '(a, state') =>
          k ← MonteCarloRLPlayer.canonical_key state' player_id; Return (a, k)) ts
  = Return (map (fun t => (fst t, canon player_id (snd t))) ts).
Proof.
  apply mapM_Return. intros [a s] _. cbn [fst snd].
  rewrite canonical_key_returns by apply classes_inhabited. reflexivity.
Qed.

Lemma canonical_transitions_triples (player_id : Z) (ts : list (action * state)) :
  mapM (fun '(a, state') =>
          k ← MonteCarloRLPlayer.canonical_key state' player_id; Return (a, state', k)) ts
  = Return (map (fun t => (fst t, snd t, canon player_id (snd t))) ts).
Proof.
  apply mapM_Return. intros [a s] _. cbn [fst snd].
  rewrite canonical_key_returns by apply classes_inhabited. reflexivity.
Qed.

Lemma mc_make_move_spec (self : MonteCarloRLPlayer.t K F) (g : rng) (game : state) :
  let ts := generate_possible_transitions_pairs game (get_current_player game) in
  match ts with
  | [] => MonteCarloRLPlayer.make_move self g game = Raise IndexError
  | _ :: _ =>
      exists a self' g',
        MonteCarloRLPlayer.make_move self g game = Return (a, self', g')
        /\ In a (map fst ts)
  end.
Proof.
  cbn zeta. unfold MonteCarloRLPlayer.make_move.
  rewrite canonical_transitions_pairs. cbn [mbind outcome_bind].
  destruct (generate_possible_transitions_pairs game (get_current_player game))
    as [|t ts] eqn:Ets; [reflexivity|].
  destruct (existsb _ _).
  - pose proof (argmax_value_spec (fun t : action * K => snd t)
                  (map (fun t => (fst t, canon (get_current_player game) (snd t))) (t :: ts))
                  (MonteCarloRLPlayer._state_values self)) as Harg.
    cbn [map] in Harg. destruct Harg as (r & table' & Hrun & Hin & _).
    cbn [map]. rewrite Hrun. cbn [mbind outcome_bind].
    eexists. eexists. eexists. split; [reflexivity|].
    change (In r (map (fun t => (fst t, canon (get_current_player game) (snd t)))
                   (t :: ts))) in Hin.
    apply in_map_iff in Hin as (t1 & <- & Hin).
    change (In (fst t1) (map fst (t :: ts))).
    apply (in_map fst). exact Hin.
  - pose proof (choice_spec g (t :: ts)) as (x & g' & Hrun & Hin).
    rewrite Hrun. cbn [mbind outcome_bind].
    eexists. eexists. eexists. split; [reflexivity|].
    apply in_map. exact Hin.
Qed.

Lemma mc_make_move_greedy (self : MonteCarloRLPlayer.t K F) (g : rng) (game : state)
    (t0 : action * state) :
  let pid := get_current_player game in
  In t0 (generate_possible_transitions_pairs game pid) ->
  MissNoAddDict.contains (MonteCarloRLPlayer._state_values self) (canon pid (snd t0)) = true ->
  exists t table',
    MonteCarloRLPlayer.argmax_value (fun t : action * K => snd t)
      (map (fun t => (fst t, canon pid (snd t)))
           (generate_possible_transitions_pairs game pid))
      (MonteCarloRLPlayer._state_values self) = Return (t, table')
    /\ MonteCarloRLPlayer.make_move self g game
       = Return (fst t, MonteCarloRLPlayer.set_state_values self table', g).
Proof.
  cbn zeta. intros Hin Hknown. unfold MonteCarloRLPlayer.make_move.
  rewrite canonical_transitions_pairs. cbn [mbind outcome_bind].
  set (pid := get_current_player game) in *.
  set (cts := map (fun t => (fst t, canon pid (snd t)))
                  (generate_possible_transitions_pairs game pid)).
  assert (Hex : existsb (fun t : action * K =>
                  MissNoAddDict.contains (MonteCarloRLPlayer._state_values self) (snd t))
                  cts = true).
  { apply existsb_exists. exists (fst t0, canon pid (snd t0)).
    split; [|exact Hknown]. unfold cts.
    apply (in_map (fun t => (fst t, canon pid (snd t)))) in Hin. exact Hin. }
  rewrite Hex.
  pose proof (argmax_value_spec (fun t : action * K => snd t) cts
                (MonteCarloRLPlayer._state_values self)) as Harg.
  destruct cts as [|c cts'] eqn:Ects; [discriminate|].
  destruct Harg as (r & table' & Hrun & _).
  exists r, table'. split; [exact Hrun|]. rewrite Hrun. reflexivity.
Qed.

Lemma step_training_greedy (self : MonteCarloRLPlayer.t K F) (g : rng) (game : state)
    (player_id : Z) :
  fltb (fst (random g)) (MonteCarloRLPlayer._exploration_rate self) = false ->
  generate_possible_transitions_pairs game player_id <> [] ->
  exists a s k table',
    MonteCarloRLPlayer._step_training self g game player_id
    = Return (a, s, k, MonteCarloRLPlayer.set_state_values self table', snd (random g))
    /\ In (a, s) (generate_possible_transitions_pairs game player_id)
    /\ k = canon player_id s
    /\ (forall t, In t (generate_possible_transitions_pairs game player_id) ->
                  MissNoAddDict.contains table' (canon player_id (snd t)) = true)
    /\ (forall k', MissNoAddDict.contains (MonteCarloRLPlayer._state_values self) k' = true ->
                   MissNoAddDict.contains table' k' = true).
Proof.
  intros Hu Hne. unfold MonteCarloRLPlayer._step_training.
  rewrite canonical_transitions_triples. cbn [mbind outcome_bind].
  destruct (random g) as [u g1]. cbn [fst snd] in *. rewrite Hu.
  set (ts := generate_possible_transitions_pairs game player_id) in *.
  pose proof (argmax_value_spec (fun t : action * state * K => snd t)
                (map (fun t => (fst t, snd t, canon player_id (snd t))) ts)
                (MonteCarloRLPlayer._state_values self)) as Harg.
  destruct ts as [|t ts'] eqn:Ets; [contradiction|].
  cbn [map] in Harg. destruct Harg as (r & table' & Hrun & Hin & Hmono & Hall).
  cbn [map]. rewrite Hrun. cbn [mbind outcome_bind].
  change (In r (map (fun t => (fst t, snd t, canon player_id (snd t))) (t :: ts'))) in Hin.
  apply in_map_iff in Hin as ([a s] & <- & Hin). cbn [fst snd].
  exists a, s, (canon player_id s), table'.
  split; [reflexivity | split; [exact Hin | split; [reflexivity | split; [|exact Hmono]]]].
  intros t1 Ht1.
  apply (Hall (fst t1, snd t1, canon player_id (snd t1))).
  change (In (fst t1, snd t1, canon player_id (snd t1))
            (map (fun t => (fst t, snd t, canon player_id (snd t))) (t :: ts'))).
  apply (in_map (fun t => (fst t, snd t, canon player_id (snd t)))). exact Ht1.
Qed.
End Moves.


(** ** The episode loop *)

Section Episode.
Context {state action K F rng : Type}.
Context `{Countable K} `{KeyOrder K} `{FloatOps F} `{Random F rng}.
Context `{EqDecision action}.
Context `{InvestigateGame state action} `{InvestigateGameMC state action K}.
Context (random_player_make_move : rng -> state -> outcome (action * rng)).

Lemma turn_of_learner (fuel : nat) (players : seat * seat)
    (l : MonteCarloRLPlayer.locals) (w : MonteCarloRLPlayer.world)
    (a : action) (game' : state) (key : K) (self' : MonteCarloRLPlayer.t K F) (g' : rng) :
  (if (MonteCarloRLPlayer.player_idx l + 1) mod 2 =? 0
   then fst players else snd players) = Self ->
  MonteCarloRLPlayer._step_training (MonteCarloRLPlayer.learner w)
    (MonteCarloRLPlayer.gen w) (MonteCarloRLPlayer.game l)
    ((MonteCarloRLPlayer.player_idx l + 1) mod 2)
  = Return (a, game', key, self', g') ->
  MonteCarloRLPlayer.turn random_player_make_move fuel players l w
  = Return
      ({| MonteCarloRLPlayer.game := game';
          MonteCarloRLPlayer.trajectory := MonteCarloRLPlayer.trajectory l ++ [(key, 0)];
          MonteCarloRLPlayer.winner := check_winner game';
          MonteCarloRLPlayer.player_idx := (MonteCarloRLPlayer.player_idx l + 1) mod 2;
          MonteCarloRLPlayer.player := Some Self;
          MonteCarloRLPlayer.canonical_state_repr_index := Some key;
          MonteCarloRLPlayer.last_action :=
            if bool_decide (MonteCarloRLPlayer.last_action l = Some a)
            then MonteCarloRLPlayer.last_action l else Some a;
          MonteCarloRLPlayer.counter :=
            if bool_decide (MonteCarloRLPlayer.last_action l = Some a)
            then MonteCarloRLPlayer.counter l + 1 else 0 |},
       {| MonteCarloRLPlayer.learner := self';
          MonteCarloRLPlayer.gen := g';
          MonteCarloRLPlayer.minmax_first := MonteCarloRLPlayer.minmax_first w;
          MonteCarloRLPlayer.minmax_second := MonteCarloRLPlayer.minmax_second w |}).
Proof.
  intros Hseat Hstep. unfold MonteCarloRLPlayer.turn. rewrite Hseat.
  rewrite bool_decide_eq_true_2 by reflexivity. rewrite Hstep.
  cbn [mbind outcome_bind].
  destruct (bool_decide (MonteCarloRLPlayer.last_action l = Some a)); reflexivity.
Qed.

Lemma turn_of_opponent (fuel : nat) (players : seat * seat)
    (l : MonteCarloRLPlayer.locals) (w : MonteCarloRLPlayer.world)
    (who : seat) (game' : state) (w' : MonteCarloRLPlayer.world) :
  (if (MonteCarloRLPlayer.player_idx l + 1) mod 2 =? 0
   then fst players else snd players) = who ->
  who <> Self ->
  MonteCarloRLPlayer.opponent_turn random_player_make_move fuel who
    ((MonteCarloRLPlayer.player_idx l + 1) mod 2) (MonteCarloRLPlayer.game l) w
  = Return (game', w') ->
  MonteCarloRLPlayer.turn random_player_make_move fuel players l w
  = Return
      ({| MonteCarloRLPlayer.game := game';
          MonteCarloRLPlayer.trajectory := MonteCarloRLPlayer.trajectory l;
          MonteCarloRLPlayer.winner := check_winner game';
          MonteCarloRLPlayer.player_idx := (MonteCarloRLPlayer.player_idx l + 1) mod 2;
          MonteCarloRLPlayer.player := Some who;
          MonteCarloRLPlayer.canonical_state_repr_index :=
            MonteCarloRLPlayer.canonical_state_repr_index l;
          MonteCarloRLPlayer.last_action := MonteCarloRLPlayer.last_action l;
          MonteCarloRLPlayer.counter := MonteCarloRLPlayer.counter l |}, w').
Proof.
  intros Hseat Hwho Hturn. unfold MonteCarloRLPlayer.turn. rewrite Hseat.
  rewrite bool_decide_eq_false_2 by congruence. rewrite Hturn. reflexivity.
Qed.

Lemma play_step (fuel : nat) (players : seat * seat) (max_steps_draw : Z)
    (l l' : MonteCarloRLPlayer.locals) (w w' : MonteCarloRLPlayer.world) :
  MonteCarloRLPlayer.winner l < 0 ->
  MonteCarloRLPlayer.counter l < max_steps_draw ->
  MonteCarloRLPlayer.turn random_player_make_move fuel players l w = Return (l', w') ->
  MonteCarloRLPlayer.play random_player_make_move (S fuel) players max_steps_draw l w
  = MonteCarloRLPlayer.play random_player_make_move fuel players max_steps_draw l' w'.
Proof.
  intros Hw Hc Hturn. cbn [MonteCarloRLPlayer.play].
  destruct (Z.ltb_spec (MonteCarloRLPlayer.winner l) 0); [|lia].
  destruct (Z.ltb_spec (MonteCarloRLPlayer.counter l) max_steps_draw); [|lia].
  cbn [andb]. rewrite Hturn. reflexivity.
Qed.

Lemma play_done (fuel : nat) (players : seat * seat) (max_steps_draw : Z)
    (l : MonteCarloRLPlayer.locals) (w : MonteCarloRLPlayer.world) :
  0 <= MonteCarloRLPlayer.winner l \/ max_steps_draw <= MonteCarloRLPlayer.counter l ->
  MonteCarloRLPlayer.play random_player_make_move fuel players max_steps_draw l w
  = Return (l, w).
Proof.
  intros Hdone.
  assert (Hc : (MonteCarloRLPlayer.winner l <? 0)
               && (MonteCarloRLPlayer.counter l <? max_steps_draw) = false).
  { destruct (Z.ltb_spec (MonteCarloRLPlayer.winner l) 0);
      destruct (Z.ltb_spec (MonteCarloRLPlayer.counter l) max_steps_draw);
      try reflexivity; lia. }
  destruct fuel; cbn [MonteCarloRLPlayer.play]; rewrite Hc; reflexivity.
Qed.
End Episode.

Lemma game_reward_range (player : seat) (winner : Z) :
  MonteCarloRLPlayer._game_reward player winner = -1
  \/ MonteCarloRLPlayer._game_reward player winner = 10
  \/ MonteCarloRLPlayer._game_reward player winner = -10.
Proof.
  unfold MonteCarloRLPlayer._game_reward.
  destruct (winner =? -1); [left; reflexivity|].
  destruct (bool_decide (Self = player)); [right; left | right; right]; reflexivity.
Qed.

Section GiftEpisode.
Context {F rng : Type} `{FloatOps F} `{Random F rng}.

Lemma gift_step_training (self : MonteCarloRLPlayer.t Z F) (g : rng) :
  exists table' g',
    MonteCarloRLPlayer._step_training self g Gift.Middle 1
    = Return (((0, 1), TOP), Gift.Lost, 2,
              MonteCarloRLPlayer.set_state_values self table', g').
Proof.
  unfold MonteCarloRLPlayer._step_training. cbn [generate_possible_transitions_pairs Gift.rules_mc].
  cbn [mapM mbind outcome_bind mret outcome_ret MonteCarloRLPlayer.canonical_key
       get_transformed_states get_hashable_state Gift.rules_mc map min_key fold_left].
  destruct (random g) as [u g1].
  destruct (fltb u (MonteCarloRLPlayer._exploration_rate self)).
  - unfold choice. cbn [length]. destruct (randbelow g1 1) as [i g2].
    rewrite Nat.mod_1_r. cbn [nth mbind outcome_bind].
    exists (MonteCarloRLPlayer._state_values self), g2.
    destruct self; reflexivity.
  - unfold MonteCarloRLPlayer.argmax_value. cbn [snd].
    destruct (MissNoAddDict.getitem (MonteCarloRLPlayer._state_values self) 2) as [v table'].
    cbn [MonteCarloRLPlayer.max_by_value mbind outcome_bind].
    exists table', g1. reflexivity.
Qed.

Lemma gift_play (w : MonteCarloRLPlayer.world (K := Z) (F := F) (rng := rng))
    (max_steps_draw : Z) :
  0 < max_steps_draw ->
  exists table' g',
    MonteCarloRLPlayer.play Gift.random_player_make_move 2 (RandomPlayer, Self)
      max_steps_draw
      {| MonteCarloRLPlayer.game := new_game;
         MonteCarloRLPlayer.trajectory := [];
         MonteCarloRLPlayer.winner := -1;
         MonteCarloRLPlayer.player_idx := 1;
         MonteCarloRLPlayer.player := None;
         MonteCarloRLPlayer.canonical_state_repr_index := None;
         MonteCarloRLPlayer.last_action := None;
         MonteCarloRLPlayer.counter := 0 |} w
    = Return
        ({| MonteCarloRLPlayer.game := Gift.Lost;
            MonteCarloRLPlayer.trajectory := [(2, 0)];
            MonteCarloRLPlayer.winner := 0;
            MonteCarloRLPlayer.player_idx := 1;
            MonteCarloRLPlayer.player := Some Self;
            MonteCarloRLPlayer.canonical_state_repr_index := Some 2;
            MonteCarloRLPlayer.last_action := Some ((0, 1), TOP);
            MonteCarloRLPlayer.counter := 0 |},
         {| MonteCarloRLPlayer.learner :=
              MonteCarloRLPlayer.set_state_values (MonteCarloRLPlayer.learner w) table';
            MonteCarloRLPlayer.gen := g';
            MonteCarloRLPlayer.minmax_first := MonteCarloRLPlayer.minmax_first w;
            MonteCarloRLPlayer.minmax_second := MonteCarloRLPlayer.minmax_second w |}).
Proof.
  intros Hmax. destruct w as [self g m1 m2].
  destruct (gift_step_training self g) as (table' & g' & Hstep).
  exists table', g'.
  erewrite play_step; [| simpl; lia | simpl; lia |].
  2:{ apply (turn_of_opponent _ _ _ _ _ RandomPlayer Gift.Middle);
        [reflexivity | discriminate | reflexivity]. }
  erewrite play_step; [| simpl; lia | simpl; lia |].
  2:{ apply turn_of_learner; [reflexivity | exact Hstep]. }
  rewrite play_done by (left; simpl; lia).
  reflexivity.
Qed.
End GiftEpisode.


(** ** What training leaves untouched *)

Section Settings.
Context {state action K F rng : Type}.
Context `{Countable K} `{KeyOrder K} `{FloatOps F} `{Random F rng}.
Context `{EqDecision action}.
Context `{InvestigateGame state action} `{InvestigateGameMC state action K}.
Context (random_player_make_move : rng -> state -> outcome (action * rng)).

Lemma retabled_refl (a : MonteCarloRLPlayer.t K F) : retabled a a.
Proof. exists (MonteCarloRLPlayer._state_values a). destruct a; reflexivity. Qed.

Lemma retabled_set (a b : MonteCarloRLPlayer.t K F) (table : gmap K F) :
  retabled a b -> retabled a (MonteCarloRLPlayer.set_state_values b table).
Proof. intros (t & ->). exists table. reflexivity. Qed.

Lemma retabled_trans (a b c : MonteCarloRLPlayer.t K F) :
  retabled a b -> retabled b c -> retabled a c.
Proof. intros Hab (t & ->). apply retabled_set, Hab. Qed.

Lemma retabled_update (a : MonteCarloRLPlayer.t K F) (key : K) (g : F) :
  retabled a (MonteCarloRLPlayer._update_state_values a key g).
Proof. destruct (update_is_set a key g) as (t & ->). exists t. reflexivity. Qed.

Lemma retabled_backward (a : MonteCarloRLPlayer.t K F) (trajectory : list (K * Z)) :
  retabled a (MonteCarloRLPlayer.backward a trajectory).
Proof.
  unfold MonteCarloRLPlayer.backward.
  induction trajectory as [|[key reward] trajectory IH].
  - apply retabled_refl.
  - cbn [rev]. rewrite fold_left_app. cbn [fold_left].
    destruct (fold_left MonteCarloRLPlayer.backward_step (rev trajectory) (of_int 0, a))
      as [G a1].
    cbn [snd] in IH. cbn [MonteCarloRLPlayer.backward_step snd].
    eapply retabled_trans; [exact IH | apply retabled_update].
Qed.

Lemma step_training_retabled (self self' : MonteCarloRLPlayer.t K F) (g g' : rng)
    (game game' : state) (player_id : Z) (a : action) (key : K) :
  MonteCarloRLPlayer._step_training self g game player_id
    = Return (a, game', key, self', g') ->
  retabled self self'.
Proof.
  unfold MonteCarloRLPlayer._step_training.
  destruct (mapM _ _) as [cts| |]; try discriminate. cbn [mbind outcome_bind].
  destruct (random g) as [u g1].
  destruct (fltb u (MonteCarloRLPlayer._exploration_rate self)).
  - destruct (choice g1 cts) as [[t g2]| |]; try discriminate. cbn [mbind outcome_bind].
    intros [= _ <- _]. apply retabled_refl.
  - destruct (MonteCarloRLPlayer.argmax_value _ cts _) as [[t table]| |]; try discriminate.
    cbn [mbind outcome_bind]. intros [= _ <- _].
    apply retabled_set, retabled_refl.
Qed.

Lemma make_move_retabled (self self' : MonteCarloRLPlayer.t K F) (g g' : rng)
    (game : state) (a : action) :
  MonteCarloRLPlayer.make_move self g game = Return (a, self', g') ->
  retabled self self'.
Proof.
  unfold MonteCarloRLPlayer.make_move.
  destruct (mapM _ _) as [cts| |]; try discriminate. cbn [mbind outcome_bind].
  destruct (existsb _ cts).
  - destruct (MonteCarloRLPlayer.argmax_value _ cts _) as [[t table]| |]; try discriminate.
    cbn [mbind outcome_bind]. intros [= _ <- _].
    apply retabled_set, retabled_refl.
  - destruct (choice g _) as [[t g2]| |]; try discriminate. cbn [mbind outcome_bind].
    intros [= _ <- _]. apply retabled_refl.
Qed.

Lemma seat_make_move_retabled (who : seat) (w w' : MonteCarloRLPlayer.world)
    (game : state) (a : action) :
  MonteCarloRLPlayer.seat_make_move random_player_make_move who w game = Return (a, w') ->
  retabled (MonteCarloRLPlayer.learner w) (MonteCarloRLPlayer.learner w').
Proof.
  unfold MonteCarloRLPlayer.seat_make_move. destruct who as [| |[|]].
  - destruct (MonteCarloRLPlayer.make_move _ _ _) as [[[a1 s1] g1]| |] eqn:E;
      try discriminate.
    cbn [mbind outcome_bind]. intros [= _ <-]. cbn. eapply make_move_retabled, E.
  - destruct (random_player_make_move _ _) as [[a1 g1]| |]; try discriminate.
    cbn [mbind outcome_bind]. intros [= _ <-]. apply retabled_refl.
  - destruct (MinMaxPlayer.make_move _ _) as [[a1 p1]| |]; try discriminate.
    cbn [mbind outcome_bind]. intros [= _ <-]. apply retabled_refl.
  - destruct (MinMaxPlayer.make_move _ _) as [[a1 p1]| |]; try discriminate.
    cbn [mbind outcome_bind]. intros [= _ <-]. apply retabled_refl.
Qed.

Lemma opponent_turn_retabled (fuel : nat) (who : seat) (idx : Z) :
  forall (game game' : state) (w w' : MonteCarloRLPlayer.world),
    MonteCarloRLPlayer.opponent_turn random_player_make_move fuel who idx game w
      = Return (game', w') ->
    retabled (MonteCarloRLPlayer.learner w) (MonteCarloRLPlayer.learner w').
Proof.
  induction fuel as [|fuel IH]; intros game game' w w' Hrun; [discriminate|].
  cbn [MonteCarloRLPlayer.opponent_turn] in Hrun.
  destruct (MonteCarloRLPlayer.seat_make_move _ who w game) as [[a w1]| |] eqn:E;
    try discriminate.
  cbn [mbind outcome_bind] in Hrun. apply seat_make_move_retabled in E.
  destruct (move game a idx) as [[|] game1].
  - injection Hrun as _ <-. exact E.
  - eapply retabled_trans; [exact E | eapply IH, Hrun].
Qed.

Lemma turn_retabled (fuel : nat) (players : seat * seat)
    (l l' : MonteCarloRLPlayer.locals) (w w' : MonteCarloRLPlayer.world) :
  MonteCarloRLPlayer.turn random_player_make_move fuel players l w = Return (l', w') ->
  retabled (MonteCarloRLPlayer.learner w) (MonteCarloRLPlayer.learner w').
Proof.
  unfold MonteCarloRLPlayer.turn. destruct (bool_decide _).
  - destruct (MonteCarloRLPlayer._step_training _ _ _ _) as [[[[[a g1] k1] s1] r1]| |] eqn:E;
      try discriminate.
    cbn [mbind outcome_bind].
    destruct (bool_decide (MonteCarloRLPlayer.last_action l = Some a));
      intros [= _ <-]; cbn; eapply step_training_retabled, E.
  - destruct (MonteCarloRLPlayer.opponent_turn _ _ _ _ _ _) as [[g1 w1]| |] eqn:E;
      try discriminate.
    cbn [mbind outcome_bind]. intros [= _ <-]. eapply opponent_turn_retabled, E.
Qed.

Lemma play_retabled (fuel : nat) (players : seat * seat) (max_steps_draw : Z) :
  forall (l l' : MonteCarloRLPlayer.locals) (w w' : MonteCarloRLPlayer.world),
    MonteCarloRLPlayer.play random_player_make_move fuel players max_steps_draw l w
      = Return (l', w') ->
    retabled (MonteCarloRLPlayer.learner w) (MonteCarloRLPlayer.learner w').
Proof.
  induction fuel as [|fuel IH]; intros l l' w w' Hrun;
    cbn [MonteCarloRLPlayer.play] in Hrun;
    destruct ((MonteCarloRLPlayer.winner l <? 0)
              && (MonteCarloRLPlayer.counter l <? max_steps_draw));
    try discriminate.
  - injection Hrun as _ <-. apply retabled_refl.
  - destruct (MonteCarloRLPlayer.turn _ fuel players l w) as [[l1 w1]| |] eqn:E;
      try discriminate.
    cbn [mbind outcome_bind] in Hrun.
    eapply retabled_trans; [eapply turn_retabled, E | eapply IH, Hrun].
  - injection Hrun as _ <-. apply retabled_refl.
Qed.

(** While the game is played every entry of the trajectory carries reward 0. *)
Lemma turn_rewards_zero (fuel : nat) (players : seat * seat)
    (l l' : MonteCarloRLPlayer.locals) (w w' : MonteCarloRLPlayer.world) :
  MonteCarloRLPlayer.turn random_player_make_move fuel players l w = Return (l', w') ->
  Forall (fun e => snd e = 0) (MonteCarloRLPlayer.trajectory l) ->
  Forall (fun e => snd e = 0) (MonteCarloRLPlayer.trajectory l').
Proof.
  unfold MonteCarloRLPlayer.turn. destruct (bool_decide _).
  - destruct (MonteCarloRLPlayer._step_training _ _ _ _) as [[[[[a g1] k1] s1] r1]| |];
      try discriminate.
    cbn [mbind outcome_bind].
    destruct (bool_decide (MonteCarloRLPlayer.last_action l = Some a));
      intros [= <- _] Hzero; cbn [MonteCarloRLPlayer.trajectory];
      (apply Forall_app; split; [exact Hzero | repeat constructor]).
  - destruct (MonteCarloRLPlayer.opponent_turn _ _ _ _ _ _) as [[g1 w1]| |];
      try discriminate.
    cbn [mbind outcome_bind]. intros [= <- _] Hzero. exact Hzero.
Qed.

Lemma play_rewards_zero (fuel : nat) (players : seat * seat) (max_steps_draw : Z) :
  forall (l l' : MonteCarloRLPlayer.locals) (w w' : MonteCarloRLPlayer.world),
    MonteCarloRLPlayer.play random_player_make_move fuel players max_steps_draw l w
      = Return (l', w') ->
    Forall (fun e => snd e = 0) (MonteCarloRLPlayer.trajectory l) ->
    Forall (fun e => snd e = 0) (MonteCarloRLPlayer.trajectory l').
Proof.
  induction fuel as [|fuel IH]; intros l l' w w' Hrun Hzero;
    cbn [MonteCarloRLPlayer.play] in Hrun;
    destruct ((MonteCarloRLPlayer.winner l <? 0)
              && (MonteCarloRLPlayer.counter l <? max_steps_draw));
    try discriminate.
  - injection Hrun as <- _. exact Hzero.
  - destruct (MonteCarloRLPlayer.turn _ fuel players l w) as [[l1 w1]| |] eqn:E;
      try discriminate.
    cbn [mbind outcome_bind] in Hrun.
    eapply IH; [exact Hrun | eapply turn_rewards_zero; [exact E | exact Hzero]].
  - injection Hrun as <- _. exact Hzero.
Qed.

(** What [settle] returns: the rate is set, the last entry of the
    trajectory takes the reward of the game, the reward joins the history and
    the returns are backed up. *)
Lemma settle_returns (episode : Z) (l : MonteCarloRLPlayer.locals (state := state) (action := action))
    (self self' : MonteCarloRLPlayer.t K F) :
  MonteCarloRLPlayer.settle episode l self = Return self' ->
  exists who key,
    MonteCarloRLPlayer.player l = Some who
    /\ MonteCarloRLPlayer.canonical_state_repr_index l = Some key
    /\ MonteCarloRLPlayer.trajectory l <> []
    /\ self'
       = MonteCarloRLPlayer.backward
           (MonteCarloRLPlayer.append_reward
              (MonteCarloRLPlayer.set_exploration_rate self
                 (np_clip
                    (fexp (fmul (fneg (MonteCarloRLPlayer._exploration_decay_rate self))
                                (of_int episode)))
                    (MonteCarloRLPlayer._min_exploration_rate self) (of_int 1)))
              (MonteCarloRLPlayer._game_reward who (MonteCarloRLPlayer.winner l)))
           (removelast (MonteCarloRLPlayer.trajectory l)
              ++ [(key, MonteCarloRLPlayer._game_reward who (MonteCarloRLPlayer.winner l))]).
Proof.
  unfold MonteCarloRLPlayer.settle.
  destruct (MonteCarloRLPlayer.trajectory l) as [|e t] eqn:Et; [discriminate|].
  destruct (MonteCarloRLPlayer.player l) as [who|]; [|discriminate].
  destruct (MonteCarloRLPlayer.canonical_state_repr_index l) as [key|]; [|discriminate].
  intros [= <-]. exists who, key. repeat split; try reflexivity. discriminate.
Qed.
End Settings.

(** ** Return back-propagation *)


(** ** Rewards *)

Section GiftRewards.
Context {F rng : Type} `{FloatOps F} `{Random F rng}.

Lemma rewards_backward (self : MonteCarloRLPlayer.t Z F) (trajectory : list (Z * Z)) :
  MonteCarloRLPlayer._rewards (MonteCarloRLPlayer.backward self trajectory)
  = MonteCarloRLPlayer._rewards self.
Proof. destruct (retabled_backward self trajectory) as (t & ->). reflexivity. Qed.

Lemma gift_episode_body (w : MonteCarloRLPlayer.world (K := Z) (F := F) (rng := rng))
    (max_steps_draw : Z) :
  0 < max_steps_draw ->
  MonteCarloRLPlayer._minmax (MonteCarloRLPlayer.learner w) = false ->
  exists seats' w',
    MonteCarloRLPlayer.episode_body Gift.random_player_make_move 2 max_steps_draw 0
      ((RandomPlayer, Self), (Self, RandomPlayer)) w = Return (seats', w')
    /\ MonteCarloRLPlayer._rewards (MonteCarloRLPlayer.learner w')
       = MonteCarloRLPlayer._rewards (MonteCarloRLPlayer.learner w) ++ [10].
Proof.
  intros Hmax Hmm. unfold MonteCarloRLPlayer.episode_body. rewrite Hmm. cbn [andb fst snd].
  destruct (gift_play w max_steps_draw Hmax) as (table' & g' & ->).
  cbn [mbind outcome_bind MonteCarloRLPlayer.learner].
  unfold MonteCarloRLPlayer.settle.
  cbn [MonteCarloRLPlayer.trajectory MonteCarloRLPlayer.player
       MonteCarloRLPlayer.canonical_state_repr_index MonteCarloRLPlayer.winner
       removelast app mbind outcome_bind].
  eexists. eexists. split; [reflexivity|].
  cbn [MonteCarloRLPlayer.learner]. rewrite rewards_backward. reflexivity.
Qed.
End GiftRewards.

(** C7 (the code departs from it). In the gift game the learner sits at
    index 1; the opponent opens, the learner's only move ends the game, and
    the rules engine reports player 0, the opponent, as the winner. The
    episode records 0 on the learner's step, and then overwrites it with
    [_game_reward(player, winner)], where [player] is whoever moved last: the
    learner, so the reward recorded for the lost game is +10. *)
Theorem last_mover_takes_the_winner_reward {F rng : Type} `{FloatOps F} `{Random F rng}
    (n_episodes : Z) (gamma alpha floor decay ratio : F) (depth : Z) (symmetries : bool)
    (g : rng) (first second : Player) :
  let self : MonteCarloRLPlayer.t Z F :=
    MonteCarloRLPlayer.init n_episodes gamma alpha floor decay false ratio depth symmetries in
  let w := {| MonteCarloRLPlayer.learner := self; MonteCarloRLPlayer.gen := g;
              MonteCarloRLPlayer.minmax_first := first;
              MonteCarloRLPlayer.minmax_second := second |} in
  let start :=
    {| MonteCarloRLPlayer.game := new_game; MonteCarloRLPlayer.trajectory := [];
       MonteCarloRLPlayer.winner := -1; MonteCarloRLPlayer.player_idx := 1;
       MonteCarloRLPlayer.player := None;
       MonteCarloRLPlayer.canonical_state_repr_index := None;
       MonteCarloRLPlayer.last_action := None; MonteCarloRLPlayer.counter := 0 |} in
  (exists l w',
      MonteCarloRLPlayer.play Gift.random_player_make_move 2 (RandomPlayer, Self) 10 start w
        = Return (l, w')
      /\ MonteCarloRLPlayer.trajectory l = [(2, 0)]
      /\ MonteCarloRLPlayer.player_idx l = 1
      /\ MonteCarloRLPlayer.player l = Some Self
      /\ MonteCarloRLPlayer.winner l = check_winner Gift.Lost
      /\ MonteCarloRLPlayer.winner l = 0
      /\ MonteCarloRLPlayer._game_reward Self (MonteCarloRLPlayer.winner l) = 10)
  /\ (exists seats' w',
        MonteCarloRLPlayer.episode_body Gift.random_player_make_move 2 10 0
          ((RandomPlayer, Self), (Self, RandomPlayer)) w = Return (seats', w')
        /\ MonteCarloRLPlayer._rewards (MonteCarloRLPlayer.learner w') = [10]).
Proof.
  intros self w start. split.
  - destruct (gift_play w 10 ltac:(lia)) as (table' & g' & Hplay).
    eexists. eexists. split; [exact Hplay|]. repeat split; reflexivity.
  - destruct (gift_episode_body w 10 ltac:(lia) eq_refl) as (seats' & w' & Hrun & Hrew).
    exists seats', w'. split; [exact Hrun | exact Hrew].
Qed.

(** ** The exploration schedule *)

Section EpisodeLearner.
Context {state action K F rng : Type}.
Context `{Countable K} `{KeyOrder K} `{FloatOps F} `{Random F rng}.
Context `{EqDecision action}.
Context `{InvestigateGame state action} `{InvestigateGameMC state action K}.
Context (random_player_make_move : rng -> state -> outcome (action * rng)).

(** The learner after an episode: the rate of the episode, one more reward,
    another table. *)
Lemma episode_body_learner (fuel : nat) (max_steps_draw episode : Z)
    (player_tuples seats' : MonteCarloRLPlayer.seats) (w w' : MonteCarloRLPlayer.world) :
  MonteCarloRLPlayer.episode_body random_player_make_move fuel max_steps_draw episode
    player_tuples w = Return (seats', w') ->
  exists table who winner,
    MonteCarloRLPlayer.learner w'
    = MonteCarloRLPlayer.set_state_values
        (MonteCarloRLPlayer.append_reward
           (MonteCarloRLPlayer.set_exploration_rate (MonteCarloRLPlayer.learner w)
              (np_clip
                 (fexp (fmul (fneg (MonteCarloRLPlayer._exploration_decay_rate
                                      (MonteCarloRLPlayer.learner w)))
                             (of_int episode)))
                 (MonteCarloRLPlayer._min_exploration_rate (MonteCarloRLPlayer.learner w))
                 (of_int 1)))
           (MonteCarloRLPlayer._game_reward who winner))
        table.
Proof.
  unfold MonteCarloRLPlayer.episode_body.
  destruct (MonteCarloRLPlayer.play _ _ _ _ _ _) as [[l w1]| |] eqn:Eplay; try discriminate.
  cbn [mbind outcome_bind].
  destruct (MonteCarloRLPlayer.settle episode l (MonteCarloRLPlayer.learner w1))
    as [self'| |] eqn:Esettle; try discriminate.
  cbn [mbind outcome_bind]. intros [= _ <-]. cbn [MonteCarloRLPlayer.learner].
  apply play_retabled in Eplay. destruct Eplay as (t1 & Hw1).
  apply settle_returns in Esettle. destruct Esettle as (who & key & _ & _ & _ & ->).
  rewrite Hw1.
  match goal with
  | |- context [MonteCarloRLPlayer.backward ?x ?traj] =>
      destruct (retabled_backward x traj) as (t2 & ->)
  end.
  exists t2, who, (MonteCarloRLPlayer.winner l). reflexivity.
Qed.

(** The run of episodes keeps the decay and the floor, and its last episode
    sets the rate. *)
Lemma episodes_settings (fuel : nat) (max_steps_draw : Z) (indices : list Z) :
  forall (player_tuples seats' : MonteCarloRLPlayer.seats) (w w' : MonteCarloRLPlayer.world),
    MonteCarloRLPlayer.episodes random_player_make_move fuel max_steps_draw indices
      player_tuples w = Return (seats', w') ->
    MonteCarloRLPlayer._exploration_decay_rate (MonteCarloRLPlayer.learner w')
    = MonteCarloRLPlayer._exploration_decay_rate (MonteCarloRLPlayer.learner w)
    /\ MonteCarloRLPlayer._min_exploration_rate (MonteCarloRLPlayer.learner w')
       = MonteCarloRLPlayer._min_exploration_rate (MonteCarloRLPlayer.learner w).
Proof.
  induction indices as [|i indices IH]; intros player_tuples seats' w w' Hrun;
    cbn [MonteCarloRLPlayer.episodes] in Hrun.
  - injection Hrun as _ <-. split; reflexivity.
  - destruct (MonteCarloRLPlayer.episode_body _ _ _ i player_tuples w)
      as [[s1 w1]| |] eqn:E; try discriminate.
    cbn [mbind outcome_bind] in Hrun.
    destruct (IH _ _ _ _ Hrun) as (-> & ->).
    destruct (episode_body_learner _ _ _ _ _ _ _ E) as (table & who & winner & ->).
    split; reflexivity.
Qed.

Lemma episodes_app (fuel : nat) (max_steps_draw : Z) (xs ys : list Z) :
  forall (player_tuples : MonteCarloRLPlayer.seats) (w : MonteCarloRLPlayer.world),
    MonteCarloRLPlayer.episodes random_player_make_move fuel max_steps_draw (xs ++ ys)
      player_tuples w
    = '(player_tuples, w) ←
        MonteCarloRLPlayer.episodes random_player_make_move fuel max_steps_draw xs
          player_tuples w;
      MonteCarloRLPlayer.episodes random_player_make_move fuel max_steps_draw ys
        player_tuples w.
Proof.
  induction xs as [|x xs IH]; intros player_tuples w; [reflexivity|].
  cbn [app MonteCarloRLPlayer.episodes].
  destruct (MonteCarloRLPlayer.episode_body _ _ _ x player_tuples w) as [[s1 w1]| |];
    try reflexivity.
  cbn [mbind outcome_bind]. apply IH.
Qed.

Lemma episodes_last_rate (fuel : nat) (max_steps_draw : Z) (indices : list Z) (i : Z)
    (player_tuples seats' : MonteCarloRLPlayer.seats) (w w' : MonteCarloRLPlayer.world) :
  MonteCarloRLPlayer.episodes random_player_make_move fuel max_steps_draw (indices ++ [i])
    player_tuples w = Return (seats', w') ->
  MonteCarloRLPlayer._exploration_rate (MonteCarloRLPlayer.learner w')
  = np_clip
      (fexp (fmul (fneg (MonteCarloRLPlayer._exploration_decay_rate
                           (MonteCarloRLPlayer.learner w)))
                  (of_int i)))
      (MonteCarloRLPlayer._min_exploration_rate (MonteCarloRLPlayer.learner w))
      (of_int 1).
Proof.
  rewrite episodes_app.
  destruct (MonteCarloRLPlayer.episodes _ _ _ indices player_tuples w)
    as [[s1 w1]| |] eqn:E; try discriminate.
  cbn [mbind outcome_bind MonteCarloRLPlayer.episodes].
  destruct (MonteCarloRLPlayer.episode_body _ _ _ i s1 w1) as [[s2 w2]| |] eqn:E2;
    try discriminate.
  cbn [mbind outcome_bind]. intros [= _ <-].
  destruct (episodes_settings _ _ _ _ _ _ _ E) as (<- & <-).
  destruct (episode_body_learner _ _ _ _ _ _ _ E2) as (table & who & winner & ->).
  reflexivity.
Qed.
End EpisodeLearner.

Lemma schedule_le_1 (decay floor : R) (episode : Z) : (schedule decay floor episode <= 1)%R.
Proof. unfold schedule. apply Rmin_l. Qed.

Lemma schedule_ge_floor (decay floor : R) (episode : Z) :
  (floor <= 1)%R -> (floor <= schedule decay floor episode)%R.
Proof.
  intros Hfloor. unfold schedule. apply Rmin_glb; [exact Hfloor | apply Rmax_r].
Qed.

Lemma schedule_antitone (decay floor : R) (i j : Z) :
  0 <= i <= j -> (schedule decay floor j <= schedule decay floor i)%R.
Proof.
  intros Hij. unfold schedule.
  assert (Hi : (0 <= IZR i)%R) by (apply IZR_le; lia).
  assert (Hle : (IZR i <= IZR j)%R) by (apply IZR_le; lia).
  destruct (Rle_lt_dec 0 decay) as [Hd|Hd].
  - apply Rle_min_compat_l. apply Rle_max_compat_r.
    destruct (Req_dec (- decay * IZR j) (- decay * IZR i)) as [->|Hne]; [apply Rle_refl|].
    left. apply exp_increasing. nra.
  - assert (H1 : forall k, (0 <= IZR k)%R ->
                  Rmin 1 (Rmax (exp (- decay * IZR k)) floor) = 1%R).
    { intros k Hk. apply Rmin_left.
      apply Rle_trans with (exp (- decay * IZR k)); [|apply Rmax_l].
      rewrite <- exp_0.
      destruct (Req_dec 0 (- decay * IZR k)) as [<-|Hne]; [apply Rle_refl|].
      left. apply exp_increasing. nra. }
    rewrite (H1 i Hi), (H1 j ltac:(lra)). apply Rle_refl.
Qed.

(** C8. Over the reals: after the episode of index [i] the exploration rate
    of the learner is [exp(-decay * i)] clamped between the floor and 1, the
    decay and the floor being those the learner had before, and the same
    holds, with the same decay and floor, after every later episode of the
    run; along the indices the clamped value never increases, it never
    exceeds 1, the rate [__init__] sets, and it is not below the floor when
    the floor is at most 1. *)
Theorem exploration_rate_follows_schedule {state action K rng : Type}
    `{Countable K} `{KeyOrder K} `{Random R rng} `{EqDecision action}
    `{InvestigateGame state action} `{InvestigateGameMC state action K}
    (random_player_make_move : rng -> state -> outcome (action * rng))
    (fuel : nat) (max_steps_draw episode : Z)
    (player_tuples seats' : MonteCarloRLPlayer.seats)
    (w w' : MonteCarloRLPlayer.world (K := K) (F := R) (rng := rng)) :
  MonteCarloRLPlayer.episode_body random_player_make_move fuel max_steps_draw episode
    player_tuples w = Return (seats', w') ->
  let decay := MonteCarloRLPlayer._exploration_decay_rate (MonteCarloRLPlayer.learner w) in
  let floor := MonteCarloRLPlayer._min_exploration_rate (MonteCarloRLPlayer.learner w) in
  MonteCarloRLPlayer._exploration_rate (MonteCarloRLPlayer.learner w')
    = schedule decay floor episode
  /\ MonteCarloRLPlayer._exploration_decay_rate (MonteCarloRLPlayer.learner w') = decay
  /\ MonteCarloRLPlayer._min_exploration_rate (MonteCarloRLPlayer.learner w') = floor
  /\ (forall (later : list Z) (i : Z) seats'' w'',
        MonteCarloRLPlayer.episodes random_player_make_move fuel max_steps_draw
          (later ++ [i]) seats' w' = Return (seats'', w'') ->
        MonteCarloRLPlayer._exploration_rate (MonteCarloRLPlayer.learner w'')
        = schedule decay floor i)
  /\ (forall i j, 0 <= i <= j -> (schedule decay floor j <= schedule decay floor i)%R)
  /\ (forall i, (schedule decay floor i
                 <= MonteCarloRLPlayer._exploration_rate
                      (MonteCarloRLPlayer.init (K := K) 0 0%R 0%R floor decay false 0%R 0 false))%R)
  /\ ((floor <= 1)%R -> forall i, (floor <= schedule decay floor i <= 1)%R).
Proof.
  intros Hrun decay floor.
  assert (Hlater : forall (later : list Z) (i : Z) seats'' w'',
            MonteCarloRLPlayer.episodes random_player_make_move fuel max_steps_draw
              (later ++ [i]) seats' w' = Return (seats'', w'') ->
            MonteCarloRLPlayer._exploration_rate (MonteCarloRLPlayer.learner w'')
            = schedule decay floor i).
  { intros later i seats'' w'' Hlater.
    rewrite (episodes_last_rate _ _ _ _ _ _ _ _ _ Hlater).
    destruct (episode_body_learner _ _ _ _ _ _ _ _ Hrun) as (table & who & winner & ->).
    reflexivity. }
  destruct (episode_body_learner _ _ _ _ _ _ _ _ Hrun) as (table & who & winner & Hw').
  rewrite Hw' at 1 2 3.
  cbn. split; [reflexivity | split; [reflexivity | split; [reflexivity|]]].
  split; [exact Hlater|].
  split; [intros i j; apply schedule_antitone|].
  split; [intros i; apply schedule_le_1|].
  intros Hfloor i. split; [apply schedule_ge_floor, Hfloor | apply schedule_le_1].
Qed.

Lemma exploration_rate_follows_schedule_witness :
  exists seats' w',
    MonteCarloRLPlayer.episode_body Gift.random_player_make_move 2 10 0
      ((RandomPlayer, Self), (Self, RandomPlayer))
      {| MonteCarloRLPlayer.learner :=
           MonteCarloRLPlayer.init (K := Z) (F := R) 1 1%R 1%R 0%R 1%R false 1%R 1 false;
         MonteCarloRLPlayer.gen := tt;
         MonteCarloRLPlayer.minmax_first := MinMaxPlayer.init 0 1 false;
         MonteCarloRLPlayer.minmax_second := MinMaxPlayer.init 1 1 false |}
    = Return (seats', w')
    /\ MonteCarloRLPlayer._exploration_rate (MonteCarloRLPlayer.learner w')
       = schedule 1 0 0
    /\ (schedule 1 0 3 <= schedule 1 0 2)%R
    /\ (0 <= schedule 1 0 5 <= 1)%R.
Proof.
  destruct (gift_episode_body
              {| MonteCarloRLPlayer.learner :=
                   MonteCarloRLPlayer.init (K := Z) (F := R) 1 1%R 1%R 0%R 1%R false 1%R 1 false;
                 MonteCarloRLPlayer.gen := tt;
                 MonteCarloRLPlayer.minmax_first := MinMaxPlayer.init 0 1 false;
                 MonteCarloRLPlayer.minmax_second := MinMaxPlayer.init 1 1 false |}
              10 ltac:(lia) eq_refl) as (seats' & w' & Hrun & _).
  exists seats', w'. split; [exact Hrun|].
  destruct (exploration_rate_follows_schedule _ _ _ _ _ _ _ _ Hrun)
    as (Hrate & _ & _ & _ & Hanti & _ & Hin).
  split; [exact Hrate | split].
  - apply Hanti. lia.
  - apply Hin. simpl. lra.
Defined.

(** ** Reads of the state-value table *)

Section Reads.
Context {K F : Type} `{Countable K} `{FloatOps F}.

Lemma update_adds (self : MonteCarloRLPlayer.t K F) (key : K) (g : F) :
  MissNoAddDict.contains
    (MonteCarloRLPlayer._state_values (MonteCarloRLPlayer._update_state_values self key g))
    key = true.
Proof.
  unfold MissNoAddDict.contains. rewrite bool_decide_eq_true, update_lookup.
  rewrite decide_True by reflexivity. eexists. reflexivity.
Qed.

Lemma update_keeps (self : MonteCarloRLPlayer.t K F) (key k : K) (g : F) :
  MissNoAddDict.contains (MonteCarloRLPlayer._state_values self) k = true ->
  MissNoAddDict.contains
    (MonteCarloRLPlayer._state_values (MonteCarloRLPlayer._update_state_values self key g))
    k = true.
Proof.
  unfold MissNoAddDict.contains. rewrite !bool_decide_eq_true, update_lookup.
  intros Hk. case_decide; [eexists; reflexivity | exact Hk].
Qed.
End Reads.

(** C9. With the table read as the specification words it: reading an
    unseen key returns 0 and leaves a zero entry for it, and no read removes
    an entry. So after a greedy [_step_training] every canonical key of the
    transitions it compared is in the table, after [_update_state_values]
    the updated key is, both keep what was there, and a [make_move] that
    finds among its transitions a canonical key of the table takes the
    greedy branch. *)
Theorem read_keys_become_members {state action K F rng : Type}
    `{Countable K} `{KeyOrder K} `{FloatOps F} `{Random F rng}
    `{InvestigateGameMC state action K} :
  (forall (table : gmap K F) (key : K),
      (table !! key = None ->
       MissNoAddDict.getitem table key = (of_int 0, <[key := of_int 0]> table))
      /\ MissNoAddDict.contains (snd (MissNoAddDict.getitem table key)) key = true
      /\ (forall k, MissNoAddDict.contains table k = true ->
                    MissNoAddDict.contains (snd (MissNoAddDict.getitem table key)) k = true))
  /\ (forall (self : MonteCarloRLPlayer.t K F) (key : K) (g : F),
        MissNoAddDict.contains
          (MonteCarloRLPlayer._state_values
             (MonteCarloRLPlayer._update_state_values self key g)) key = true
        /\ (forall k,
              MissNoAddDict.contains (MonteCarloRLPlayer._state_values self) k = true ->
              MissNoAddDict.contains
                (MonteCarloRLPlayer._state_values
                   (MonteCarloRLPlayer._update_state_values self key g)) k = true))
  /\ ((forall s : state, get_transformed_states s <> []) ->
      (forall (self : MonteCarloRLPlayer.t K F) (g : rng) (game : state) (player_id : Z),
          fltb (fst (random g)) (MonteCarloRLPlayer._exploration_rate self) = false ->
          generate_possible_transitions_pairs game player_id <> [] ->
          exists a s k self' g',
            MonteCarloRLPlayer._step_training self g game player_id
              = Return (a, s, k, self', g')
            /\ (forall t, In t (generate_possible_transitions_pairs game player_id) ->
                  MissNoAddDict.contains (MonteCarloRLPlayer._state_values self')
                    (canon player_id (snd t)) = true)
            /\ (forall k', MissNoAddDict.contains (MonteCarloRLPlayer._state_values self) k'
                           = true ->
                           MissNoAddDict.contains (MonteCarloRLPlayer._state_values self') k'
                           = true))
      /\ (forall (self : MonteCarloRLPlayer.t K F) (g : rng) (game : state)
            (t0 : action * state),
            In t0 (generate_possible_transitions_pairs game (get_current_player game)) ->
            MissNoAddDict.contains (MonteCarloRLPlayer._state_values self)
              (canon (get_current_player game) (snd t0)) = true ->
            exists t table',
              MonteCarloRLPlayer.argmax_value (fun t : action * K => snd t)
                (map (fun t => (fst t, canon (get_current_player game) (snd t)))
                     (generate_possible_transitions_pairs game (get_current_player game)))
                (MonteCarloRLPlayer._state_values self) = Return (t, table')
              /\ MonteCarloRLPlayer.make_move self g game
                 = Return (fst t, MonteCarloRLPlayer.set_state_values self table', g))).
Proof.
  split; [|split].
  - intros table key. split; [|split].
    + intros Hnone. unfold MissNoAddDict.getitem. rewrite Hnone. reflexivity.
    + apply getitem_adds.
    + intros k. apply getitem_keeps.
  - intros self key g. split; [apply update_adds | intros k; apply update_keeps].
  - intros Hclasses. split.
    + intros self g game player_id Hu Hne.
      destruct (step_training_greedy Hclasses self g game player_id Hu Hne)
        as (a & s & k & table' & Hrun & _ & _ & Hall & Hmono).
      exists a, s, k, (MonteCarloRLPlayer.set_state_values self table'), (snd (random g)).
      split; [exact Hrun | split; [exact Hall | exact Hmono]].
    + intros self g game t0 Hin Hknown.
      exact (mc_make_move_greedy Hclasses self g game t0 Hin Hknown).
Qed.

Lemma read_keys_become_members_witness :
  MissNoAddDict.getitem (F := R) (∅ : gmap Z R) 2 = (0%R, {[2 := 0%R]})
  /\ exists (t : Action * Z) table',
       MonteCarloRLPlayer.make_move (rng := unit)
         (MonteCarloRLPlayer.set_state_values
            (MonteCarloRLPlayer.init (K := Z) (F := R) 1 1%R 1%R 0%R 1%R false 1%R 1 false)
            {[2 := 0%R]})
         tt Gift.Middle
       = Return (fst t,
                 MonteCarloRLPlayer.set_state_values
                   (MonteCarloRLPlayer.set_state_values
                      (MonteCarloRLPlayer.init (K := Z) (F := R) 1 1%R 1%R 0%R 1%R false
                         1%R 1 false)
                      {[2 := 0%R]})
                   table', tt).
Proof.
  pose proof (read_keys_become_members (state := Gift.position) (action := Action)
                (K := Z) (F := R) (rng := unit)) as (Hget & _ & Hmoves).
  split.
  - apply (Hget ∅ 2). reflexivity.
  - destruct Hmoves as (_ & Hmove); [intros s; discriminate|].
    destruct (Hmove (MonteCarloRLPlayer.set_state_values
                       (MonteCarloRLPlayer.init (K := Z) (F := R) 1 1%R 1%R 0%R 1%R false
                          1%R 1 false) {[2 := 0%R]})
                    tt Gift.Middle (((0, 1), TOP), Gift.Lost))
      as (t & table' & _ & Hrun).
    + left. reflexivity.
    + reflexivity.
    + exists t, table'. exact Hrun.
Defined.

(** ** Moves come from the transitions *)



(** * Further properties of the code *)

(** ** The static evaluation on any board *)



Lemma lines_length (board : ndarray) (ls : list (list Z)) :
  MinMaxPlayer.lines board = Return ls ->
  length ls = (shape0 board + shape1 board + 2)%nat.
Proof.
  unfold MinMaxPlayer.lines.
  destruct (mapM (fun y => getitem board y y) _) as [p| |]; try discriminate.
  cbn [mbind outcome_bind].
  destruct (mapM (fun y => getitem_neg board y y) _) as [s| |]; try discriminate.
  cbn [mbind outcome_bind]. intros [= <-].
  rewrite !length_app, !length_map, !length_seq. simpl. lia.
Qed.

Lemma count_lines_bounds (mx mn ne : Z) (ls : list (list Z)) :
  let r := fold_left (MinMaxPlayer.count_line mx mn ne) ls (0, 0) in
  0 <= fst r <= Z.of_nat (length ls) /\ 0 <= snd r <= Z.of_nat (length ls).
Proof.
  cbn zeta. rewrite count_lines. cbn [fst snd].
  pose proof (length_filter
    (fun l => forallb (fun b : bool => b)
                (zip_with orb (map (Z.eqb mx) l) (map (Z.eqb ne) l)) = true) ls).
  pose proof (length_filter
    (fun l => forallb (fun b : bool => b)
                (zip_with orb (map (Z.eqb mn) l) (map (Z.eqb ne) l)) = true) ls).
  lia.
Qed.

Lemma count_lines_swap (mx mn ne : Z) (ls : list (list Z)) (a b : Z) :
  fold_left (MinMaxPlayer.count_line mn mx ne) ls (b, a)
  = (snd (fold_left (MinMaxPlayer.count_line mx mn ne) ls (a, b)),
     fst (fold_left (MinMaxPlayer.count_line mx mn ne) ls (a, b))).
Proof.
  revert a b. induction ls as [|l ls IH]; intros a b; [reflexivity|].
  cbn [fold_left]. unfold MinMaxPlayer.count_line at 2 4 6. cbn [fst snd].
  unfold MinMaxPlayer.count_line at 2. cbn [fst snd].
  apply IH.
Qed.

Section EvaluationAnyBoard.
Context `{InvestigateGame state action}.


(** X2. The value that [evaluation_function] returns is [inf] exactly when
    the rules engine reports the player as the winner, [-inf] exactly when it
    reports the opponent and not the player, and otherwise an integer whose
    absolute value is at most the number of lines examined, rows + columns
    + 2. *)
Theorem evaluation_range (self : Player) (game : state) (v : score) :
  MinMaxPlayer.evaluation_function self game = Return v ->
  (v = PosInf <-> check_winner game = _player_id self)
  /\ (v = NegInf <-> check_winner game <> _player_id self
                     /\ check_winner game = _opponent_player_id self)
  /\ (forall z, v = Fin z ->
        let n := Z.of_nat (shape0 (get_board game) + shape1 (get_board game) + 2) in
        - n <= z <= n).
Proof.
  unfold MinMaxPlayer.evaluation_function.
  destruct (Z.eqb_spec (check_winner game) (_player_id self)) as [Hmax|Hmax].
  { intros [= <-]. split; [tauto | split; [split; [discriminate | tauto] | discriminate]]. }
  destruct (Z.eqb_spec (check_winner game) (_opponent_player_id self)) as [Hmin|Hmin].
  { intros [= <-]. split; [split; [discriminate | tauto] | split; [tauto | discriminate]]. }
  destruct (MinMaxPlayer.lines (get_board game)) as [ls| |] eqn:Els; try discriminate.
  cbn [mbind outcome_bind].
  pose proof (count_lines_bounds (np_int16 (_player_id self))
                (np_int16 (_opponent_player_id self)) (np_int16 (-1)) ls) as Hb.
  cbn zeta in Hb. rewrite (lines_length _ _ Els) in Hb.
  destruct (fold_left _ ls (0, 0)) as [a b]. cbn [fst snd] in Hb.
  intros [= <-].
  split; [split; [discriminate | tauto] | split; [split; [discriminate | tauto]|]].
  intros z [= <-]. cbn zeta. lia.
Qed.

(** X3. The evaluation is zero-sum: for two players each of whom has the
    other's id as opponent id, the evaluations of a state are opposite, and
    one raises exactly when the other does. *)
Theorem evaluation_is_zero_sum (p q : Player) (game : state) :
  _player_id q = _opponent_player_id p ->
  _opponent_player_id q = _player_id p ->
  _player_id p <> _opponent_player_id p ->
  MinMaxPlayer.evaluation_function q game
  = match MinMaxPlayer.evaluation_function p game with
    | Return v => Return (vneg v)
    | r => r
    end.
Proof.
  intros Hq Hq' Hne. unfold MinMaxPlayer.evaluation_function. rewrite Hq, Hq'.
  destruct (Z.eqb_spec (check_winner game) (_player_id p)) as [Hmax|Hmax];
    destruct (Z.eqb_spec (check_winner game) (_opponent_player_id p)) as [Hmin|Hmin];
    try reflexivity; [congruence|].
  destruct (MinMaxPlayer.lines (get_board game)) as [ls| |]; try reflexivity.
  cbn [mbind outcome_bind].
  rewrite (count_lines_swap (np_int16 (_player_id p)) (np_int16 (_opponent_player_id p))).
  destruct (fold_left _ ls (0, 0)) as [a b]. cbn [fst snd vneg].
  do 2 f_equal. lia.
Qed.
End EvaluationAnyBoard.

Lemma evaluation_range_witness :
  exists z,
    MinMaxPlayer.evaluation_function (MinMaxPlayer.init 0 2 false) Crossing.PB1
      = Return (Fin z)
    /\ -8 <= z <= 8.
Proof.
  destruct (MinMaxPlayer.evaluation_function (MinMaxPlayer.init 0 2 false) Crossing.PB1)
    as [[|z|]| |] eqn:E; try (vm_compute in E; discriminate).
  exists z. split; [reflexivity|].
  destruct (evaluation_range (MinMaxPlayer.init 0 2 false) Crossing.PB1 (Fin z) E)
    as (_ & _ & Hz).
  apply (Hz z eq_refl).
Defined.

Lemma evaluation_is_zero_sum_witness :
  MinMaxPlayer.evaluation_function (MinMaxPlayer.init 1 2 false) Crossing.PB1
  = match MinMaxPlayer.evaluation_function (MinMaxPlayer.init 0 2 false) Crossing.PB1 with
    | Return v => Return (vneg v)
    | r => r
    end.
Proof.
  apply (evaluation_is_zero_sum (MinMaxPlayer.init 0 2 false) (MinMaxPlayer.init 1 2 false)
           Crossing.PB1); [reflexivity | reflexivity | discriminate].
Defined.

(** ** What a search leaves behind *)

Lemma grown_refl (p : Player) : grown p p.
Proof. split; [apply same_player_refl | split; [lia | split; auto]]. Qed.

Lemma grown_trans (p q r : Player) : grown p q -> grown q r -> grown p r.
Proof.
  intros ((H1 & H2 & H3 & H4) & Hh & Hmax & Hmin) ((G1 & G2 & G3 & G4) & Gh & Gmax & Gmin).
  split; [repeat split; congruence | split; [lia | split; auto]].
Qed.

Lemma grown_max (p : Player) (k : Z) (e : EntryMinMax.t) : grown p (set_visited_max p k e).
Proof.
  split; [apply same_player_max, same_player_refl | split; [simpl; lia | split; [|auto]]].
  intros k' Hk'. simpl. destruct (decide (k' = k)) as [->|Hne].
  - rewrite lookup_insert_eq. eexists. reflexivity.
  - rewrite lookup_insert_ne by congruence. exact Hk'.
Qed.

Lemma grown_min (p : Player) (k : Z) (e : EntryMinMax.t) : grown p (set_visited_min p k e).
Proof.
  split; [apply same_player_min, same_player_refl | split; [simpl; lia | split; [auto|]]].
  intros k' Hk'. simpl. destruct (decide (k' = k)) as [->|Hne].
  - rewrite lookup_insert_eq. eexists. reflexivity.
  - rewrite lookup_insert_ne by congruence. exact Hk'.
Qed.

Lemma grown_hit (p : Player) : grown p (record_hit p).
Proof.
  split; [apply same_player_hit, same_player_refl | split; [simpl; lia | split; auto]].
Qed.

Section Grown.
Context `{InvestigateGame state action}.

Lemma max_loop_grown (call : state -> Z -> Player -> outcome (score * Player)) :
  (forall s k q v q', call s k q = Return (v, q') -> grown q q') ->
  forall (ts : list (action * state * Z)) value key q v k' q',
    MinMaxPlayer.max_loop call ts value key q = Return (v, k', q') -> grown q q'.
Proof.
  intros Hcall. induction ts as [|[[a s] k] ts IH]; intros value key q v k' q' Hrun;
    cbn [MinMaxPlayer.max_loop] in Hrun.
  - injection Hrun as _ _ <-. apply grown_refl.
  - destruct (call s k q) as [[v1 q1]| |] eqn:E; try discriminate.
    cbn [mbind outcome_bind] in Hrun.
    eapply grown_trans; [eapply Hcall, E | eapply IH, Hrun].
Qed.

Lemma min_loop_grown (call : state -> Z -> Player -> outcome (score * Player)) :
  (forall s k q v q', call s k q = Return (v, q') -> grown q q') ->
  forall (ts : list (action * state * Z)) value key q v k' q',
    MinMaxPlayer.min_loop call ts value key q = Return (v, k', q') -> grown q q'.
Proof.
  intros Hcall. induction ts as [|[[a s] k] ts IH]; intros value key q v k' q' Hrun;
    cbn [MinMaxPlayer.min_loop] in Hrun.
  - injection Hrun as _ _ <-. apply grown_refl.
  - destruct (call s k q) as [[v1 q1]| |] eqn:E; try discriminate.
    cbn [mbind outcome_bind] in Hrun.
    eapply grown_trans; [eapply Hcall, E | eapply IH, Hrun].
Qed.

Lemma minmax_grown (fuel : nat) :
  forall depth s k q v q',
    (MinMaxPlayer.max_value fuel s k depth q = Return (v, q') -> grown q q')
    /\ (MinMaxPlayer.min_value fuel s k depth q = Return (v, q') -> grown q q').
Proof.
  induction fuel as [|fuel IH]; intros depth s k q v q'; [split; discriminate|].
  split; cbn [MinMaxPlayer.max_value MinMaxPlayer.min_value]; intros Hrun.
  - destruct (cached _ k depth); [injection Hrun as _ <-; apply grown_hit|].
    destruct ((depth <=? 0) || negb (check_winner s =? -1)).
    + destruct (MinMaxPlayer.evaluation_function q s) as [v1| |]; try discriminate.
      cbn [mbind outcome_bind] in Hrun.
      destruct (MinMaxPlayer.evaluation_function _ s) as [v2| |]; try discriminate.
      cbn [mbind outcome_bind] in Hrun. injection Hrun as _ <-. apply grown_max.
    + destruct (MinMaxPlayer.max_loop _ _ _ _ _) as [[[v1 k1] q1]| |] eqn:E; try discriminate.
      cbn [mbind outcome_bind] in Hrun. injection Hrun as _ <-.
      eapply grown_trans; [|apply grown_max].
      eapply max_loop_grown; [|exact E].
      intros s' k' p v' p' Hcall. exact (proj2 (IH _ _ _ _ _ _) Hcall).
  - destruct (cached _ k depth); [injection Hrun as _ <-; apply grown_hit|].
    destruct ((depth <=? 0) || negb (check_winner s =? -1)).
    + destruct (MinMaxPlayer.evaluation_function q s) as [v1| |]; try discriminate.
      cbn [mbind outcome_bind] in Hrun. injection Hrun as _ <-. apply grown_min.
    + destruct (MinMaxPlayer.min_loop _ _ _ _ _) as [[[v1 k1] q1]| |] eqn:E; try discriminate.
      cbn [mbind outcome_bind] in Hrun. injection Hrun as _ <-.
      eapply grown_trans; [|apply grown_min].
      eapply min_loop_grown; [|exact E].
      intros s' k' p v' p' Hcall. exact (proj1 (IH _ _ _ _ _ _) Hcall).
Qed.

Lemma ab_max_loop_grown
    (call : state -> Z -> score -> Player -> outcome (score * Player)) depth beta :
  (forall s k w q v q', call s k w q = Return (v, q') -> grown q q') ->
  forall (ts : list (action * state * Z)) b a key q v q',
    AlphaBetaMinMaxPlayer.max_loop call depth beta ts b a key q = Return (v, q') ->
    grown q q'.
Proof.
  intros Hcall. induction ts as [|[[c s] k] ts IH]; intros b a key q v q' Hrun;
    cbn [AlphaBetaMinMaxPlayer.max_loop] in Hrun.
  - injection Hrun as _ <-. apply grown_max.
  - destruct (call s k a q) as [[v1 q1]| |] eqn:E; try discriminate.
    cbn [mbind outcome_bind] in Hrun. apply Hcall in E.
    destruct (vlt b v1); cbn in Hrun.
    + destruct (vle beta v1).
      * injection Hrun as _ <-. eapply grown_trans; [exact E | apply grown_max].
      * eapply grown_trans; [exact E | eapply IH, Hrun].
    + destruct (vle beta b).
      * injection Hrun as _ <-. eapply grown_trans; [exact E | apply grown_max].
      * eapply grown_trans; [exact E | eapply IH, Hrun].
Qed.

Lemma ab_min_loop_grown
    (call : state -> Z -> score -> Player -> outcome (score * Player)) depth alpha :
  (forall s k w q v q', call s k w q = Return (v, q') -> grown q q') ->
  forall (ts : list (action * state * Z)) b a key q v q',
    AlphaBetaMinMaxPlayer.min_loop call depth alpha ts b a key q = Return (v, q') ->
    grown q q'.
Proof.
  intros Hcall. induction ts as [|[[c s] k] ts IH]; intros b a key q v q' Hrun;
    cbn [AlphaBetaMinMaxPlayer.min_loop] in Hrun.
  - injection Hrun as _ <-. apply grown_min.
  - destruct (call s k a q) as [[v1 q1]| |] eqn:E; try discriminate.
    cbn [mbind outcome_bind] in Hrun. apply Hcall in E.
    destruct (vlt v1 b); cbn in Hrun.
    + destruct (vle v1 alpha).
      * injection Hrun as _ <-. eapply grown_trans; [exact E | apply grown_min].
      * eapply grown_trans; [exact E | eapply IH, Hrun].
    + destruct (vle b alpha).
      * injection Hrun as _ <-. eapply grown_trans; [exact E | apply grown_min].
      * eapply grown_trans; [exact E | eapply IH, Hrun].
Qed.

Lemma alphabeta_grown (fuel : nat) :
  forall depth s k alpha beta q v q',
    (AlphaBetaMinMaxPlayer.max_value fuel s k depth alpha beta q = Return (v, q') ->
     grown q q')
    /\ (AlphaBetaMinMaxPlayer.min_value fuel s k depth alpha beta q = Return (v, q') ->
        grown q q').
Proof.
  induction fuel as [|fuel IH]; intros depth s k alpha beta q v q'; [split; discriminate|].
  split; cbn [AlphaBetaMinMaxPlayer.max_value AlphaBetaMinMaxPlayer.min_value]; intros Hrun.
  - destruct (cached _ k depth); [injection Hrun as _ <-; apply grown_hit|].
    destruct ((depth <=? 0) || negb (check_winner s =? -1)).
    + destruct (MinMaxPlayer.evaluation_function q s) as [v1| |]; try discriminate.
      cbn [mbind outcome_bind] in Hrun. injection Hrun as _ <-. apply grown_max.
    + eapply ab_max_loop_grown; [|exact Hrun].
      intros s' k' w p v' p' Hcall. exact (proj2 (IH _ _ _ _ _ _ _ _) Hcall).
  - destruct (cached _ k depth); [injection Hrun as _ <-; apply grown_hit|].
    destruct ((depth <=? 0) || negb (check_winner s =? -1)).
    + destruct (MinMaxPlayer.evaluation_function q s) as [v1| |]; try discriminate.
      cbn [mbind outcome_bind] in Hrun. injection Hrun as _ <-. apply grown_min.
    + eapply ab_min_loop_grown; [|exact Hrun].
      intros s' k' w p v' p' Hcall. exact (proj1 (IH _ _ _ _ _ _ _ _) Hcall).
Qed.

Lemma best_loop_grown (call : state -> Z -> Player -> outcome (score * Player)) :
  (forall s k q v q', call s k q = Return (v, q') -> grown q q') ->
  forall (ts : list (action * state * Z)) best q r q',
    MinMaxPlayer.best_loop call ts best q = Return (r, q') -> grown q q'.
Proof.
  intros Hcall. induction ts as [|[[a s] k] ts IH]; intros best q r q' Hrun;
    cbn [MinMaxPlayer.best_loop] in Hrun.
  - injection Hrun as _ <-. apply grown_refl.
  - destruct (call s k q) as [[v1 q1]| |] eqn:E; try discriminate.
    cbn [mbind outcome_bind] in Hrun.
    eapply grown_trans; [eapply Hcall, E | eapply IH, Hrun].
Qed.

Lemma best_transition_grown (call : state -> Z -> Player -> outcome (score * Player)) :
  (forall s k q v q', call s k q = Return (v, q') -> grown q q') ->
  forall (ts : list (action * state * Z)) q r q',
    MinMaxPlayer.best_transition call ts q = Return (r, q') -> grown q q'.
Proof.
  intros Hcall [|[[a s] k] ts] q r q' Hrun; [discriminate|].
  cbn [MinMaxPlayer.best_transition] in Hrun.
  destruct (call s k q) as [[v1 q1]| |] eqn:E; try discriminate.
  cbn [mbind outcome_bind] in Hrun.
  eapply grown_trans; [eapply Hcall, E | eapply best_loop_grown, Hrun; exact Hcall].
Qed.

(** X4. A search never changes the identity of the player (ids, depth,
    symmetry flag), never lowers the hit counter and never removes a key from
    either cache. This holds for [max_value], [min_value] and [make_move] of
    both engines. *)
Theorem searching_only_grows (fuel : nat) (game : state) (key depth : Z)
    (alpha beta : score) (self self' : Player) (v : score) (a : action) :
  (MinMaxPlayer.max_value fuel game key depth self = Return (v, self') -> grown self self')
  /\ (MinMaxPlayer.min_value fuel game key depth self = Return (v, self') ->
      grown self self')
  /\ (AlphaBetaMinMaxPlayer.max_value fuel game key depth alpha beta self
        = Return (v, self') -> grown self self')
  /\ (AlphaBetaMinMaxPlayer.min_value fuel game key depth alpha beta self
        = Return (v, self') -> grown self self')
  /\ (MinMaxPlayer.make_move self game = Return (a, self') -> grown self self')
  /\ (AlphaBetaMinMaxPlayer.make_move self game = Return (a, self') -> grown self self').
Proof.
  split; [apply minmax_grown|]. split; [apply minmax_grown|].
  split; [apply alphabeta_grown|]. split; [apply alphabeta_grown|].
  split; intros Hrun.
  - unfold MinMaxPlayer.make_move, MinMaxPlayer.search_root in Hrun.
    destruct (MinMaxPlayer.best_transition _ _ _) as [[[v1 a1] q1]| |] eqn:E;
      try discriminate.
    cbn [mbind outcome_bind] in Hrun. injection Hrun as _ <-.
    eapply best_transition_grown; [|exact E].
    intros s k q v' q' Hcall. exact (proj2 (minmax_grown _ _ _ _ _ _ _) Hcall).
  - unfold AlphaBetaMinMaxPlayer.make_move, AlphaBetaMinMaxPlayer.search_root in Hrun.
    destruct (MinMaxPlayer.best_transition _ _ _) as [[[v1 a1] q1]| |] eqn:E;
      try discriminate.
    cbn [mbind outcome_bind] in Hrun. injection Hrun as _ <-.
    eapply best_transition_grown; [|exact E].
    intros s k q v' q' Hcall. exact (proj2 (alphabeta_grown _ _ _ _ _ _ _ _ _) Hcall).
Qed.
End Grown.

(** ** The engines against bounded minimax *)

Section AgainstMinimax.
Context `{InvestigateGame state action}.

(** X5. A call of [max_value] or [min_value] of the plain engine that
    returns without a cache hit returns the value of bounded minimax without
    cache, to the same depth. *)
Theorem minmax_without_hit_is_minimax (fuel : nat) (game : state) (key depth : Z)
    (self self' : Player) (v : score) :
  _hit self' = _hit self ->
  (MinMaxPlayer.max_value fuel game key depth self = Return (v, self') ->
   Spec.max_value self fuel game depth = Return v)
  /\ (MinMaxPlayer.min_value fuel game key depth self = Return (v, self') ->
      Spec.min_value self fuel game depth = Return v).
Proof.
  intros Hhit. destruct (minmax_faithful self fuel depth) as (Hmax & Hmin). split; intros Hrun.
  - destruct (Hmax game key self v self' (same_player_refl self) Hrun) as (_ & _ & Href).
    apply Href, Hhit.
  - destruct (Hmin game key self v self' (same_player_refl self) Hrun) as (_ & _ & Href).
    apply Href, Hhit.
Qed.

(** X6. A call of [max_value] or [min_value] of the pruning engine under a
    window [alpha < beta] that returns without a cache hit returns the minimax
    value when the result lies strictly inside the window, an upper bound of
    it when the result is at most [alpha], and a lower bound of it when the
    result is at least [beta]. *)
Theorem alphabeta_without_hit_bounds_minimax (fuel : nat) (game : state) (key depth : Z)
    (alpha beta : score) (self self' : Player) (v m : score) :
  vlt alpha beta = true ->
  _hit self' = _hit self ->
  (AlphaBetaMinMaxPlayer.max_value fuel game key depth alpha beta self = Return (v, self')
   /\ Spec.max_value self fuel game depth = Return m)
  \/ (AlphaBetaMinMaxPlayer.min_value fuel game key depth alpha beta self = Return (v, self')
      /\ Spec.min_value self fuel game depth = Return m) ->
  (vlt alpha v = true -> vlt v beta = true -> v = m)
  /\ (vle v alpha = true -> vle m v = true)
  /\ (vle beta v = true -> vle v m = true).
Proof.
  intros Hwin Hhit Hrun.
  destruct (alphabeta_sound self fuel depth game key alpha beta self v self' m
              (same_player_refl self) Hwin Hhit) as (Hmax & Hmin).
  assert (Hb : bounds alpha beta v m).
  { destruct Hrun as [(Hrun & Href)|(Hrun & Href)]; [apply Hmax | apply Hmin]; assumption. }
  destruct Hb as (Hlow & Hhigh & Hin).
  split; [intros Ha Hb; symmetry; apply Hin; assumption | split; assumption].
Qed.

Lemma best_of_first_best (ref : state -> outcome score) :
  forall (ts : list (action * state * Z)) (best r : score * action),
    Spec.best_of ref ts best = Return r ->
    (r = best
     /\ forall (j : nat) a' s' k', ts !! j = Some (a', s', k') ->
          exists v', ref s' = Return v' /\ vle v' (fst best) = true)
    \/ (vlt (fst best) (fst r) = true
        /\ exists (i : nat) s k,
             ts !! i = Some (snd r, s, k) /\ ref s = Return (fst r)
             /\ forall (j : nat) a' s' k', ts !! j = Some (a', s', k') ->
                  exists v', ref s' = Return v' /\ vle v' (fst r) = true
                             /\ ((j < i)%nat -> vlt v' (fst r) = true)).
Proof.
  induction ts as [|[[a s] k] ts IH]; intros best r Hrun; cbn [Spec.best_of] in Hrun.
  - injection Hrun as <-. left. split; [reflexivity|]. intros j a' s' k' Hj. discriminate.
  - destruct (ref s) as [v| |] eqn:Ev; try discriminate.
    cbn [mbind outcome_bind] in Hrun.
    destruct (IH _ _ Hrun) as [(-> & Hall)|(Hlt & i & si & ki & Hi & Hri & Hall)].
    + destruct (vlt (fst best) v) eqn:Hbv.
      * right. cbn [fst snd]. split; [exact Hbv|].
        exists 0%nat, s, k. split; [reflexivity | split; [exact Ev|]].
        intros [|j] a' s' k' Hj; cbn in Hj.
        -- injection Hj as <- <- <-. exists v. split; [exact Ev|].
           split; [score_lia [v] | lia].
        -- destruct (Hall j a' s' k' Hj) as (v' & Hv' & Hle). cbn [fst] in Hle.
           exists v'. split; [exact Hv' | split; [exact Hle | lia]].
      * left. split; [reflexivity|].
        intros [|j] a' s' k' Hj; cbn in Hj.
        -- injection Hj as <- <- <-. exists v. split; [exact Ev|].
           destruct best as [b ab]. cbn [fst] in *. score_lia [b; v].
        -- exact (Hall j a' s' k' Hj).
    + right.
      assert (Hb : vle (fst best) (fst (if vlt (fst best) v then (v, a) else best)) = true
                   /\ vle v (fst (if vlt (fst best) v then (v, a) else best)) = true).
      { destruct best as [b ab]. cbn [fst]. destruct (vlt b v) eqn:Hbv; cbn [fst];
          split; score_lia [b; v]. }
      destruct Hb as (Hb1 & Hb2).
      destruct r as [vr ar]. cbn [fst snd] in *.
      set (b' := fst (if vlt (fst best) v then (v, a) else best)) in *.
      split; [destruct best as [b ab]; cbn [fst] in *; score_lia [b; b'; vr]|].
      exists (S i), si, ki. split; [exact Hi | split; [exact Hri|]].
      intros [|j] a' s' k' Hj; cbn in Hj.
      * injection Hj as <- <- <-. exists v. split; [exact Ev|].
        split; [score_lia [v; b'; vr] | intros _; score_lia [v; b'; vr]].
      * destruct (Hall j a' s' k' Hj) as (v' & Hv' & Hle & Hlt').
        exists v'. split; [exact Hv' | split; [exact Hle | intros; apply Hlt'; lia]].
Qed.

Lemma choose_first_best (p : Player) (game : state) (v : score) (a : action) :
  Spec.choose p game = Return (v, a) ->
  first_best
    (fun s => Spec.min_value p (MinMaxPlayer.budget (_depth p - 1)) s (_depth p - 1))
    (MinMaxPlayer.transitions_of p game (_player_id p)) a.
Proof.
  unfold Spec.choose.
  destruct (MinMaxPlayer.transitions_of p game (_player_id p)) as [|[[a0 s0] k0] ts];
    [discriminate|].
  destruct (Spec.min_value p _ s0 _) as [v0| |] eqn:E0; try discriminate.
  cbn [mbind outcome_bind]. intros Hrun.
  destruct (best_of_first_best _ _ _ _ Hrun)
    as [([= -> ->] & Hall)|(Hlt & i & si & ki & Hi & Hri & Hall)]; cbn [fst snd] in *.
  - exists 0%nat, s0, k0, v0. split; [reflexivity | split; [exact E0|]].
    intros [|j] a' s' k' Hj; cbn in Hj.
    + injection Hj as <- <- <-. exists v0. split; [exact E0|].
      split; [score_lia [v0] | lia].
    + destruct (Hall j a' s' k' Hj) as (v' & Hv' & Hle).
      exists v'. split; [exact Hv' | split; [exact Hle | lia]].
  - exists (S i), si, ki, v. split; [exact Hi | split; [exact Hri|]].
    intros [|j] a' s' k' Hj; cbn in Hj.
    + injection Hj as <- <- <-. exists v0. split; [exact E0|].
      split; [score_lia [v0; v] | intros _; exact Hlt].
    + destruct (Hall j a' s' k' Hj) as (v' & Hv' & Hle & Hlt').
      exists v'. split; [exact Hv' | split; [exact Hle | intros; apply Hlt'; lia]].
Qed.
End AgainstMinimax.

Lemma minmax_without_hit_is_minimax_witness :
  Spec.min_value (MinMaxPlayer.init 0 2 false) 2 Crossing.PA 1 = Return NegInf.
Proof.
  destruct (MinMaxPlayer.min_value 2 Crossing.PA 1 1 (MinMaxPlayer.init 0 2 false))
    as [[v q]| |] eqn:E; try (vm_compute in E; discriminate).
  assert (Hv : v = NegInf) by (vm_compute in E; injection E as <- _; reflexivity).
  assert (Hh : _hit q = _hit (MinMaxPlayer.init 0 2 false))
    by (vm_compute in E; injection E as _ <-; reflexivity).
  subst v.
  exact (proj2 (minmax_without_hit_is_minimax 2 Crossing.PA 1 1
                  (MinMaxPlayer.init 0 2 false) q NegInf Hh) E).
Defined.

Lemma alphabeta_without_hit_bounds_minimax_witness :
  exists self',
    AlphaBetaMinMaxPlayer.max_value 2 Crossing.Root 0 1 (Fin 5) (Fin 6)
      (AlphaBetaMinMaxPlayer.init 0 2 false) = Return (Fin 0, self')
    /\ Spec.max_value (AlphaBetaMinMaxPlayer.init 0 2 false) 2 Crossing.Root 1
       = Return (Fin 0)
    /\ vle (Fin 0) (Fin 0) = true.
Proof.
  destruct (AlphaBetaMinMaxPlayer.max_value 2 Crossing.Root 0 1 (Fin 5) (Fin 6)
              (AlphaBetaMinMaxPlayer.init 0 2 false)) as [[v q]| |] eqn:E;
    try (vm_compute in E; discriminate).
  assert (Hv : v = Fin 0) by (vm_compute in E; injection E as <- _; reflexivity).
  assert (Hh : _hit q = _hit (AlphaBetaMinMaxPlayer.init 0 2 false))
    by (vm_compute in E; injection E as _ <-; reflexivity).
  assert (Hm : Spec.max_value (AlphaBetaMinMaxPlayer.init 0 2 false) 2 Crossing.Root 1
               = Return (Fin 0)) by (vm_compute; reflexivity).
  subst v. exists q. split; [reflexivity | split; [exact Hm|]].
  destruct (alphabeta_without_hit_bounds_minimax 2 Crossing.Root 0 1 (Fin 5) (Fin 6)
              (AlphaBetaMinMaxPlayer.init 0 2 false) q (Fin 0) (Fin 0) eq_refl Hh
              (or_introl (conj E Hm))) as (_ & Hlow & _).
  apply Hlow. reflexivity.
Defined.

Section BestMove.
Context `{InvestigateGame state action}.

Lemma best_loop_exact (p : Player)
    (call : state -> Z -> Player -> outcome (score * Player))
    (ref : state -> outcome score) :
  (forall s k q v q', same_player p q -> call s k q = Return (v, q') ->
                      same_player p q' /\ _hit q <= _hit q') ->
  (forall s k q v q', same_player p q -> call s k q = Return (v, q') ->
                      _hit q' = _hit q -> ref s = Return v) ->
  forall (ts : list (action * state * Z)) best q r q',
    same_player p q ->
    MinMaxPlayer.best_loop call ts best q = Return (r, q') ->
    _hit q' = _hit q ->
    Spec.best_of ref ts best = Return r.
Proof.
  intros Hsteady Hexact.
  induction ts as [|[[a s] k] ts IH]; intros best q r q' Hq Hrun Hhit;
    cbn [MinMaxPlayer.best_loop] in Hrun.
  - injection Hrun as <- _. reflexivity.
  - destruct (call s k q) as [[v1 q1]| |] eqn:E; try discriminate.
    cbn [mbind outcome_bind] in Hrun.
    destruct (Hsteady _ _ _ _ _ Hq E) as (Hq1 & Hle).
    destruct (best_loop_steady p call Hsteady _ _ _ _ _ Hq1 Hrun) as (_ & Hle').
    cbn [Spec.best_of]. rewrite (Hexact _ _ _ _ _ Hq E ltac:(lia)).
    cbn [mbind outcome_bind]. apply (IH _ _ _ _ Hq1 Hrun). lia.
Qed.

Lemma best_transition_exact (p : Player)
    (call : state -> Z -> Player -> outcome (score * Player)) (game : state) :
  (forall s k q v q', same_player p q -> call s k q = Return (v, q') ->
                      same_player p q' /\ _hit q <= _hit q') ->
  (forall s k q v q', same_player p q -> call s k q = Return (v, q') ->
                      _hit q' = _hit q ->
                      Spec.min_value p (MinMaxPlayer.budget (_depth p - 1)) s (_depth p - 1)
                      = Return v) ->
  forall v a q',
    MinMaxPlayer.best_transition call
      (MinMaxPlayer.transitions_of p game (_player_id p)) p = Return (v, a, q') ->
    _hit q' = _hit p ->
    Spec.choose p game = Return (v, a).
Proof.
  intros Hsteady Hexact v a q' Hrun Hhit. unfold Spec.choose.
  destruct (MinMaxPlayer.transitions_of p game (_player_id p)) as [|[[a0 s0] k0] ts];
    [discriminate|].
  cbn [MinMaxPlayer.best_transition] in Hrun.
  destruct (call s0 k0 p) as [[v0 q0]| |] eqn:E; try discriminate.
  cbn [mbind outcome_bind] in Hrun.
  destruct (Hsteady _ _ _ _ _ (same_player_refl p) E) as (Hq0 & Hle).
  destruct (best_loop_steady p call Hsteady _ _ _ _ _ Hq0 Hrun) as (_ & Hle').
  rewrite (Hexact _ _ _ _ _ (same_player_refl p) E ltac:(lia)).
  cbn [mbind outcome_bind].
  apply (best_loop_exact p call _ Hsteady Hexact _ _ _ _ _ Hq0 Hrun). lia.
Qed.

Lemma fold_children_returns (pick : score -> score -> score)
    (call : state -> outcome score) :
  (forall s, exists v, call s = Return v) ->
  forall (ts : list (action * state * Z)) value,
    exists v, Spec.fold_children pick call ts value = Return v.
Proof.
  intros Hcall. induction ts as [|[[a s] k] ts IH]; intros value; cbn [Spec.fold_children].
  - eexists. reflexivity.
  - destruct (Hcall s) as (v & ->). cbn [mbind outcome_bind]. apply IH.
Qed.

Lemma minimax_returns (p : Player) :
  (forall s : state, (shape0 (get_board s) <= shape1 (get_board s))%nat) ->
  forall (fuel : nat) depth, (Z.to_nat depth < fuel)%nat ->
  forall s,
    (exists v, Spec.max_value p fuel s depth = Return v)
    /\ (exists v, Spec.min_value p fuel s depth = Return v).
Proof.
  intros Hfit. induction fuel as [|fuel IH]; intros depth Hfuel s; [lia|].
  split; cbn [Spec.max_value Spec.min_value].
  - destruct (Z.leb_spec depth 0) as [Hd|Hd]; cbn [orb];
      [apply (evaluation_returns Hfit)|].
    destruct (negb (check_winner s =? -1)); [apply (evaluation_returns Hfit)|].
    apply fold_children_returns. intros s'. apply IH. lia.
  - destruct (Z.leb_spec depth 0) as [Hd|Hd]; cbn [orb];
      [apply (evaluation_returns Hfit)|].
    destruct (negb (check_winner s =? -1)); [apply (evaluation_returns Hfit)|].
    apply fold_children_returns. intros s'. apply IH. lia.
Qed.

(** X7. A [make_move] that ends without a cache hit plays a best move: the
    action returned belongs to the first transition whose bounded minimax
    value is the greatest (every transition is worth at most as much, every
    earlier one strictly less). For the pruning engine this is shown on
    boards with no more rows than columns, where no evaluation raises. *)
Theorem make_move_plays_a_best_first_move (self self' : Player) (game : state)
    (a : action) :
  _hit self' = _hit self ->
  MinMaxPlayer.make_move self game = Return (a, self')
  \/ ((forall s : state, (shape0 (get_board s) <= shape1 (get_board s))%nat)
      /\ AlphaBetaMinMaxPlayer.make_move self game = Return (a, self')) ->
  first_best
    (fun s => Spec.min_value self (MinMaxPlayer.budget (_depth self - 1)) s
                (_depth self - 1))
    (MinMaxPlayer.transitions_of self game (_player_id self)) a.
Proof.
  intros Hhit [Hrun|(Hfit & Hrun)].
  - unfold MinMaxPlayer.make_move, MinMaxPlayer.search_root in Hrun.
    destruct (MinMaxPlayer.best_transition _ _ _) as [[[v a1] q1]| |] eqn:E;
      try discriminate.
    cbn [mbind outcome_bind] in Hrun. injection Hrun as <- <-.
    apply (choose_first_best self game v a1).
    apply (best_transition_exact self minmax_root_call game
             (minmax_root_steady self)) with (q' := q1); [|exact E|exact Hhit].
    intros s k q v' q' Hq Hcall Hh.
    destruct (minmax_root_faithful self s k q v' q' Hq Hcall) as (_ & _ & Href).
    apply Href, Hh.
  - unfold AlphaBetaMinMaxPlayer.make_move, AlphaBetaMinMaxPlayer.search_root in Hrun.
    destruct (MinMaxPlayer.best_transition _ _ _) as [[[v a1] q1]| |] eqn:E;
      try discriminate.
    cbn [mbind outcome_bind] in Hrun. injection Hrun as <- <-.
    apply (choose_first_best self game v a1).
    apply (best_transition_exact self alphabeta_root_call game
             (alphabeta_root_steady self)) with (q' := q1); [|exact E|exact Hhit].
    intros s k q v' q' Hq Hcall Hh.
    destruct (proj2 (minimax_returns self Hfit (MinMaxPlayer.budget (_depth self - 1))
                       (_depth self - 1) ltac:(unfold MinMaxPlayer.budget; lia) s))
      as (m & Hm).
    rewrite Hm. f_equal. symmetry.
    exact (alphabeta_root_exact self s k q v' q' m Hq Hcall Hh Hm).
Qed.
End BestMove.

Lemma make_move_plays_a_best_first_move_witness :
  first_best
    (fun s => Spec.min_value (MinMaxPlayer.init 0 1 false) (MinMaxPlayer.budget (1 - 1)) s
                (1 - 1))
    (MinMaxPlayer.transitions_of (MinMaxPlayer.init 0 1 false) Crossing.Root 0)
    ((0, 1), BOTTOM).
Proof.
  destruct (MinMaxPlayer.make_move (MinMaxPlayer.init 0 1 false) Crossing.Root)
    as [[a q]| |] eqn:E; try (vm_compute in E; discriminate).
  assert (Ha : a = ((0, 1), BOTTOM)) by (vm_compute in E; injection E as <- _; reflexivity).
  assert (Hh : _hit q = _hit (MinMaxPlayer.init 0 1 false))
    by (vm_compute in E; injection E as _ <-; reflexivity).
  subst a.
  exact (make_move_plays_a_best_first_move (MinMaxPlayer.init 0 1 false) q Crossing.Root
           ((0, 1), BOTTOM) Hh (or_introl E)).
Defined.

(** ** Asking again *)

Lemma set_visited_max_again (self : Player) (key : Z) (e : EntryMinMax.t) :
  set_visited_max (set_visited_max self key e) key e = set_visited_max self key e.
Proof. unfold set_visited_max. cbn. rewrite insert_insert_eq. reflexivity. Qed.

Lemma set_visited_min_again (self : Player) (key : Z) (e : EntryMinMax.t) :
  set_visited_min (set_visited_min self key e) key e = set_visited_min self key e.
Proof. unfold set_visited_min. cbn. rewrite insert_insert_eq. reflexivity. Qed.

Lemma cached_stored (cache : gmap Z EntryMinMax.t) (key depth : Z) (v : score) :
  cached (<[key := EntryMinMax.mk 0 v]> cache) key depth
  = if depth <=? 0 then Some v else None.
Proof. unfold cached. rewrite lookup_insert_eq. reflexivity. Qed.

Section AskingAgain.
Context `{InvestigateGame state action}.

(** X8. When a leaf query (no depth left, or the game over) is not answered
    by the cache, it files [(0, value)] under the queried key. The same query
    repeated is then answered from the cache when [depth <= 0]; when
    [depth > 0] the entry's depth 0 is below the depth asked, so the state is
    evaluated again, with the same value, no hit and nothing changed. *)
Theorem leaf_query_repeated (fuel fuel' : nat) (game : state) (key depth : Z)
    (alpha beta : score) (self : Player) (v : score) :
  depth <= 0 \/ check_winner game <> -1 ->
  MinMaxPlayer.evaluation_function self game = Return v ->
  (cached (_visited_max_states self) key depth = None ->
   let self1 := set_visited_max self key (EntryMinMax.mk 0 v) in
   let again := if depth <=? 0 then record_hit self1 else self1 in
   MinMaxPlayer.max_value (S fuel) game key depth self = Return (v, self1)
   /\ MinMaxPlayer.max_value (S fuel') game key depth self1 = Return (v, again)
   /\ AlphaBetaMinMaxPlayer.max_value (S fuel) game key depth alpha beta self
      = Return (v, self1)
   /\ AlphaBetaMinMaxPlayer.max_value (S fuel') game key depth alpha beta self1
      = Return (v, again))
  /\ (cached (_visited_min_states self) key depth = None ->
      let self1 := set_visited_min self key (EntryMinMax.mk 0 v) in
      let again := if depth <=? 0 then record_hit self1 else self1 in
      MinMaxPlayer.min_value (S fuel) game key depth self = Return (v, self1)
      /\ MinMaxPlayer.min_value (S fuel') game key depth self1 = Return (v, again)
      /\ AlphaBetaMinMaxPlayer.min_value (S fuel) game key depth alpha beta self
         = Return (v, self1)
      /\ AlphaBetaMinMaxPlayer.min_value (S fuel') game key depth alpha beta self1
         = Return (v, again)).
Proof.
  intros Hleaf Hv.
  assert (Hcond : (depth <=? 0) || negb (check_winner game =? -1) = true).
  { destruct (Z.leb_spec depth 0); [reflexivity|]. cbn [orb].
    destruct (Z.eqb_spec (check_winner game) (-1)); [lia | reflexivity]. }
  split; intros Hmiss self1 again; subst self1 again.
  - repeat split;
      cbn [MinMaxPlayer.max_value AlphaBetaMinMaxPlayer.max_value];
      cbn [set_visited_max _visited_max_states];
      rewrite ?cached_stored, ?Hmiss;
      try (destruct (depth <=? 0) eqn:Hd; [reflexivity|]);
      rewrite Hcond;
      repeat (change (MinMaxPlayer.evaluation_function
                        (set_visited_max ?p ?k ?e) game)
                with (MinMaxPlayer.evaluation_function p game));
      rewrite ?Hv; cbn [mbind outcome_bind];
      repeat (change (MinMaxPlayer.evaluation_function
                        (set_visited_max ?p ?k ?e) game)
                with (MinMaxPlayer.evaluation_function p game));
      rewrite ?Hv; cbn [mbind outcome_bind];
      rewrite ?set_visited_max_again; reflexivity.
  - repeat split;
      cbn [MinMaxPlayer.min_value AlphaBetaMinMaxPlayer.min_value];
      cbn [set_visited_min _visited_min_states];
      rewrite ?cached_stored, ?Hmiss;
      try (destruct (depth <=? 0) eqn:Hd; [reflexivity|]);
      rewrite Hcond;
      repeat (change (MinMaxPlayer.evaluation_function
                        (set_visited_min ?p ?k ?e) game)
                with (MinMaxPlayer.evaluation_function p game));
      rewrite ?Hv; cbn [mbind outcome_bind];
      rewrite ?set_visited_min_again; reflexivity.
Qed.
End AskingAgain.

Lemma leaf_query_repeated_witness :
  let self := MinMaxPlayer.init 0 3 false in
  let self1 := set_visited_max self 3 (EntryMinMax.mk 0 NegInf) in
  MinMaxPlayer.max_value 1 Crossing.PA1 3 2 self = Return (NegInf, self1)
  /\ MinMaxPlayer.max_value 1 Crossing.PA1 3 2 self1 = Return (NegInf, self1).
Proof.
  destruct (leaf_query_repeated 0 0 Crossing.PA1 3 2 NegInf PosInf
              (MinMaxPlayer.init 0 3 false) NegInf
              ltac:(right; discriminate) eq_refl) as (Hmax & _).
  destruct (Hmax eq_refl) as (H1 & H2 & _).
  split; [exact H1 | exact H2].
Defined.

(** ** Canonical keys *)

Section Canonical.
Context {K : Type} `{KeyOrder K}.

Lemma argmin_from_spec (keys pre : list K) (best : K) (best_i : nat) :
  pre !! best_i = Some best ->
  let i := argmin_from keys (length pre) best best_i in
  (pre ++ keys) !! i
  = Some (fold_left (fun m x => if key_ltb x m then x else m) keys best).
Proof.
  revert pre best best_i. induction keys as [|x keys IH]; intros pre best best_i Hbest;
    cbn [argmin_from fold_left].
  - rewrite app_nil_r. exact Hbest.
  - replace (pre ++ x :: keys) with ((pre ++ [x]) ++ keys) by (rewrite <- app_assoc; reflexivity).
    replace (S (length pre)) with (length (pre ++ [x])) by (rewrite length_app; simpl; lia).
    destruct (key_ltb x best).
    + apply IH. rewrite lookup_app_r by lia. rewrite Nat.sub_diag. reflexivity.
    + apply IH. rewrite lookup_app_l; [exact Hbest|]. apply lookup_lt_Some in Hbest. exact Hbest.
Qed.

Lemma min_key_least (keys : list K) (m : K) :
  (forall a : K, key_ltb a a = false) ->
  (forall a b c : K, key_ltb a b = true -> key_ltb b c = true -> key_ltb a c = true) ->
  min_key keys = Return m ->
  In m keys /\ forall x, In x keys -> key_ltb x m = false.
Proof.
  intros Hirr Htrans. destruct keys as [|k keys]; [discriminate|].
  cbn [min_key]. intros [= <-].
  assert (Hgen : forall (l seen : list K) (b : K),
             In b seen -> (forall x, In x seen -> key_ltb x b = false) ->
             let m := fold_left (fun m x => if key_ltb x m then x else m) l b in
             In m (seen ++ l) /\ forall x, In x (seen ++ l) -> key_ltb x m = false).
  { induction l as [|y l IH]; intros seen b Hb Hseen; cbn [fold_left].
    - rewrite app_nil_r. split; assumption.
    - replace (seen ++ y :: l) with ((seen ++ [y]) ++ l)
        by (rewrite <- app_assoc; reflexivity).
      destruct (key_ltb y b) eqn:Hyb.
      + apply IH; [apply in_or_app; right; left; reflexivity|].
        intros x Hx. apply in_app_or in Hx as [Hx|[<-|[]]]; [|apply Hirr].
        destruct (key_ltb x y) eqn:Hxy; [|reflexivity].
        rewrite <- (Hseen x Hx). symmetry. apply (Htrans x y b); assumption.
      + apply IH; [apply in_or_app; left; exact Hb|].
        intros x Hx. apply in_app_or in Hx as [Hx|[<-|[]]]; [apply Hseen, Hx | exact Hyb]. }
  apply (Hgen keys [k] k); [left; reflexivity|].
  intros x [<-|[]]. apply Hirr.
Qed.
End Canonical.

Section MapState.
Context {state action K : Type} `{KeyOrder K} `{InvestigateGameMC state action K}.

(** X9. [_map_state_to_index] raises [ValueError] on an empty symmetry
    class. Otherwise it returns a transformed state, its hashable form and
    its index, and that form is the canonical key [min(states)] under which
    [_step_training] and [make_move] look the state up. When the order on the
    keys is irreflexive and transitive, no transformed state has a smaller
    form. *)
Theorem map_state_to_index_is_canonical (game : state) (player_id : Z) :
  match get_transformed_states game with
  | [] =>
      MonteCarloRLPlayer._map_state_to_index game player_id = Raise ValueError
      /\ MonteCarloRLPlayer.canonical_key game player_id = Raise ValueError
  | _ :: _ =>
      exists s k (i : nat),
        MonteCarloRLPlayer._map_state_to_index game player_id = Return (s, k, i)
        /\ get_transformed_states game !! i = Some s
        /\ k = get_hashable_state s player_id
        /\ MonteCarloRLPlayer.canonical_key game player_id = Return k
        /\ ((forall a : K, key_ltb a a = false) ->
            (forall a b c : K, key_ltb a b = true -> key_ltb b c = true ->
                               key_ltb a c = true) ->
            forall s', In s' (get_transformed_states game) ->
                       key_ltb (get_hashable_state s' player_id) k = false)
  end.
Proof.
  unfold MonteCarloRLPlayer._map_state_to_index, MonteCarloRLPlayer.canonical_key.
  destruct (get_transformed_states game) as [|t ts] eqn:Ets; [split; reflexivity|].
  set (hash := fun s : state => get_hashable_state s player_id).
  cbn [map np_argmin min_key mbind outcome_bind].
  pose proof (argmin_from_spec (map hash ts) [hash t] (hash t) 0 eq_refl) as Hidx.
  cbn zeta in Hidx. cbn [length app] in Hidx.
  set (i := argmin_from (map hash ts) 1 (hash t) 0) in *.
  set (m := fold_left (fun m x => if key_ltb x m then x else m) (map hash ts) (hash t)) in *.
  change (hash t :: map hash ts) with (map hash (t :: ts)) in Hidx |- *.
  rewrite Hidx.
  rewrite list_lookup_fmap in Hidx.
  destruct ((t :: ts) !! i) as [s|] eqn:Es; [|discriminate].
  cbn in Hidx. injection Hidx as Hm.
  exists s, m, i.
  split; [reflexivity | split; [exact Es | split; [symmetry; exact Hm | split; [reflexivity|]]]].
  intros Hirr Htrans s' Hs'.
  destruct (min_key_least (map hash (t :: ts)) m Hirr Htrans eq_refl) as (_ & Hleast).
  apply Hleast. apply (in_map hash). exact Hs'.
Qed.
End MapState.

Lemma map_state_to_index_is_canonical_witness :
  exists s k (i : nat),
    MonteCarloRLPlayer._map_state_to_index (K := Z) Gift.Middle 1 = Return (s, k, i)
    /\ MonteCarloRLPlayer.canonical_key (K := Z) Gift.Middle 1 = Return k
    /\ forall s', In s' (get_transformed_states Gift.Middle) ->
                  key_ltb (get_hashable_state s' 1) k = false.
Proof.
  pose proof (map_state_to_index_is_canonical (K := Z) Gift.Middle 1) as Hmap.
  cbn [get_transformed_states Gift.rules_mc] in Hmap.
  destruct Hmap as (s & k & i & Hrun & _ & _ & Hkey & Hleast).
  exists s, k, i. split; [exact Hrun | split; [exact Hkey|]].
  apply Hleast.
  - intros a. apply Z.ltb_irrefl.
  - intros a b c Hab Hbc. unfold key_ltb, Gift.key_order in *.
    apply Z.ltb_lt in Hab, Hbc. apply Z.ltb_lt. lia.
Defined.

(** ** Reads only add zeros *)

Section ZeroExtended.
Context {K F : Type} `{Countable K} `{FloatOps F}.

Lemma zero_extended_refl (table : gmap K F) : zero_extended table table.
Proof. intros k. left. reflexivity. Qed.

Lemma zero_extended_trans (t1 t2 t3 : gmap K F) :
  zero_extended t1 t2 -> zero_extended t2 t3 -> zero_extended t1 t3.
Proof.
  intros H12 H23 k. destruct (H12 k) as [E12|(N1 & E12)], (H23 k) as [E23|(N2 & E23)].
  - left. congruence.
  - right. split; congruence.
  - right. split; congruence.
  - congruence.
Qed.

Lemma zero_extended_read (t1 t2 : gmap K F) (k : K) :
  zero_extended t1 t2 ->
  default (of_int 0) (t2 !! k) = default (of_int 0) (t1 !! k).
Proof. intros Hze. destruct (Hze k) as [->|(-> & ->)]; reflexivity. Qed.

Lemma getitem_zero_extended (table : gmap K F) (key : K) :
  zero_extended table (snd (MissNoAddDict.getitem table key)).
Proof.
  intros k. unfold MissNoAddDict.getitem.
  destruct (table !! key) eqn:E; [left; reflexivity|]. cbn [snd].
  destruct (decide (k = key)) as [->|Hne].
  - right. split; [exact E | apply lookup_insert_eq].
  - left. apply lookup_insert_ne. congruence.
Qed.

Lemma max_by_value_zero_extended {A : Type} (key_of : A -> K) (l : list A) :
  forall (best : A) (best_v : F) (table : gmap K F),
    zero_extended table (snd (MonteCarloRLPlayer.max_by_value key_of l best best_v table)).
Proof.
  induction l as [|x l IH]; intros best best_v table; cbn [MonteCarloRLPlayer.max_by_value].
  - apply zero_extended_refl.
  - pose proof (getitem_zero_extended table (key_of x)) as Hget.
    destruct (MissNoAddDict.getitem table (key_of x)) as [v table1]. cbn [snd] in Hget.
    destruct (fltb best_v v); (eapply zero_extended_trans; [exact Hget | apply IH]).
Qed.

Lemma argmax_value_zero_extended {A : Type} (key_of : A -> K) (l : list A)
    (table table' : gmap K F) (r : A) :
  MonteCarloRLPlayer.argmax_value key_of l table = Return (r, table') ->
  zero_extended table table'.
Proof.
  destruct l as [|x l]; [discriminate|]. cbn [MonteCarloRLPlayer.argmax_value].
  pose proof (getitem_zero_extended table (key_of x)) as Hget.
  destruct (MissNoAddDict.getitem table (key_of x)) as [v table1]. cbn [snd] in Hget.
  pose proof (max_by_value_zero_extended key_of l x v table1) as Hmax.
  destruct (MonteCarloRLPlayer.max_by_value key_of l x v table1) as [r1 t1].
  intros [= <- <-]. eapply zero_extended_trans; [exact Hget | exact Hmax].
Qed.
End ZeroExtended.

Section MovesExtend.
Context {state action K F rng : Type}.
Context `{Countable K} `{KeyOrder K} `{FloatOps F} `{Random F rng}.
Context `{InvestigateGameMC state action K}.

Lemma step_training_zero_extended (self self' : MonteCarloRLPlayer.t K F) (g g' : rng)
    (game game' : state) (player_id : Z) (a : action) (k : K) :
  MonteCarloRLPlayer._step_training self g game player_id = Return (a, game', k, self', g') ->
  zero_extended (MonteCarloRLPlayer._state_values self)
                (MonteCarloRLPlayer._state_values self').
Proof.
  unfold MonteCarloRLPlayer._step_training.
  destruct (mapM _ _) as [cts| |]; try discriminate. cbn [mbind outcome_bind].
  destruct (random g) as [u g1]. destruct (fltb u _).
  - destruct (choice g1 cts) as [[t g2]| |]; try discriminate.
    cbn [mbind outcome_bind]. intros [= _ <- _]. apply zero_extended_refl.
  - destruct (MonteCarloRLPlayer.argmax_value _ cts _) as [[t table]| |] eqn:E;
      try discriminate.
    cbn [mbind outcome_bind]. intros [= _ <- _]. cbn.
    eapply argmax_value_zero_extended, E.
Qed.

Lemma make_move_zero_extended (self self' : MonteCarloRLPlayer.t K F) (g g' : rng)
    (game : state) (a : action) :
  MonteCarloRLPlayer.make_move self g game = Return (a, self', g') ->
  zero_extended (MonteCarloRLPlayer._state_values self)
                (MonteCarloRLPlayer._state_values self').
Proof.
  unfold MonteCarloRLPlayer.make_move.
  destruct (mapM _ _) as [cts| |]; try discriminate. cbn [mbind outcome_bind].
  destruct (existsb _ cts).
  - destruct (MonteCarloRLPlayer.argmax_value _ cts _) as [[t table]| |] eqn:E;
      try discriminate.
    cbn [mbind outcome_bind]. intros [= _ <- _]. cbn.
    eapply argmax_value_zero_extended, E.
  - destruct (choice g _) as [[t g2]| |]; try discriminate.
    cbn [mbind outcome_bind]. intros [= _ <- _]. apply zero_extended_refl.
Qed.

(** X10. With inhabited symmetry classes, [_step_training] on a state
    without transitions raises [IndexError] when it explores ([choice] of
    nothing) and [ValueError] when it exploits ([max] of nothing). On a state
    with transitions it returns one of them with the canonical key of its
    state, changes nothing of the learner but the table, changes the table
    only by zero entries for keys it lacks, and changes nothing at all when
    it explores. *)
Theorem step_training_takes_a_transition (self : MonteCarloRLPlayer.t K F) (g : rng)
    (game : state) (player_id : Z) :
  (forall s : state, get_transformed_states s <> []) ->
  let explore := fltb (fst (random g)) (MonteCarloRLPlayer._exploration_rate self) in
  match generate_possible_transitions_pairs game player_id with
  | [] =>
      MonteCarloRLPlayer._step_training self g game player_id
      = Raise (if explore then IndexError else ValueError)
  | ts =>
      exists a s self' g',
        MonteCarloRLPlayer._step_training self g game player_id
        = Return (a, s, canon player_id s, self', g')
        /\ In (a, s) ts
        /\ MonteCarloRLPlayer.canonical_key s player_id = Return (canon player_id s)
        /\ retabled self self'
        /\ zero_extended (MonteCarloRLPlayer._state_values self)
                         (MonteCarloRLPlayer._state_values self')
        /\ (explore = true -> self' = self)
  end.
Proof.
  intros Hclasses explore.
  destruct (generate_possible_transitions_pairs game player_id) as [|t ts] eqn:Ets.
  - unfold MonteCarloRLPlayer._step_training. rewrite Ets. cbn [mapM mbind outcome_bind mret outcome_ret].
    subst explore. destruct (random g) as [u g1]. cbn [fst]. destruct (fltb u _); reflexivity.
  - subst explore.
    destruct (fltb (fst (random g)) (MonteCarloRLPlayer._exploration_rate self)) eqn:Hu.
    + unfold MonteCarloRLPlayer._step_training.
      rewrite (canonical_transitions_triples Hclasses). cbn [mbind outcome_bind].
      destruct (random g) as [u g1]. cbn [fst] in Hu. rewrite Hu. rewrite Ets.
      pose proof (choice_spec g1 (map (fun t => (fst t, snd t, canon player_id (snd t)))
                                      (t :: ts))) as Hch.
      cbn [map] in Hch. destruct Hch as (x & g2 & Hrun & Hin). cbn [map]. rewrite Hrun.
      cbn [mbind outcome_bind].
      change (In x (map (fun t => (fst t, snd t, canon player_id (snd t))) (t :: ts))) in Hin.
      apply in_map_iff in Hin as ([a s] & <- & Hin). cbn [fst snd].
      exists a, s, self, g2.
      split; [reflexivity | split; [exact Hin | split; [|split; [|split]]]].
      * apply canonical_key_returns, Hclasses.
      * apply retabled_refl.
      * apply zero_extended_refl.
      * reflexivity.
    + destruct (step_training_greedy Hclasses self g game player_id Hu)
        as (a & s & k & table' & Hrun & Hin & -> & _); [rewrite Ets; discriminate|].
      rewrite Ets in Hin.
      exists a, s, (MonteCarloRLPlayer.set_state_values self table'), (snd (random g)).
      split; [exact Hrun | split; [exact Hin | split; [|split; [|split]]]].
      * apply canonical_key_returns, Hclasses.
      * exists table'. reflexivity.
      * eapply step_training_zero_extended, Hrun.
      * discriminate.
Qed.
End MovesExtend.

Lemma step_training_takes_a_transition_witness :
  exists a s self' g',
    MonteCarloRLPlayer._step_training (rng := unit)
      (MonteCarloRLPlayer.init (K := Z) (F := R) 1 1%R 1%R 0%R 1%R false 1%R 1 false)
      tt Gift.Middle 1
    = Return (a, s, canon 1 s, self', g')
    /\ In (a, s) [(((0, 1), TOP), Gift.Lost)]
    /\ MonteCarloRLPlayer._step_training (rng := unit)
         (MonteCarloRLPlayer.init (K := Z) (F := R) 1 1%R 1%R 0%R 1%R false 1%R 1 false)
         tt Gift.Lost 1
       = Raise (if fltb (fst (random tt))
                     (MonteCarloRLPlayer._exploration_rate
                        (MonteCarloRLPlayer.init (K := Z) (F := R) 1 1%R 1%R 0%R 1%R false
                           1%R 1 false))
                then IndexError else ValueError).
Proof.
  assert (Hclasses : forall s : Gift.position, get_transformed_states s <> [])
    by (intros s; discriminate).
  pose proof (step_training_takes_a_transition
                (MonteCarloRLPlayer.init (K := Z) (F := R) 1 1%R 1%R 0%R 1%R false 1%R 1 false)
                tt Gift.Middle 1 Hclasses) as Hmid.
  pose proof (step_training_takes_a_transition
                (MonteCarloRLPlayer.init (K := Z) (F := R) 1 1%R 1%R 0%R 1%R false 1%R 1 false)
                tt Gift.Lost 1 Hclasses) as Hlost.
  cbn zeta in Hmid, Hlost.
  cbn [generate_possible_transitions_pairs Gift.rules_mc] in Hmid, Hlost.
  destruct Hmid as (a & s & self' & g' & Hrun & Hin & _).
  exists a, s, self', g'. split; [exact Hrun | split; [exact Hin | exact Hlost]].
Defined.

(** ** Exploitation *)

Section GreedyReal.
Context {K : Type} `{Countable K}.

Lemma getitem_read (table0 table : gmap K R) (key : K) :
  zero_extended table0 table ->
  fst (MissNoAddDict.getitem table key) = default 0%R (table0 !! key)
  /\ zero_extended table0 (snd (MissNoAddDict.getitem table key)).
Proof.
  intros Hze. split.
  - rewrite getitem_value. apply (zero_extended_read table0 table key Hze).
  - eapply zero_extended_trans; [exact Hze | apply getitem_zero_extended].
Qed.

Lemma max_by_value_best {A : Type} (key_of : A -> K) (l : list A) :
  forall (best : A) (best_v : R) (table0 table : gmap K R),
    zero_extended table0 table ->
    best_v = default 0%R (table0 !! key_of best) ->
    let r := fst (MonteCarloRLPlayer.max_by_value key_of l best best_v table) in
    (r = best \/ In r l)
    /\ (best_v <= default 0%R (table0 !! key_of r))%R
    /\ forall x, In x l ->
         (default 0%R (table0 !! key_of x) <= default 0%R (table0 !! key_of r))%R.
Proof.
  induction l as [|x l IH]; intros best best_v table0 table Hze Hbest;
    cbn [MonteCarloRLPlayer.max_by_value].
  - cbn. split; [left; reflexivity | split; [subst; lra | intros x []]].
  - destruct (getitem_read table0 table (key_of x) Hze) as (Hv & Hze1).
    destruct (MissNoAddDict.getitem table (key_of x)) as [v table1]. cbn [fst snd] in Hv, Hze1.
    cbn [fltb real_ops]. destruct (Rlt_dec best_v v) as [Hlt|Hge].
    + destruct (IH x v table0 table1 Hze1 Hv) as (Hin & Hle & Hall). cbn zeta.
      split; [right; destruct Hin as [->|Hin]; [left; reflexivity | right; exact Hin]|].
      split; [lra|]. intros y [<-|Hy]; [rewrite <- Hv; exact Hle | apply Hall, Hy].
    + destruct (IH best best_v table0 table1 Hze1 Hbest) as (Hin & Hle & Hall). cbn zeta.
      split; [destruct Hin as [->|Hin]; [left; reflexivity | right; right; exact Hin]|].
      split; [exact Hle|]. intros y [<-|Hy]; [rewrite <- Hv; lra | apply Hall, Hy].
Qed.

Lemma argmax_value_best {A : Type} (key_of : A -> K) (l : list A)
    (table table' : gmap K R) (r : A) :
  MonteCarloRLPlayer.argmax_value key_of l table = Return (r, table') ->
  In r l
  /\ forall x, In x l ->
       (default 0%R (table !! key_of x) <= default 0%R (table !! key_of r))%R.
Proof.
  destruct l as [|x l]; [discriminate|]. cbn [MonteCarloRLPlayer.argmax_value].
  destruct (getitem_read table table (key_of x) (zero_extended_refl table)) as (Hv & Hze1).
  destruct (MissNoAddDict.getitem table (key_of x)) as [v table1]. cbn [fst snd] in Hv, Hze1.
  pose proof (max_by_value_best key_of l x v table table1 Hze1 Hv) as Hbest. cbn zeta in Hbest.
  destruct (MonteCarloRLPlayer.max_by_value key_of l x v table1) as [r1 t1].
  cbn [fst] in Hbest. destruct Hbest as (Hin & Hle & Hall).
  intros [= <- <-].
  split; [destruct Hin as [->|Hin]; [left; reflexivity | right; exact Hin]|].
  intros y [<-|Hy]; [rewrite <- Hv; exact Hle | apply Hall, Hy].
Qed.
End GreedyReal.

(** X11. Over the reals, exploitation picks a best successor: the
    transition returned by a greedy [_step_training], and by a [make_move]
    that knows one of the successors, has a value (the table's entry for its
    canonical key, 0 when absent) not below the value of any other
    transition. *)
Theorem greedy_choice_is_best {state action K rng : Type}
    `{Countable K} `{KeyOrder K} `{Random R rng} `{InvestigateGameMC state action K}
    (self : MonteCarloRLPlayer.t K R) (g : rng) (game : state) :
  (forall s : state, get_transformed_states s <> []) ->
  let value := fun (player_id : Z) (s : state) =>
    default 0%R (MonteCarloRLPlayer._state_values self !! canon player_id s) in
  (forall player_id a s k self' g',
      fltb (fst (random g)) (MonteCarloRLPlayer._exploration_rate self) = false ->
      MonteCarloRLPlayer._step_training self g game player_id = Return (a, s, k, self', g') ->
      forall t, In t (generate_possible_transitions_pairs game player_id) ->
                (value player_id (snd t) <= value player_id s)%R)
  /\ (forall a self' g' t0,
        In t0 (generate_possible_transitions_pairs game (get_current_player game)) ->
        MissNoAddDict.contains (MonteCarloRLPlayer._state_values self)
          (canon (get_current_player game) (snd t0)) = true ->
        MonteCarloRLPlayer.make_move self g game = Return (a, self', g') ->
        exists s,
          In (a, s) (generate_possible_transitions_pairs game (get_current_player game))
          /\ forall t,
               In t (generate_possible_transitions_pairs game (get_current_player game)) ->
               (value (get_current_player game) (snd t)
                <= value (get_current_player game) s)%R).
Proof.
  intros Hclasses value. split.
  - intros player_id a s k self' g' Hu Hrun t Ht.
    unfold MonteCarloRLPlayer._step_training in Hrun.
    rewrite (canonical_transitions_triples Hclasses) in Hrun. cbn [mbind outcome_bind] in Hrun.
    destruct (random g) as [u g1]. cbn [fst] in Hu. rewrite Hu in Hrun.
    destruct (MonteCarloRLPlayer.argmax_value _ _ _) as [[r table']| |] eqn:E;
      try discriminate.
    cbn [mbind outcome_bind] in Hrun. injection Hrun as -> _ _.
    destruct (argmax_value_best _ _ _ _ _ E) as (Hin & Hbest).
    apply in_map_iff in Hin as (t1 & [= <- <- <-] & Hin).
    apply (Hbest (fst t, snd t, canon player_id (snd t))).
    apply (in_map (fun t => (fst t, snd t, canon player_id (snd t)))). exact Ht.
  - intros a self' g' t0 Ht0 Hknown Hrun.
    destruct (mc_make_move_greedy Hclasses self g game t0 Ht0 Hknown)
      as (r & table' & Harg & Hmove).
    rewrite Hmove in Hrun. injection Hrun as <- _ _.
    destruct (argmax_value_best _ _ _ _ _ Harg) as (Hin & Hbest).
    apply in_map_iff in Hin as (t1 & <- & Hin). cbn [fst snd] in *.
    exists (snd t1). split; [destruct t1; exact Hin|].
    intros t Ht.
    apply (Hbest (fst t, canon (get_current_player game) (snd t))).
    apply (in_map (fun t => (fst t, canon (get_current_player game) (snd t)))). exact Ht.
Qed.

Lemma greedy_choice_is_best_witness :
  exists s,
    In (((0, 1), TOP), s) (generate_possible_transitions_pairs Gift.Middle 1)
    /\ forall t, In t (generate_possible_transitions_pairs Gift.Middle 1) ->
         (default 0%R (({[2%Z := 5%R]} : gmap Z R) !! canon 1 (snd t))
          <= default 0%R (({[2%Z := 5%R]} : gmap Z R) !! canon 1 s))%R.
Proof.
  assert (Hclasses : forall s : Gift.position, get_transformed_states s <> [])
    by (intros s; discriminate).
  pose (self := MonteCarloRLPlayer.set_state_values
                  (MonteCarloRLPlayer.init (K := Z) (F := R) 1 1%R 1%R 0%R 1%R false 1%R 1
                     false) {[2%Z := 5%R]}).
  destruct (greedy_choice_is_best (rng := unit) self tt Gift.Middle Hclasses) as (_ & Hmove).
  destruct (mc_make_move_greedy (rng := unit) Hclasses self tt Gift.Middle
              (((0, 1), TOP), Gift.Lost) ltac:(left; reflexivity) eq_refl)
    as (r & table' & Harg & Hrun).
  assert (Hr : fst r = ((0, 1), TOP)).
  { cbn in Harg. destruct (MissNoAddDict.getitem _ _) in Harg.
    injection Harg as <- _. reflexivity. }
  rewrite Hr in Hrun.
  exact (Hmove _ _ _ (((0, 1), TOP), Gift.Lost) ltac:(left; reflexivity) eq_refl Hrun).
Defined.

Section Playing.
Context {state action K F rng : Type}.
Context `{Countable K} `{KeyOrder K} `{FloatOps F} `{Random F rng}.
Context `{InvestigateGameMC state action K}.

(** X12. Playing does not unlearn: [make_move] changes nothing of the
    learner but the table, every key reads as before, every entry of the
    table keeps its value, and when no successor's canonical key is in the
    table the learner is left as it was. *)
Theorem playing_keeps_the_learned_values (self self' : MonteCarloRLPlayer.t K F)
    (g g' : rng) (game : state) (a : action) :
  MonteCarloRLPlayer.make_move self g game = Return (a, self', g') ->
  retabled self self'
  /\ (forall k, default (of_int 0) (MonteCarloRLPlayer._state_values self' !! k)
                = default (of_int 0) (MonteCarloRLPlayer._state_values self !! k))
  /\ (forall k v, MonteCarloRLPlayer._state_values self !! k = Some v ->
                  MonteCarloRLPlayer._state_values self' !! k = Some v)
  /\ ((forall s : state, get_transformed_states s <> []) ->
      (forall t, In t (generate_possible_transitions_pairs game (get_current_player game)) ->
                 MonteCarloRLPlayer._state_values self
                   !! canon (get_current_player game) (snd t) = None) ->
      self' = self).
Proof.
  intros Hrun.
  pose proof (make_move_zero_extended _ _ _ _ _ _ Hrun) as Hze.
  split; [|split; [|split]].
  - unfold MonteCarloRLPlayer.make_move in Hrun.
    destruct (mapM _ _) as [cts| |]; try discriminate. cbn [mbind outcome_bind] in Hrun.
    destruct (existsb _ cts).
    + destruct (MonteCarloRLPlayer.argmax_value _ cts _) as [[t table]| |]; try discriminate.
      cbn [mbind outcome_bind] in Hrun. injection Hrun as _ <- _. exists table. reflexivity.
    + destruct (choice g _) as [[t g2]| |]; try discriminate.
      cbn [mbind outcome_bind] in Hrun. injection Hrun as _ <- _. apply retabled_refl.
  - intros k. apply zero_extended_read, Hze.
  - intros k v Hk. destruct (Hze k) as [E|(E & _)]; congruence.
  - intros Hclasses Hunknown. unfold MonteCarloRLPlayer.make_move in Hrun.
    rewrite (canonical_transitions_pairs Hclasses) in Hrun. cbn [mbind outcome_bind] in Hrun.
    destruct (existsb _ _) eqn:Hex.
    + apply existsb_exists in Hex as (c & Hc & Hknown).
      apply in_map_iff in Hc as (t & <- & Ht). cbn [snd] in Hknown.
      unfold MissNoAddDict.contains in Hknown. apply bool_decide_eq_true in Hknown.
      rewrite (Hunknown t Ht) in Hknown. destruct Hknown as (? & ?). discriminate.
    + destruct (choice g _) as [[t g2]| |]; try discriminate.
      cbn [mbind outcome_bind] in Hrun. injection Hrun as _ <- _. reflexivity.
Qed.
End Playing.

Lemma playing_keeps_the_learned_values_witness :
  exists a self' g',
    MonteCarloRLPlayer.make_move (rng := unit)
      (MonteCarloRLPlayer.init (K := Z) (F := R) 1 1%R 1%R 0%R 1%R false 1%R 1 false)
      tt Gift.Start = Return (a, self', g')
    /\ self' = MonteCarloRLPlayer.init (K := Z) (F := R) 1 1%R 1%R 0%R 1%R false 1%R 1 false.
Proof.
  assert (Hclasses : forall s : Gift.position, get_transformed_states s <> [])
    by (intros s; discriminate).
  pose proof (mc_make_move_spec (rng := unit) Hclasses
                (MonteCarloRLPlayer.init (K := Z) (F := R) 1 1%R 1%R 0%R 1%R false 1%R 1 false)
                tt Gift.Start) as Hmove.
  cbn zeta in Hmove. cbn [generate_possible_transitions_pairs get_current_player Gift.rules_mc]
    in Hmove.
  destruct Hmove as (a & self' & g' & Hrun & _).
  exists a, self', g'. split; [exact Hrun|].
  destruct (playing_keeps_the_learned_values _ _ _ _ _ _ Hrun) as (_ & _ & _ & Hsame).
  apply Hsame; [exact Hclasses|]. intros t Ht. reflexivity.
Defined.

(** ** The loop of an episode *)

Section EpisodeLoop.
Context {state action K F rng : Type}.
Context `{Countable K} `{KeyOrder K} `{FloatOps F} `{Random F rng}.
Context `{EqDecision action}.
Context `{InvestigateGame state action} `{InvestigateGameMC state action K}.
Context (random_player_make_move : rng -> state -> outcome (action * rng)).





Lemma turn_keeps_shape (fuel : nat) (players : seat * seat) (max_steps_draw : Z)
    (l l' : MonteCarloRLPlayer.locals) (w w' : MonteCarloRLPlayer.world) :
  MonteCarloRLPlayer.turn random_player_make_move fuel players l w = Return (l', w') ->
  episode_shape l -> MonteCarloRLPlayer.counter l < max_steps_draw ->
  episode_shape l' /\ MonteCarloRLPlayer.counter l' <= max_steps_draw.
Proof.
  intros Hturn (Hc0 & Hlen & Hzero & Hlast) Hc.
  unfold MonteCarloRLPlayer.turn in Hturn. destruct (bool_decide _).
  - destruct (MonteCarloRLPlayer._step_training _ _ _ _) as [[[[[a g1] k1] s1] r1]| |];
      try discriminate.
    cbn [mbind outcome_bind] in Hturn.
    assert (Hz : Forall (fun e : K * Z => snd e = 0)
                   (MonteCarloRLPlayer.trajectory l ++ [(k1, 0)])).
    { apply Forall_app. split; [exact Hzero | repeat constructor]. }
    destruct (bool_decide (MonteCarloRLPlayer.last_action l = Some a)) eqn:Hsame;
      injection Hturn as <- _; unfold episode_shape; cbn;
      rewrite length_app; cbn [length].
    + apply bool_decide_eq_true in Hsame.
      split; [|lia].
      split; [lia|].
      split; [right; destruct Hlen as [(Hnone & _)|Hlen]; [congruence | lia]|].
      split; [exact Hz|].
      right. eexists. exists k1, (MonteCarloRLPlayer.trajectory l). repeat split.
    + split; [|lia].
      split; [lia|].
      split; [right; lia|].
      split; [exact Hz|].
      right. eexists. exists k1, (MonteCarloRLPlayer.trajectory l). repeat split.
  - destruct (MonteCarloRLPlayer.opponent_turn _ _ _ _ _ _) as [[g1 w1]| |];
      try discriminate.
    cbn [mbind outcome_bind] in Hturn. injection Hturn as <- _.
    unfold episode_shape; cbn.
    split; [split; [lia | split; [exact Hlen | split; [exact Hzero|]]] | lia].
    destruct Hlast as [Hnil|(who & key & front & _ & Hkey & Htraj)]; [left; exact Hnil|].
    right. eexists. exists key, front. repeat split; assumption.
Qed.

Lemma play_keeps_shape (fuel : nat) (players : seat * seat) (max_steps_draw : Z) :
  forall (l l' : MonteCarloRLPlayer.locals) (w w' : MonteCarloRLPlayer.world),
    MonteCarloRLPlayer.play random_player_make_move fuel players max_steps_draw l w
      = Return (l', w') ->
    episode_shape l -> MonteCarloRLPlayer.counter l <= max_steps_draw ->
    episode_shape l' /\ MonteCarloRLPlayer.counter l' <= max_steps_draw
    /\ (0 <= MonteCarloRLPlayer.winner l'
        \/ MonteCarloRLPlayer.counter l' = max_steps_draw).
Proof.
  induction fuel as [|fuel IH]; intros l l' w w' Hrun Hshape Hc;
    cbn [MonteCarloRLPlayer.play] in Hrun;
    destruct (Z.ltb_spec (MonteCarloRLPlayer.winner l) 0) as [Hw|Hw];
    destruct (Z.ltb_spec (MonteCarloRLPlayer.counter l) max_steps_draw) as [Hcm|Hcm];
    cbn [andb] in Hrun; try discriminate;
    try (injection Hrun as <- _; split; [exact Hshape | split; [exact Hc | lia]]).
  destruct (MonteCarloRLPlayer.turn _ fuel players l w) as [[l1 w1]| |] eqn:E;
    try discriminate.
  cbn [mbind outcome_bind] in Hrun.
  destruct (turn_keeps_shape _ _ max_steps_draw _ _ _ _ E Hshape Hcm) as (Hshape1 & Hc1).
  exact (IH _ _ _ _ Hrun Hshape1 Hc1).
Qed.

Lemma episode_start_shape : episode_shape (episode_start (state := state) (action := action)).
Proof.
  unfold episode_shape, episode_start. cbn.
  split; [lia | split; [left; split; reflexivity | split; [constructor | left; reflexivity]]].
Qed.
End EpisodeLoop.

Section EpisodeEnd.
Context {state action K F rng : Type}.
Context `{Countable K} `{KeyOrder K} `{FloatOps F} `{Random F rng}.
Context `{EqDecision action}.
Context `{InvestigateGame state action} `{InvestigateGameMC state action K}.
Context (random_player_make_move : rng -> state -> outcome (action * rng)).

Lemma play_from_start_shape (fuel : nat) (players : seat * seat) (max_steps_draw : Z)
    (l : MonteCarloRLPlayer.locals) (w w' : MonteCarloRLPlayer.world) :
  MonteCarloRLPlayer.play random_player_make_move fuel players max_steps_draw
    episode_start w = Return (l, w') ->
  episode_shape l.
Proof.
  intros Hrun. destruct (Z.le_gt_cases 0 max_steps_draw) as [Hmax|Hmax].
  - apply (play_keeps_shape _ _ _ _ _ _ _ _ Hrun); [apply episode_start_shape | exact Hmax].
  - rewrite play_done in Hrun by (right; cbn; lia).
    injection Hrun as <- _. apply episode_start_shape.
Qed.

Lemma settle_after_play (fuel : nat) (players : seat * seat)
    (max_steps_draw episode : Z) (l : MonteCarloRLPlayer.locals)
    (w w' : MonteCarloRLPlayer.world) (self : MonteCarloRLPlayer.t K F) :
  MonteCarloRLPlayer.play random_player_make_move fuel players max_steps_draw
    episode_start w = Return (l, w') ->
  match MonteCarloRLPlayer.trajectory l with
  | [] => MonteCarloRLPlayer.settle episode l self = Raise IndexError
  | _ :: _ =>
      exists who key front,
        MonteCarloRLPlayer.player l = Some who
        /\ MonteCarloRLPlayer.trajectory l = front ++ [(key, 0)]
        /\ Forall (fun e => snd e = 0) front
        /\ MonteCarloRLPlayer.settle episode l self
           = Return
               (MonteCarloRLPlayer.backward
                  (MonteCarloRLPlayer.append_reward
                     (MonteCarloRLPlayer.set_exploration_rate self
                        (np_clip
                           (fexp (fmul (fneg (MonteCarloRLPlayer._exploration_decay_rate self))
                                       (of_int episode)))
                           (MonteCarloRLPlayer._min_exploration_rate self) (of_int 1)))
                     (MonteCarloRLPlayer._game_reward who (MonteCarloRLPlayer.winner l)))
                  (front
                   ++ [(key, MonteCarloRLPlayer._game_reward who
                               (MonteCarloRLPlayer.winner l))]))
  end.
Proof.
  intros Hrun. destruct (play_from_start_shape _ _ _ _ _ _ Hrun) as (_ & _ & Hzero & Hlast).
  unfold MonteCarloRLPlayer.settle.
  destruct (MonteCarloRLPlayer.trajectory l) as [|e t] eqn:Et; [reflexivity|].
  destruct Hlast as [Hnil|(who & key & front & Hwho & Hkey & Htraj)]; [discriminate|].
  cbn zeta. rewrite Hwho, Hkey, Htraj, removelast_last.
  rewrite Htraj in Hzero. apply Forall_app in Hzero as (Hfront & _).
  exists who, key, front.
  split; [reflexivity | split; [reflexivity | split; [exact Hfront | reflexivity]]].
Qed.

(** X13. After the loop of an episode, what follows it never finds
    [player] or [canonical_state_repr_index] unbound. With an empty
    trajectory (the learner never moved) [trajectory.pop()] raises
    [IndexError]; otherwise the trajectory that is backed up is the played
    one, all rewards 0, with the reward of the game in place of the reward of
    its last entry, under the same key. *)
Theorem game_reward_replaces_the_last_reward (fuel : nat) (players : seat * seat)
    (max_steps_draw episode : Z) (l : MonteCarloRLPlayer.locals)
    (w w' : MonteCarloRLPlayer.world) (self : MonteCarloRLPlayer.t K F) :
  MonteCarloRLPlayer.play random_player_make_move fuel players max_steps_draw
    episode_start w = Return (l, w') ->
  MonteCarloRLPlayer.settle episode l self <> Raise UnboundLocalError
  /\ (MonteCarloRLPlayer.trajectory l = [] ->
      MonteCarloRLPlayer.settle episode l self = Raise IndexError)
  /\ (MonteCarloRLPlayer.trajectory l <> [] ->
      exists who key front,
        MonteCarloRLPlayer.player l = Some who
        /\ MonteCarloRLPlayer.trajectory l = front ++ [(key, 0)]
        /\ Forall (fun e => snd e = 0) front
        /\ MonteCarloRLPlayer.settle episode l self
           = Return
               (MonteCarloRLPlayer.backward
                  (MonteCarloRLPlayer.append_reward
                     (MonteCarloRLPlayer.set_exploration_rate self
                        (np_clip
                           (fexp (fmul (fneg (MonteCarloRLPlayer._exploration_decay_rate self))
                                       (of_int episode)))
                           (MonteCarloRLPlayer._min_exploration_rate self) (of_int 1)))
                     (MonteCarloRLPlayer._game_reward who (MonteCarloRLPlayer.winner l)))
                  (front
                   ++ [(key, MonteCarloRLPlayer._game_reward who
                               (MonteCarloRLPlayer.winner l))]))).
Proof.
  intros Hrun. pose proof (settle_after_play _ _ _ episode _ _ _ self Hrun) as Hend.
  destruct (MonteCarloRLPlayer.trajectory l) as [|e t] eqn:Et.
  - rewrite Hend. split; [discriminate | split; [reflexivity | contradiction]].
  - destruct Hend as (who & key & front & Hwho & Htraj & Hfront & Hsettle).
    split; [rewrite Hsettle; discriminate | split; [discriminate|]].
    intros _. exists who, key, front.
    split; [exact Hwho | split; [exact Htraj | split; [exact Hfront | exact Hsettle]]].
Qed.

(** X14. When the loop of an episode ends, there is a winner or the counter
    of repeated actions has reached [max_steps_draw] exactly; an episode that
    ends without a winner saw more learner moves than [max_steps_draw]; and
    the reward of the game is -1 exactly when the winner is -1. *)
Theorem draw_needs_more_moves_than_the_limit (fuel : nat) (players : seat * seat)
    (max_steps_draw : Z) (l : MonteCarloRLPlayer.locals)
    (w w' : MonteCarloRLPlayer.world) :
  0 <= max_steps_draw ->
  MonteCarloRLPlayer.play random_player_make_move fuel players max_steps_draw
    episode_start w = Return (l, w') ->
  (0 <= MonteCarloRLPlayer.winner l \/ MonteCarloRLPlayer.counter l = max_steps_draw)
  /\ (MonteCarloRLPlayer.winner l < 0 -> 0 < max_steps_draw ->
      max_steps_draw < Z.of_nat (length (MonteCarloRLPlayer.trajectory l)))
  /\ (forall who,
        MonteCarloRLPlayer._game_reward who (MonteCarloRLPlayer.winner l) = -1
        <-> MonteCarloRLPlayer.winner l = -1).
Proof.
  intros Hmax Hrun.
  destruct (play_keeps_shape _ _ _ _ _ _ _ _ Hrun episode_start_shape Hmax)
    as ((_ & Hlen & _) & _ & Hexit).
  split; [exact Hexit | split].
  - intros Hw Hpos. destruct Hlen as [(_ & Hc)|Hlen]; lia.
  - intros who. unfold MonteCarloRLPlayer._game_reward.
    destruct (Z.eqb_spec (MonteCarloRLPlayer.winner l) (-1)); [tauto|].
    destruct (bool_decide (Self = who)); split; (discriminate || contradiction || lia).
Qed.
End EpisodeEnd.

Lemma game_reward_replaces_the_last_reward_witness :
  exists l w' who key front self',
    MonteCarloRLPlayer.play (F := R) (rng := unit) Gift.random_player_make_move 2
      (RandomPlayer, Self) 10 episode_start
      {| MonteCarloRLPlayer.learner :=
           MonteCarloRLPlayer.init (K := Z) (F := R) 1 1%R 1%R 0%R 1%R false 1%R 1 false;
         MonteCarloRLPlayer.gen := tt;
         MonteCarloRLPlayer.minmax_first := MinMaxPlayer.init 0 1 false;
         MonteCarloRLPlayer.minmax_second := MinMaxPlayer.init 1 1 false |} = Return (l, w')
    /\ MonteCarloRLPlayer.trajectory l = front ++ [(key, 0)]
    /\ MonteCarloRLPlayer.settle 0 l (MonteCarloRLPlayer.learner w') = Return self'
    /\ MonteCarloRLPlayer.player l = Some who.
Proof.
  destruct (gift_play (F := R) (rng := unit)
              {| MonteCarloRLPlayer.learner :=
                   MonteCarloRLPlayer.init (K := Z) (F := R) 1 1%R 1%R 0%R 1%R false 1%R 1 false;
                 MonteCarloRLPlayer.gen := tt;
                 MonteCarloRLPlayer.minmax_first := MinMaxPlayer.init 0 1 false;
                 MonteCarloRLPlayer.minmax_second := MinMaxPlayer.init 1 1 false |}
              10 ltac:(lia)) as (table' & g' & Hplay).
  pose proof (game_reward_replaces_the_last_reward _ _ _ _ 0 _ _ _
                (MonteCarloRLPlayer.set_state_values
                   (MonteCarloRLPlayer.init (K := Z) (F := R) 1 1%R 1%R 0%R 1%R false 1%R 1
                      false) table') Hplay) as (_ & _ & Hend).
  cbn [MonteCarloRLPlayer.trajectory] in Hend.
  destruct Hend as (who & key & front & Hwho & Htraj & _ & Hsettle); [discriminate|].
  eexists. eexists. exists who, key, front. eexists.
  split; [exact Hplay | split; [exact Htraj | split; [exact Hsettle | exact Hwho]]].
Defined.

Lemma draw_needs_more_moves_than_the_limit_witness :
  exists l w',
    MonteCarloRLPlayer.play (F := R) (rng := unit) Gift.random_player_make_move 2
      (RandomPlayer, Self) 10 episode_start
      {| MonteCarloRLPlayer.learner :=
           MonteCarloRLPlayer.init (K := Z) (F := R) 1 1%R 1%R 0%R 1%R false 1%R 1 false;
         MonteCarloRLPlayer.gen := tt;
         MonteCarloRLPlayer.minmax_first := MinMaxPlayer.init 0 1 false;
         MonteCarloRLPlayer.minmax_second := MinMaxPlayer.init 1 1 false |} = Return (l, w')
    /\ (0 <= MonteCarloRLPlayer.winner l \/ MonteCarloRLPlayer.counter l = 10).
Proof.
  destruct (gift_play (F := R) (rng := unit)
              {| MonteCarloRLPlayer.learner :=
                   MonteCarloRLPlayer.init (K := Z) (F := R) 1 1%R 1%R 0%R 1%R false 1%R 1 false;
                 MonteCarloRLPlayer.gen := tt;
                 MonteCarloRLPlayer.minmax_first := MinMaxPlayer.init 0 1 false;
                 MonteCarloRLPlayer.minmax_second := MinMaxPlayer.init 1 1 false |}
              10 ltac:(lia)) as (table' & g' & Hplay).
  eexists. eexists. split; [exact Hplay|].
  exact (proj1 (draw_needs_more_moves_than_the_limit _ _ _ 10 _ _ _ ltac:(lia) Hplay)).
Defined.

(** ** The training run *)

Lemma range_length (n : Z) : length (MonteCarloRLPlayer.range n) = Z.to_nat n.
Proof. unfold MonteCarloRLPlayer.range. rewrite length_map, length_seq. reflexivity. Qed.

Lemma range_nil (n : Z) : n <= 0 -> MonteCarloRLPlayer.range n = [].
Proof.
  intros Hn. unfold MonteCarloRLPlayer.range.
  replace (Z.to_nat n) with 0%nat by lia. reflexivity.
Qed.

Lemma range_cons (n : Z) :
  0 < n -> exists rest, MonteCarloRLPlayer.range n = 0 :: rest.
Proof.
  intros Hn. unfold MonteCarloRLPlayer.range.
  destruct (Z.to_nat n) as [|k] eqn:Ek; [lia|]. eexists. reflexivity.
Qed.

Section Training.
Context {state action K F rng : Type}.
Context `{Countable K} `{KeyOrder K} `{FloatOps F} `{Random F rng}.
Context `{EqDecision action}.
Context `{InvestigateGame state action} `{InvestigateGameMC state action K}.
Context (random_player_make_move : rng -> state -> outcome (action * rng)).

Lemma same_settings_refl (a : MonteCarloRLPlayer.t K F) : same_settings a a.
Proof. repeat split. Qed.

Lemma same_settings_trans (a b c : MonteCarloRLPlayer.t K F) :
  same_settings a b -> same_settings b c -> same_settings a c.
Proof.
  intros (A1 & A2 & A3 & A4 & A5 & A6 & A7 & A8 & A9)
         (B1 & B2 & B3 & B4 & B5 & B6 & B7 & B8 & B9).
  repeat split; congruence.
Qed.

Lemma episode_body_log (fuel : nat) (max_steps_draw episode : Z)
    (player_tuples seats' : MonteCarloRLPlayer.seats) (w w' : MonteCarloRLPlayer.world) :
  MonteCarloRLPlayer.episode_body random_player_make_move fuel max_steps_draw episode
    player_tuples w = Return (seats', w') ->
  same_settings (MonteCarloRLPlayer.learner w) (MonteCarloRLPlayer.learner w')
  /\ exists r,
       MonteCarloRLPlayer._rewards (MonteCarloRLPlayer.learner w')
       = MonteCarloRLPlayer._rewards (MonteCarloRLPlayer.learner w) ++ [r]
       /\ (r = -10 \/ r = -1 \/ r = 10).
Proof.
  intros Hrun.
  destruct (episode_body_learner _ _ _ _ _ _ _ _ Hrun) as (table & who & winner & ->).
  split; [repeat split|].
  exists (MonteCarloRLPlayer._game_reward who winner). split; [reflexivity|].
  destruct (game_reward_range who winner) as [->|[->| ->]]; tauto.
Qed.

Lemma episodes_log (fuel : nat) (max_steps_draw : Z) (indices : list Z) :
  forall (player_tuples seats' : MonteCarloRLPlayer.seats) (w w' : MonteCarloRLPlayer.world),
    MonteCarloRLPlayer.episodes random_player_make_move fuel max_steps_draw indices
      player_tuples w = Return (seats', w') ->
    same_settings (MonteCarloRLPlayer.learner w) (MonteCarloRLPlayer.learner w')
    /\ exists rs,
         MonteCarloRLPlayer._rewards (MonteCarloRLPlayer.learner w')
         = MonteCarloRLPlayer._rewards (MonteCarloRLPlayer.learner w) ++ rs
         /\ length rs = length indices
         /\ Forall (fun r => r = -10 \/ r = -1 \/ r = 10) rs.
Proof.
  induction indices as [|i indices IH]; intros player_tuples seats' w w' Hrun;
    cbn [MonteCarloRLPlayer.episodes] in Hrun.
  - injection Hrun as _ <-. split; [apply same_settings_refl|].
    exists []. rewrite app_nil_r. repeat split. constructor.
  - destruct (MonteCarloRLPlayer.episode_body _ _ _ i player_tuples w)
      as [[s1 w1]| |] eqn:E; try discriminate.
    cbn [mbind outcome_bind] in Hrun.
    destruct (episode_body_log _ _ _ _ _ _ _ E) as (Hset1 & r & Hr & Hin).
    destruct (IH _ _ _ _ Hrun) as (Hset & rs & Hrs & Hlen & Hall).
    split; [eapply same_settings_trans; eassumption|].
    exists (r :: rs). rewrite Hrs, Hr, <- app_assoc. cbn [app length].
    split; [reflexivity | split; [lia | constructor; assumption]].
Qed.

(** X15. A training run that returns has appended exactly one reward per
    episode to the history, each -10, -1 or 10, and has left every
    hyperparameter of the learner as it was. *)
Theorem training_logs_one_reward_per_episode (fuel : nat)
    (self self' : MonteCarloRLPlayer.t K F) (g g' : rng) (max_steps_draw : Z) :
  MonteCarloRLPlayer.train random_player_make_move fuel self g max_steps_draw
    = Return (self', g') ->
  same_settings self self'
  /\ exists rs,
       MonteCarloRLPlayer.rewards self' = MonteCarloRLPlayer.rewards self ++ rs
       /\ length rs = Z.to_nat (MonteCarloRLPlayer._n_episodes self)
       /\ Forall (fun r => r = -10 \/ r = -1 \/ r = 10) rs.
Proof.
  unfold MonteCarloRLPlayer.train.
  destruct (MonteCarloRLPlayer.episodes _ _ _ _ _ _) as [[s1 w1]| |] eqn:E; try discriminate.
  cbn [mbind outcome_bind].
  destruct (episodes_log _ _ _ _ _ _ _ E) as (Hset & rs & Hrs & Hlen & Hall).
  cbn [MonteCarloRLPlayer.learner] in Hset, Hrs.
  destruct (MonteCarloRLPlayer._rewards (MonteCarloRLPlayer.learner w1)) eqn:Erew;
    [discriminate|].
  intros [= <- _]. split; [exact Hset|].
  exists rs. unfold MonteCarloRLPlayer.rewards. rewrite Erew, Hrs.
  rewrite range_length in Hlen. split; [reflexivity | split; assumption].
Qed.

(** X16. [train] with no episode to run raises [IndexError] at its last
    print when the history of rewards is empty, and returns the learner
    untouched otherwise. With an episode to run and [max_steps_draw <= 0] it
    raises [IndexError]: the loop of the first episode never runs and its
    empty trajectory is popped. *)
Theorem training_edge_cases (fuel : nat) (self : MonteCarloRLPlayer.t K F) (g : rng)
    (max_steps_draw : Z) :
  (MonteCarloRLPlayer._n_episodes self <= 0 ->
   MonteCarloRLPlayer.train random_player_make_move fuel self g max_steps_draw
   = match MonteCarloRLPlayer.rewards self with
     | [] => Raise IndexError
     | _ :: _ => Return (self, g)
     end)
  /\ (0 < MonteCarloRLPlayer._n_episodes self -> max_steps_draw <= 0 ->
      MonteCarloRLPlayer.train random_player_make_move fuel self g max_steps_draw
      = Raise IndexError).
Proof.
  split.
  - intros Hn. unfold MonteCarloRLPlayer.train. rewrite (range_nil _ Hn).
    cbn [MonteCarloRLPlayer.episodes mbind outcome_bind MonteCarloRLPlayer.learner
         MonteCarloRLPlayer.gen].
    unfold MonteCarloRLPlayer.rewards. reflexivity.
  - intros Hn Hmax. unfold MonteCarloRLPlayer.train.
    destruct (range_cons _ Hn) as (rest & ->).
    cbn [MonteCarloRLPlayer.episodes]. unfold MonteCarloRLPlayer.episode_body.
    cbn zeta. rewrite play_done by (right; cbn; lia).
    cbn [mbind outcome_bind]. reflexivity.
Qed.



End Training.

Section GiftTraining.
Context {F rng : Type} `{FloatOps F} `{Random F rng}.

Lemma gift_episodes (w : MonteCarloRLPlayer.world (K := Z) (F := F) (rng := rng)) :
  MonteCarloRLPlayer._minmax (MonteCarloRLPlayer.learner w) = false ->
  exists seats' w',
    MonteCarloRLPlayer.episodes Gift.random_player_make_move 2 10 [0]
      ((RandomPlayer, Self), (Self, RandomPlayer)) w = Return (seats', w')
    /\ MonteCarloRLPlayer._rewards (MonteCarloRLPlayer.learner w')
       = MonteCarloRLPlayer._rewards (MonteCarloRLPlayer.learner w) ++ [10].
Proof.
  intros Hmm. destruct (gift_episode_body w 10 ltac:(lia) Hmm) as (seats' & w' & Hrun & Hrew).
  exists seats', w'. cbn [MonteCarloRLPlayer.episodes]. rewrite Hrun.
  split; [reflexivity | exact Hrew].
Qed.

Lemma gift_train (self : MonteCarloRLPlayer.t Z F) (g : rng) :
  MonteCarloRLPlayer._minmax self = false ->
  MonteCarloRLPlayer._n_episodes self = 1 ->
  exists self' g',
    MonteCarloRLPlayer.train Gift.random_player_make_move 2 self g 10 = Return (self', g').
Proof.
  intros Hmm Hn. unfold MonteCarloRLPlayer.train. rewrite Hn.
  change (MonteCarloRLPlayer.range 1) with [0].
  destruct (gift_episodes
              {| MonteCarloRLPlayer.learner := self; MonteCarloRLPlayer.gen := g;
                 MonteCarloRLPlayer.minmax_first :=
                   MinMaxPlayer.init 0 (MonteCarloRLPlayer._depth self)
                     (MonteCarloRLPlayer._symmetries self);
                 MonteCarloRLPlayer.minmax_second :=
                   MinMaxPlayer.init 1 (MonteCarloRLPlayer._depth self)
                     (MonteCarloRLPlayer._symmetries self) |} Hmm)
    as (seats' & w' & -> & Hrew).
  cbn [mbind outcome_bind]. rewrite Hrew.
  destruct (MonteCarloRLPlayer._rewards _ ++ [10]) eqn:E.
  - apply app_eq_nil in E as (_ & E). discriminate.
  - eexists. eexists. reflexivity.
Qed.
End GiftTraining.

Lemma training_logs_one_reward_per_episode_witness :
  exists self' g' rs,
    MonteCarloRLPlayer.train (rng := unit) Gift.random_player_make_move 2
      (MonteCarloRLPlayer.init (K := Z) (F := R) 1 1%R 1%R 0%R 1%R false 1%R 1 false)
      tt 10 = Return (self', g')
    /\ MonteCarloRLPlayer.rewards self' = [] ++ rs
    /\ length rs = 1%nat.
Proof.
  destruct (gift_train (rng := unit)
              (MonteCarloRLPlayer.init (K := Z) (F := R) 1 1%R 1%R 0%R 1%R false 1%R 1 false)
              tt eq_refl eq_refl) as (self' & g' & Hrun).
  destruct (training_logs_one_reward_per_episode _ _ _ _ _ _ _ Hrun)
    as (_ & rs & Hrs & Hlen & _).
  exists self', g', rs. split; [exact Hrun | split; [exact Hrs | exact Hlen]].
Defined.


(** ** The learned values stay between the rewards *)

Section Within.
Context {K : Type} `{Countable K}.




End Within.

Section WithinTraining.
Context {state action K rng : Type}.
Context `{Countable K} `{KeyOrder K} `{Random R rng}.
Context `{EqDecision action}.
Context `{InvestigateGame state action} `{InvestigateGameMC state action K}.
Context (random_player_make_move : rng -> state -> outcome (action * rng)).



End WithinTraining.


(** ** The update rule *)



(** ** The searches return, to any depth *)

(** X20. On boards with no more rows than columns, a call of [max_value]
    or [min_value] of either engine at depth [d] returns a value: it raises
    nothing and, whatever the game, its recursion is at most [max(d, 0) + 1]
    calls deep. *)
Theorem searches_return_within_their_depth `{InvestigateGame state action}
    (fuel : nat) (depth : Z) (game : state) (key : Z) (alpha beta : score)
    (self : Player) :
  (forall s : state, (shape0 (get_board s) <= shape1 (get_board s))%nat) ->
  (Z.to_nat depth < fuel)%nat ->
  (exists v self', MinMaxPlayer.max_value fuel game key depth self = Return (v, self'))
  /\ (exists v self', MinMaxPlayer.min_value fuel game key depth self = Return (v, self'))
  /\ (exists v self',
        AlphaBetaMinMaxPlayer.max_value fuel game key depth alpha beta self
        = Return (v, self'))
  /\ (exists v self',
        AlphaBetaMinMaxPlayer.min_value fuel game key depth alpha beta self
        = Return (v, self')).
Proof.
  intros Hfit Hfuel.
  destruct (minmax_returns Hfit fuel depth Hfuel game key self) as (Hmax & Hmin).
  destruct (alphabeta_returns Hfit fuel depth Hfuel game key alpha beta self)
    as (Hamax & Hamin).
  split; [exact Hmax | split; [exact Hmin | split; [exact Hamax | exact Hamin]]].
Qed.

Lemma searches_return_within_their_depth_witness :
  exists v self',
    MinMaxPlayer.max_value 3 Crossing.Root 0 2 (MinMaxPlayer.init 0 3 false)
    = Return (v, self').
Proof.
  refine (proj1 (searches_return_within_their_depth 3 2 Crossing.Root 0 NegInf PosInf
                   (MinMaxPlayer.init 0 3 false) _ _)).
  - intros s. destruct s; cbn; lia.
  - cbn. lia.
Defined.
